(** * charmap: bulk token substitution over a directory tree

    A shallow embedding of [main.go] of ashtonian/charmap, and the
    properties of its replacement engine, file filter, per-file processor
    and worker pool.

    Go strings and byte slices are sequences of bytes: they are modelled by
    [string] (a sequence of 8-bit [ascii] characters).  A Go map is modelled
    by the sequence of its entries in the order a [range] loop yields them,
    which Go leaves open.  The file system is a finite map from paths to
    files.  The goroutines of [processFiles] are modelled by a step relation
    on the state they share, and a run by any interleaving of their steps. *)

From Stdlib Require Import String Ascii List Arith ZArith NArith Lia Bool.
From stdpp Require Import base option list gmap strings.

Local Open Scope string_scope.
Local Open Scope list_scope.
Local Open Scope nat_scope.

(** ** The functions of Go's [strings] package that the program calls *)

(** [strings.HasPrefix(s, prefix)]. *)
Definition HasPrefix (s p : string) : bool := String.prefix p s.

Arguments HasPrefix : simpl never.

(** The slice [s[n:]]. *)
Fixpoint slice_from (s : string) (n : nat) : string :=
  match n, s with
  | S k, String _ r => slice_from r k
  | _, _ => s
  end.

(** The slice [s[a:a+n]]. *)
Definition slice (s : string) (a n : nat) : string := substring a n s.

(** [strings.Index(s, substr)]: the index of the first instance of [substr]
    in [s]; [None] stands for Go's [-1]. *)
Fixpoint Index (s substr : string) : option nat :=
  if HasPrefix s substr then Some 0
  else match s with
       | EmptyString => None
       | String _ r => S <$> Index r substr
       end.

(** *** [strings.Replacer]

    [strings.NewReplacer(old1, new1, old2, new2, ...)] is modelled by the list
    of its (old, new) pairs in argument order.  Whatever algorithm the
    library picks for a given argument list (single string, byte table or
    the generic trie), the documented behaviour is the one of the generic
    algorithm: replacements are performed in the order they appear in the
    target string, without overlapping matches, and the old strings are
    compared in argument order. *)
Definition Replacer : Type := list (string * string).

Definition NewReplacer (oldnew : list (string * string)) : Replacer := oldnew.

(** What one pass of the replacer writes: a byte copied from the input,
    or the new string written in place of an occurrence of an old one. *)
Inductive chunk : Type :=
| Lit (c : ascii)
| Sub (old new : string).

Definition chunk_out (k : chunk) : string :=
  match k with
  | Lit c => String c EmptyString
  | Sub _ new => new
  end.

(** The bytes of the input that a chunk stands for. *)
Definition chunk_in (k : chunk) : string :=
  match k with
  | Lit c => String c EmptyString
  | Sub old _ => old
  end.

Definition is_sub (k : chunk) : bool :=
  match k with
  | Lit _ => false
  | Sub _ _ => true
  end.

Fixpoint render (ks : list chunk) : string :=
  match ks with
  | [] => EmptyString
  | k :: ks' => chunk_out k +:+ render ks'
  end.

Fixpoint consumed (ks : list chunk) : string :=
  match ks with
  | [] => EmptyString
  | k :: ks' => chunk_in k +:+ consumed ks'
  end.

(** [genericReplacer.lookup(s, ignoreRoot)]: among the old strings that are
    a prefix of [s], the one that comes first in argument order; with
    [ignoreRoot] the empty old string is not considered. *)
Definition candidate (s : string) (ignoreRoot : bool) (p : string * string) : bool :=
  HasPrefix s p.1 && negb (ignoreRoot && (p.1 =? ""))%string.

Definition lookup_old (r : Replacer) (s : string) (ignoreRoot : bool)
  : option (string * string) :=
  List.find (candidate s ignoreRoot) r.

(** The loop of [genericReplacer.WriteString] on the rest [s] of the input,
    [prevMatchEmpty] telling whether the previous iteration matched the
    empty old string at this same position.  Each iteration either writes a
    replacement and skips the matched old string, or copies one byte. *)
Fixpoint replace_loop (r : Replacer) (fuel : nat) (prevMatchEmpty : bool)
    (s : string) : list chunk :=
  match fuel with
  | 0 => []
  | S fuel' =>
      match lookup_old r s prevMatchEmpty with
      | Some (old, new) =>
          Sub old new
            :: replace_loop r fuel' (old =? "")%string (slice_from s (String.length old))
      | None =>
          match s with
          | EmptyString => []
          | String c rest => Lit c :: replace_loop r fuel' false rest
          end
      end
  end.

(** The loop runs at most twice per position (an empty match, then a match
    or a copied byte) and once more at the end of the input. *)
Definition replace_fuel (s : string) : nat := 2 * String.length s + 2.

Definition replace_chunks (r : Replacer) (s : string) : list chunk :=
  replace_loop r (replace_fuel s) false s.

(** The method [Replace(s)] of a [Replacer]. *)
Definition Replace (r : Replacer) (s : string) : string :=
  render (replace_chunks r s).

(** The number of substitutions one call of [Replace] performs. *)
Definition substitutions (r : Replacer) (s : string) : nat :=
  length (filter (λ k, is_sub k = true) (replace_chunks r s)).

(** ** Errors

    The error values the program builds; [%w] wrapping keeps the cause. *)
#[warning="-register-all"]
Inductive error : Type :=
| ErrNotSet (missing : string)
    (* fmt.Errorf("env/flag %q not set", missing) *)
| ErrNotExist (path : string)
    (* the error of os.ReadFile on a path that has no file the process
       can read *)
| ErrPermission (path : string)
    (* the error of a call the system does not permit: os.WriteFile on a
       file the process may not write, the reading of a directory it may
       not list *)
| ErrFailedToProcess (path : string) (cause : error)
    (* fmt.Errorf("failed to process %q: %w", path, err) *)
| ErrFailedToWalk (dir : string) (cause : error)
    (* fmt.Errorf("failed to walk directory %q: %w", dir, err) *)
| ErrJoin (errs : list error).
    (* errors.Join(errs...) *)

(** ** The token replacer: [buildNewReplacer] *)

(** [map[string]string], as the sequence of entries a [range] loop over the
    map yields.  Go leaves the iteration order unspecified, so a property of
    the program has to hold for every order of the entries. *)
Definition StringMap : Type := list (string * string).

Definition has_key (values : StringMap) (k : string) : Prop := k ∈ values.*1.

(** [type replacer func(txt []byte) ([]byte, bool, error)]: the new content
    ([None] for [nil]), the changed flag and the error ([None] for [nil]). *)
Definition replacer : Type := string → option string * bool * option error.

(** The [pairs] slice: [openStr+k+closeStr, v] for every entry of [values]. *)
Definition pairs (openStr closeStr : string) (values : StringMap)
  : list (string * string) :=
  (λ kv, (openStr +:+ kv.1 +:+ closeStr, kv.2)) <$> values.

Definition buildNewReplacer (open close : string) (values : StringMap) : replacer :=
  let strReplacer := NewReplacer (pairs open close values) in
  λ txt,
    let out := Replace strReplacer txt in
    let changed := negb (out =? txt)%string in
    match Index out open with
    | Some idx =>
        let start := idx + String.length open in
        match Index (slice_from out start) close with
        | Some end_ =>
            let missing := slice out start end_ in
            (None, false, Some (ErrNotSet missing))
        | None => (Some out, changed, None)
        end
    | None => (Some out, changed, None)
    end.

(** ** The file filter

    A compiled [*regexp.Regexp] is modelled by its syntax tree, for the part
    of the RE2 syntax the program's patterns use; [MatchString] is the
    unanchored search of the [regexp] package. *)
Inductive Regexp : Type :=
| RFail                       (* matches nothing *)
| REmpty                      (* the empty string *)
| RChar (c : ascii)           (* a literal byte *)
| RAny                        (* [.]: any byte but a newline *)
| RBol                        (* [^]: at the beginning of the text *)
| REol                        (* [$]: at the end of the text *)
| RSeq (r1 r2 : Regexp)
| RAlt (r1 r2 : Regexp)
| RStar (r : Regexp).

(** A literal string, byte by byte. *)
Fixpoint RLit (s : string) : Regexp :=
  match s with
  | EmptyString => REmpty
  | String c rest => RSeq (RChar c) (RLit rest)
  end.

(** Whether [r] matches the empty string at a position that is at the
    beginning ([bol]) or the end ([eol]) of the text. *)
Fixpoint nullable (bol eol : bool) (r : Regexp) : bool :=
  match r with
  | RFail => false
  | REmpty => true
  | RChar _ => false
  | RAny => false
  | RBol => bol
  | REol => eol
  | RSeq r1 r2 => nullable bol eol r1 && nullable bol eol r2
  | RAlt r1 r2 => nullable bol eol r1 || nullable bol eol r2
  | RStar _ => true
  end.

Definition newline : ascii := "010"%char.

(** What is left of [r] to match after the byte [c], read at a position
    that is at the beginning of the text iff [bol]. *)
Fixpoint deriv (bol : bool) (c : ascii) (r : Regexp) : Regexp :=
  match r with
  | RFail | REmpty | RBol | REol => RFail
  | RChar c' => if Ascii.eqb c c' then REmpty else RFail
  | RAny => if Ascii.eqb c newline then RFail else REmpty
  | RSeq r1 r2 =>
      RAlt (RSeq (deriv bol c r1) r2)
           (if nullable bol false r1 then deriv bol c r2 else RFail)
  | RAlt r1 r2 => RAlt (deriv bol c r1) (deriv bol c r2)
  | RStar r1 => RSeq (deriv bol c r1) (RStar r1)
  end.

(** Whether [r] matches a prefix of [s]. *)
Fixpoint match_here (bol : bool) (r : Regexp) (s : string) : bool :=
  match s with
  | EmptyString => nullable bol true r
  | String c rest => nullable bol false r || match_here false (deriv bol c r) rest
  end.

Fixpoint search (bol : bool) (r : Regexp) (s : string) : bool :=
  match_here bol r s
  || match s with
     | EmptyString => false
     | String _ rest => search false r rest
     end.

(** [rx.MatchString(s)]: whether [s] contains any match of [rx]. *)
Definition MatchString (rx : Regexp) (s : string) : bool := search true rx s.

Record fileFilter : Type := mkFileFilter {
  includes : list Regexp;
  excludes : list Regexp;
}.

(** The method [match] of a [fileFilter]. *)
Definition fileFilter_match (f : fileFilter) (path : string) : bool :=
  if existsb (λ rx, MatchString rx path) (excludes f) then false
  else if Nat.eqb (length (includes f)) 0 then true
  else existsb (λ rx, MatchString rx path) (includes f).

(** The pattern [.*\.yaml$]. *)
Definition rx_yaml : Regexp := RSeq (RStar RAny) (RSeq (RLit ".yaml") REol).

(** The pattern [^\.git(/|$)], the default of the [-ignore] flag. *)
Definition rx_git : Regexp := RSeq RBol (RSeq (RLit ".git") (RAlt (RChar "/") REol)).

(** The pattern [.*\.ya?ml$], the default of the [-include] flag. *)
Definition rx_ya_ml : Regexp :=
  RSeq (RStar RAny)
    (RSeq (RLit ".y") (RSeq (RAlt (RChar "a") REmpty) (RSeq (RLit "ml") REol))).

(** The pattern [(^|/)\.git(/|$)] of [TestDefaultFileFilter]. *)
Definition rx_git_anywhere : Regexp :=
  RSeq (RAlt RBol (RChar "/")) (RSeq (RLit ".git") (RAlt (RChar "/") REol)).

(** ** The file system and the [os] calls of [processFile] *)

(** A regular file that the process can read: its bytes and the permission
    bits of its mode. *)
Record file : Type := File {
  data : string;
  perm : N;
}.

Abbreviation fsys := (gmap string file).

(** [os.ReadFile(path)]: the bytes of the file at [path].  The file system
    of the model holds the files that the process can read; [os.ReadFile]
    fails on every other path, where there is no file or the process may
    not read it. *)
Definition ReadFile (fs : fsys) (path : string) : string + error :=
  match fs !! path with
  | Some f => inl (data f)
  | None => inr (ErrNotExist path)
  end.

(** [os.Stat(path)]: the file's info, [None] for the nil [FileInfo] that
    comes with an error. *)
Definition Stat (fs : fsys) (path : string) : option file := fs !! path.

(** Whether the system lets the process open a file for writing.  The
    process is taken to own the files it works on and not to be the
    superuser, so the owner's write bit (0200) of the mode decides. *)
Definition writable (f : file) : bool := N.testbit (perm f) 7.

(** [os.WriteFile(path, data, perm)]: the file is opened for writing,
    truncated and written, and keeps its mode; [perm] is used only when
    the file has to be created.  On a file that is not writable the open
    fails: the call returns the error and the file is as it was.  A write
    that is cut short after the open (a full disk, an I/O error) is not
    part of the model. *)
Definition WriteFile (fs : fsys) (path : string) (out : string) (p : N)
  : fsys * option error :=
  match fs !! path with
  | Some f =>
      if writable f then (<[path := File out (perm f)]> fs, None)
      else (fs, Some (ErrPermission path))
  | None => (<[path := File out p]> fs, None)
  end.

(** [processFile(path, replacer)] on the file system [fs]: the file system
    it leaves and the error it returns; [None] when the call panics (the
    method call [fi.Mode()] on the nil [FileInfo] of a failed [os.Stat]). *)
Definition processFile (path : string) (rep : replacer) (fs : fsys)
  : option (fsys * option error) :=
  match ReadFile fs path with
  | inr err => Some (fs, Some err)
  | inl in_ =>
      let fi := Stat fs path in
      match rep in_ with
      | (_, _, Some err) => Some (fs, Some (ErrFailedToProcess path err))
      | (out, changed, None) =>
          if changed then
            match fi with
            | Some fi => Some (WriteFile fs path (default EmptyString out) (perm fi))
            | None => None
            end
          else Some (fs, None)
      end
  end.

(** ** The worker pool: [processFiles] *)

(** The fields of [config] that [processFiles] reads. *)
Record config : Type := Config {
  OpenDelim : string;
  CloseDelim : string;
  TargetDir : string;
  Workers : Z;
  FileFilter : fileFilter;
  KeyMap : StringMap;
}.

(** One call that [filepath.WalkDir] makes to its callback: the path, whether
    the entry is a directory, and the error met on the way to it.  A walk is
    the sequence of the calls made as long as the callback returns nil. *)
Record dirEntry : Type := DirEntry {
  entry_path : string;
  entry_isDir : bool;
  entry_err : option error;
}.

(** The goroutine that walks the tree: walking, with the calls still to
    come; back from [WalkDir] with its error; or past [close(files)]. *)
Inductive walker : Type :=
| Walking (todo : list dirEntry)
| Returned (err : option error)
| Closed.

(** A worker goroutine: receiving from [files]; holding a path it has
    received; holding the error it is about to append to [errs]; or done. *)
Inductive worker : Type :=
| Receiving
| Processing (path : string)
| Reporting (err : error)
| Exited.

(** The state shared by the goroutines of one call of [processFiles]. *)
Record pool : Type := Pool {
  disk : fsys;                  (* the file system *)
  files : list string;          (* the buffer of the channel [files] *)
  walk : walker;
  workers : list worker;
  errs : list error;
}.

(** Go's [int] on a 64-bit platform: what arithmetic on [int] leaves of
    the integer [z], wrapped to 64 bits in two's complement. *)
Definition int_wrap (z : Z) : Z := ((z + 2 ^ 63) mod 2 ^ 64 - 2 ^ 63)%Z.

(** The size [cfg.Workers*2] that [processFiles] gives to [make]. *)
Definition chan_size (cfg : config) : Z := int_wrap (Workers cfg * 2).

(** [make(chan string, size)] panics when the size is negative, as
    [cfg.Workers*2] is from [cfg.Workers = 2^62] on.  For any other size
    the model makes the channel: that the runtime refuses a buffer beyond
    its allocation limit, and that the machine may lack the memory for the
    buffer and for the goroutines, is not part of the model. *)
Definition make_panics (size : Z) : bool := (size <? 0)%Z.

(** The capacity of the channel once it is made. *)
Definition capacity (cfg : config) : nat := Z.to_nat (chan_size cfg).

(** The statements that a run returns are made for worker counts up to
    this one: few enough for [cfg.Workers*2] not to wrap and for the
    goroutines and the buffer of the channel to fit into the memory of any
    machine.  For larger counts the statements about the runs that
    returned still hold. *)
Definition max_workers : Z := 2 ^ 12.

(** One step of one goroutine.  The steps of the walker follow the callback
    given to [filepath.WalkDir]; the steps of worker [i] follow the body of
    its [for path := range files] loop. *)
Inductive step (cfg : config) (rep : replacer) : pool → pool → Prop :=
| step_walk_err fs ch e es ws er err :
    entry_err e = Some err →
    step cfg rep (Pool fs ch (Walking (e :: es)) ws er)
                 (Pool fs ch (Returned (Some err)) ws er)
| step_walk_dir fs ch e es ws er :
    entry_err e = None → entry_isDir e = true →
    step cfg rep (Pool fs ch (Walking (e :: es)) ws er)
                 (Pool fs ch (Walking es) ws er)
| step_walk_skip fs ch e es ws er :
    entry_err e = None → entry_isDir e = false →
    fileFilter_match (FileFilter cfg) (entry_path e) = false →
    step cfg rep (Pool fs ch (Walking (e :: es)) ws er)
                 (Pool fs ch (Walking es) ws er)
| step_walk_send fs ch e es ws er :
    entry_err e = None → entry_isDir e = false →
    fileFilter_match (FileFilter cfg) (entry_path e) = true →
    length ch < capacity cfg →
    step cfg rep (Pool fs ch (Walking (e :: es)) ws er)
                 (Pool fs (ch ++ [entry_path e]) (Walking es) ws er)
| step_walk_end fs ch ws er :
    step cfg rep (Pool fs ch (Walking []) ws er)
                 (Pool fs ch (Returned None) ws er)
| step_walk_report fs ch ws er err :
    step cfg rep (Pool fs ch (Returned (Some err)) ws er)
                 (Pool fs ch (Returned None) ws
                    (er ++ [ErrFailedToWalk (TargetDir cfg) err]))
| step_walk_close fs ch ws er :
    step cfg rep (Pool fs ch (Returned None) ws er)
                 (Pool fs ch Closed ws er)
| step_recv fs p ch w ws er i :
    ws !! i = Some Receiving →
    step cfg rep (Pool fs (p :: ch) w ws er)
                 (Pool fs ch w (<[i := Processing p]> ws) er)
| step_exit fs ws er i :
    ws !! i = Some Receiving →
    step cfg rep (Pool fs [] Closed ws er)
                 (Pool fs [] Closed (<[i := Exited]> ws) er)
| step_process_ok fs fs' ch w ws er i p :
    ws !! i = Some (Processing p) →
    processFile p rep fs = Some (fs', None) →
    step cfg rep (Pool fs ch w ws er)
                 (Pool fs' ch w (<[i := Receiving]> ws) er)
| step_process_err fs fs' ch w ws er i p err :
    ws !! i = Some (Processing p) →
    processFile p rep fs = Some (fs', Some err) →
    step cfg rep (Pool fs ch w ws er)
                 (Pool fs' ch w (<[i := Reporting (ErrFailedToProcess p err)]> ws) er)
| step_report fs ch w ws er i err :
    ws !! i = Some (Reporting err) →
    step cfg rep (Pool fs ch w ws er)
                 (Pool fs ch w (<[i := Receiving]> ws) (er ++ [err])).

(** The executions of the pool: any interleaving of the goroutines' steps. *)
Definition steps (cfg : config) (rep : replacer) : pool → pool → Prop :=
  rtc (step cfg rep).

(** The state in which [processFiles] starts its goroutines. *)
Definition start (cfg : config) (tree : list dirEntry) (fs : fsys) : pool :=
  Pool fs [] (Walking tree) (replicate (Z.to_nat (Workers cfg)) Receiving) [].

(** [wg.Wait()] returns once every worker is done. *)
Definition joined (st : pool) : Prop := Forall (λ w, w = Exited) (workers st).

(** What [processFiles] returns after the join. *)
Definition result (st : pool) : option error :=
  match errs st with
  | [] => None
  | _ :: _ => Some (ErrJoin (errs st))
  end.

(** [processFiles(cfg)], with the walk of [cfg.TargetDir] and the file system
    as inputs: the file system and the error some execution ends with.  A
    call in which [make] panics returns nothing. *)
Definition processFiles (cfg : config) (tree : list dirEntry) (fs : fsys)
    (fs' : fsys) (ret : option error) : Prop :=
  make_panics (chan_size cfg) = false
  ∧ ∃ st,
      steps cfg (buildNewReplacer (OpenDelim cfg) (CloseDelim cfg) (KeyMap cfg))
        (start cfg tree fs) st
      ∧ joined st ∧ fs' = disk st ∧ ret = result st.

(** *** The sequential reading of a run *)

(** The paths the walker sends: the files the filter accepts, up to the
    first call that carries an error. *)
Fixpoint sent (f : fileFilter) (tree : list dirEntry) : list string :=
  match tree with
  | [] => []
  | e :: es =>
      match entry_err e with
      | Some _ => []
      | None =>
          if entry_isDir e then sent f es
          else if fileFilter_match f (entry_path e) then entry_path e :: sent f es
          else sent f es
      end
  end.

(** The error [WalkDir] returns. *)
Fixpoint walk_error (tree : list dirEntry) : option error :=
  match tree with
  | [] => None
  | e :: es =>
      match entry_err e with
      | Some err => Some err
      | None => walk_error es
      end
  end.

(** The file a worker leaves at [path], and the error it records, when it
    processes [path] on the file system [fs]. *)
Definition file_after (rep : replacer) (fs : fsys) (path : string) : option file :=
  match processFile path rep fs with
  | Some (fs', _) => fs' !! path
  | None => fs !! path
  end.

Definition file_error (rep : replacer) (fs : fsys) (path : string) : option error :=
  match processFile path rep fs with
  | Some (_, Some err) => Some (ErrFailedToProcess path err)
  | _ => None
  end.

(** The error the walker appends to [errs] when [WalkDir] returns [err]. *)
Definition walk_failure (dir : string) (err : option error) : list error :=
  match err with
  | Some e => [ErrFailedToWalk dir e]
  | None => []
  end.

(** The errors of a run, in the order of the walk. *)
Definition run_errors (cfg : config) (rep : replacer) (tree : list dirEntry)
    (fs : fsys) : list error :=
  omap (file_error rep fs) (sent (FileFilter cfg) tree)
  ++ walk_failure (TargetDir cfg) (walk_error tree).

(** ** Vocabulary of the statements *)

(** [sub] occurs in [s]. *)
Definition contains (s sub : string) : Prop := ∃ a b, s = a +:+ sub +:+ b.

(** The positions at which [sub] occurs in [s]. *)
Fixpoint occurrences (s sub : string) : list nat :=
  (if HasPrefix s sub then [0] else [])
  ++ match s with
     | EmptyString => []
     | String _ r => S <$> occurrences r sub
     end.

(** An occurrence of [open] in [s] that is followed, at its end or later,
    by an occurrence of [close]: what [strings.Index] finds twice. *)
Definition open_then_close (open close s : string) : Prop :=
  ∃ a b c, s = a +:+ open +:+ b +:+ close +:+ c.

(** The check that [buildNewReplacer] makes on the replaced text: the text
    between the first [open] and the first [close] after it, if any. *)
Definition unresolved (open close out : string) : option string :=
  match Index out open with
  | Some idx =>
      match Index (slice_from out (idx + String.length open)) close with
      | Some end_ => Some (slice out (idx + String.length open) end_)
      | None => None
      end
  | None => None
  end.

(** The error of a replacer's result. *)
Definition error_of (res : option string * bool * option error) : option error := res.2.

(** The iterations the replacer's loop has left, at most. *)
Definition loop_measure (prevMatchEmpty : bool) (s : string) : nat :=
  2 * String.length s + (if prevMatchEmpty then 0 else 1).

(** The loop with the fuel that its state needs. *)
Definition run_loop (r : Replacer) (prevMatchEmpty : bool) (s : string) : list chunk :=
  replace_loop r (S (loop_measure prevMatchEmpty s)) prevMatchEmpty s.

(** The paths the workers hold, and the errors they are about to append. *)
Definition holding (ws : list worker) : list string :=
  omap (λ w, match w with Processing p => Some p | _ => None end) ws.

Definition pending (ws : list worker) : list error :=
  omap (λ w, match w with Reporting e => Some e | _ => None end) ws.

(** The paths the walker has still to send, and the error it has still to
    append. *)
Definition to_send (f : fileFilter) (w : walker) : list string :=
  match w with
  | Walking todo => sent f todo
  | _ => []
  end.

Definition to_report (dir : string) (w : walker) : list error :=
  match w with
  | Walking todo => walk_failure dir (walk_error todo)
  | Returned err => walk_failure dir err
  | Closed => []
  end.

(** The invariant of a run of the pool that started on [tree] and [fs0]:
    for some list [done] of the paths already processed,
    - every path the walk sends is processed, held, queued or still to send;
    - every error of a processed path, and the walk's, is recorded or about
      to be;
    - the file system is [fs0] with every processed path processed;
    - no worker is created or lost;
    - a worker has left its loop only after the channel was closed and
      drained. *)
Definition pool_inv (cfg : config) (rep : replacer) (tree : list dirEntry)
    (fs0 : fsys) (st : pool) : Prop :=
  ∃ done : list string,
    done ++ holding (workers st) ++ files st ++ to_send (FileFilter cfg) (walk st)
      ≡ₚ sent (FileFilter cfg) tree
    ∧ errs st ++ pending (workers st) ++ to_report (TargetDir cfg) (walk st)
      ≡ₚ omap (file_error rep fs0) done
           ++ walk_failure (TargetDir cfg) (walk_error tree)
    ∧ (∀ p, disk st !! p
            = if decide (p ∈ done) then file_after rep fs0 p else fs0 !! p)
    ∧ length (workers st) = Z.to_nat (Workers cfg)
    ∧ (Exited ∈ workers st → walk st = Closed ∧ files st = []).

(** A bound on the number of steps a pool has left. *)
Definition walker_weight (w : walker) : nat :=
  match w with
  | Walking todo => 5 * length todo + 3
  | Returned (Some _) => 2
  | Returned None => 1
  | Closed => 0
  end.

Definition worker_weight (w : worker) : nat :=
  match w with
  | Receiving => 1
  | Processing _ => 3
  | Reporting _ => 2
  | Exited => 0
  end.

Definition pool_weight (st : pool) : nat :=
  walker_weight (walk st) + 4 * length (files st)
  + sum_list_with worker_weight (workers st).

(** A small tree for the examples: two YAML files under [.], with the
    default patterns of the flags. *)
Definition ex_filter : fileFilter := mkFileFilter [rx_yaml] [rx_git].

Definition ex_cfg (n : Z) (values : StringMap) : config :=
  Config "<::" "::>" "." n ex_filter values.

Definition ex_tree : list dirEntry :=
  [DirEntry "." true None; DirEntry "a.yaml" false None; DirEntry "b.yaml" false None].

Definition ex_fs (a b : string) : fsys :=
  <["a.yaml" := File a 420%N]> {["b.yaml" := File b 420%N]}.

(** The run of [TestProcessFiles_ReplacesKeys]: one worker over a temporary
    directory that holds [config.yaml]. *)
Definition dquote : string := String "034"%char EmptyString.

Definition test_input : string :=
  "
apiVersion: v1
kind: ConfigMap
metadata:
  name: demo
data:
  domain: " +:+ dquote +:+ "<::PUBLIC_DOMAIN::>" +:+ dquote +:+ "
".

Definition test_output : string :=
  "
apiVersion: v1
kind: ConfigMap
metadata:
  name: demo
data:
  domain: " +:+ dquote +:+ "example.com" +:+ dquote +:+ "
".

Definition test_cfg : config :=
  Config "<::" "::>" "/tmp/t" 1 (mkFileFilter [rx_ya_ml] [])
    [("PUBLIC_DOMAIN", "example.com")].

Definition test_tree : list dirEntry :=
  [DirEntry "/tmp/t" true None; DirEntry "/tmp/t/config.yaml" false None].

Definition test_fs : fsys := {["/tmp/t/config.yaml" := File test_input 420%N]}.

(** The old strings end inside [pre]: wherever one occurs in [pre +:+ rest],
    it ends within the first [String.length pre] bytes. *)
Definition ends_within (r : Replacer) (pre rest : string) : Prop :=
  ∀ old new a b, (old, new) ∈ r → pre +:+ rest = a +:+ old +:+ b →
    String.length a + String.length old ≤ String.length pre.

(** Two orders in which a [range] loop can yield the entries of the map
    [{A: 1, A::>B: 2}]. *)
Definition ex_order_a : StringMap := [("A", "1"); ("A::>B", "2")].
Definition ex_order_b : StringMap := [("A::>B", "2"); ("A", "1")].

(** ** More vocabulary *)

(** No token of the mapping is a prefix of the token of another key: at any
    position of a text at most one token matches. *)
Definition prefix_free (o c : string) (values : StringMap) : Prop :=
  ∀ k k', has_key values k → has_key values k' →
    HasPrefix (o +:+ k' +:+ c) (o +:+ k +:+ c) = true → k = k'.

(** At most one pair of the replacer matches at a position. *)
Definition unambiguous (r : Replacer) : Prop :=
  ∀ p q s prev, p ∈ r → q ∈ r →
    candidate s prev p = true → candidate s prev q = true → p = q.

(** The errors a joined result holds. *)
Definition joined_errors (es : list error) : option error :=
  match es with
  | [] => None
  | _ :: _ => Some (ErrJoin es)
  end.

(** The filter of the flags' defaults: [inc] is [.*\.ya?ml$] and [ign] is
    [^\.git(/|$)]. *)
Definition default_filter : fileFilter := mkFileFilter [rx_ya_ml] [rx_git].

(** A pattern that no text matches any more. *)
Fixpoint dead (r : Regexp) : bool :=
  match r with
  | RFail => true
  | RSeq r1 _ => dead r1
  | RAlt r1 r2 => dead r1 && dead r2
  | _ => false
  end.

(** ** Flags, environment and configuration *)

(** The errors of the configuration code.  [regexp.Compile] and
    [os.OpenFile] report a message of their own, kept as a string. *)
Inductive configError : Type :=
| ErrRegexp (msg : string)
    (* the error of regexp.Compile *)
| ErrInclude (cause : configError)
    (* fmt.Errorf("include: %w", err) *)
| ErrIgnore (cause : configError)
    (* fmt.Errorf("ignore: %w", err) *)
| ErrFileFilter (cause : configError)
    (* fmt.Errorf("failed to create file filter: %w", err) *)
| ErrInvalidMode (mode : string)
    (* fmt.Errorf("invalid mode %q, must be one of: env, flag, both", mode) *)
| ErrEmptyDelimiters
    (* fmt.Errorf("delimiters must not be empty") *)
| ErrWorkers (n : Z)
    (* fmt.Errorf("workers must be greater than 0, got %d", n) *)
| ErrEmptyDir
    (* fmt.Errorf("target directory must not be empty") *)
| ErrDirNotExist (dir : string)
    (* fmt.Errorf("target directory %q does not exist", dir) *)
| ErrNotDirectory (dir : string)
    (* fmt.Errorf("target %q is not a directory", dir) *)
| ErrLogFile (path : string) (msg : string)
    (* fmt.Errorf("failed to open log file %q: %w", path, err) *)
| ErrInvalidPair (kv : string).
    (* fmt.Errorf("invalid key=value pair %q, expected format KEY=VALUE", pair) *)

(** [strings.Split(s, sep)] for a separator of one byte, as the two calls of
    [StringMap.Set] pass: the pieces of [s] between the separators. *)
Fixpoint Split (s : string) (sep : ascii) : list string :=
  match s with
  | EmptyString => [EmptyString]
  | String a r =>
      if Ascii.eqb a sep then EmptyString :: Split r sep
      else match Split r sep with
           | piece :: pieces => String a piece :: pieces
           | [] => [String a EmptyString]
           end
  end.

(** The number of bytes [c] in [s]. *)
Fixpoint count_byte (c : ascii) (s : string) : nat :=
  match s with
  | EmptyString => 0
  | String a r => (if Ascii.eqb a c then 1 else 0) + count_byte c r
  end.

(** A Go [map[string]string] as a value: which value each key has. *)
Abbreviation kvmap := (gmap string string).

(** The loop of [StringMap.Set] over the pairs. *)
Fixpoint Set_pairs (m : kvmap) (pairs : list string) : kvmap * option configError :=
  match pairs with
  | [] => (m, None)
  | kv :: rest =>
      match Split kv "=" with
      | [k; v] => Set_pairs (<[k := v]> m) rest
      | _ => (m, Some (ErrInvalidPair kv))
      end
  end.

(** The method [Set] of [StringMap]: the map it leaves and the error it
    returns. *)
Definition StringMap_Set (m : kvmap) (value : string) : kvmap * option configError :=
  Set_pairs m (Split value ",").

(** [sliceFlag] and its method [Set]. *)
Definition sliceFlag : Type := list string.

Definition sliceFlag_Set (s : sliceFlag) (v : string) : sliceFlag * option configError :=
  (s ++ [v], None).

(** The initial values of [inc] and [ign]. *)
Definition inc_default : sliceFlag := [".*\.ya?ml$"].
Definition ign_default : sliceFlag := ["^\.git(/|$)"].

(** The closure [compileAll] of [newFileFilter], with [regexp.Compile] as a
    parameter. *)
Fixpoint compileAll (Compile : string → Regexp + string) (pats : list string)
  : list Regexp + configError :=
  match pats with
  | [] => inl []
  | p :: ps =>
      match Compile p with
      | inr msg => inr (ErrRegexp msg)
      | inl rx =>
          match compileAll Compile ps with
          | inl out => inl (rx :: out)
          | inr err => inr err
          end
      end
  end.

Definition newFileFilter (Compile : string → Regexp + string)
    (incPat excPat : list string) : fileFilter + configError :=
  match compileAll Compile incPat with
  | inr err => inr (ErrInclude err)
  | inl inc =>
      match compileAll Compile excPat with
      | inr err => inr (ErrIgnore err)
      | inl exc => inl (mkFileFilter inc exc)
      end
  end.

(** [strings.IndexByte(s, c)]. *)
Definition IndexByte (s : string) (c : ascii) : option nat :=
  Index s (String c EmptyString).

(** One entry of [os.Environ()], read as [parseConfig] does: cut at the
    first [=]; an entry without [=] is skipped. *)
Definition env_entry (kv : string) : option (string * string) :=
  match IndexByte kv "=" with
  | Some idx => Some (slice kv 0 idx, slice_from kv (idx + 1))
  | None => None
  end.

(** The loop over [os.Environ()]. *)
Definition add_environ (values : kvmap) (environ : list string) : kvmap :=
  foldl (λ m kv, match env_entry kv with
                 | Some (k, v) => <[k := v]> m
                 | None => m
                 end) values environ.

(** The loop [for k, v := range userKV { values[k] = v }]. *)
Definition add_flags (values userKV : kvmap) : kvmap :=
  map_fold (λ k v m, <[k := v]> m) values userKV.

(** The values of the flags after [flag.Parse()]. *)
Record flags : Type := Flags {
  openDelim : string;
  closeDelim : string;
  targetDir : string;
  workers_flag : Z;
  mode : string;
  logFile : string;
  inc : sliceFlag;
  ign : sliceFlag;
  userKV : kvmap;
}.

(** What [os.Stat] finds at a path. *)
Inductive statResult : Type :=
| StatDir | StatFile | StatNotExist | StatError.

(** What [parseConfig] asks of the system and of the [regexp] package. *)
Record platform : Type := Platform {
  Environ : list string;                   (* os.Environ(): one entry per name *)
  os_Stat : string → statResult;           (* os.Stat(path) *)
  os_OpenFile : string → option string;    (* the error of os.OpenFile, if any *)
  Compile : string → Regexp + string;      (* regexp.Compile *)
}.

(** The [config] that [parseConfig] returns, with its map as a value. *)
Record parsedConfig : Type := ParsedConfig {
  pc_open : string;
  pc_close : string;
  pc_dir : string;
  pc_workers : Z;
  pc_mode : string;
  pc_log : string;
  pc_filter : fileFilter;
  pc_values : kvmap;
}.

(** The [switch] of [parseConfig] on the mode. *)
Definition mode_values (pf : platform) (fl : flags) : kvmap + configError :=
  if (mode fl =? "env")%string then inl (add_environ ∅ (Environ pf))
  else if (mode fl =? "flag")%string then inl (add_flags ∅ (userKV fl))
  else if (mode fl =? "both")%string then
    inl (add_flags (add_environ ∅ (Environ pf)) (userKV fl))
  else inr (ErrInvalidMode (mode fl)).

Definition parseConfig (pf : platform) (fl : flags) : parsedConfig + configError :=
  match mode_values pf fl with
  | inr err => inr err
  | inl values =>
      if (String.length (openDelim fl) =? 0) || (String.length (closeDelim fl) =? 0)
      then inr ErrEmptyDelimiters
      else if (workers_flag fl <=? 0)%Z then inr (ErrWorkers (workers_flag fl))
      else if (targetDir fl =? "")%string then inr ErrEmptyDir
      else match os_Stat pf (targetDir fl) with
           | StatNotExist => inr (ErrDirNotExist (targetDir fl))
           | StatFile | StatError => inr (ErrNotDirectory (targetDir fl))
           | StatDir =>
               match newFileFilter (Compile pf) (inc fl) (ign fl) with
               | inr err => inr (ErrFileFilter err)
               | inl ff =>
                   match (if (logFile fl =? "")%string then None
                          else os_OpenFile pf (logFile fl)) with
                   | Some msg => inr (ErrLogFile (logFile fl) msg)
                   | None =>
                       inl (ParsedConfig (openDelim fl) (closeDelim fl) (targetDir fl)
                              (workers_flag fl) (mode fl) (logFile fl) ff values)
                   end
               end
           end
  end.

(** A [config] of the worker pool holds the map of a parsed configuration:
    its entries in some order, the one the [range] loop of
    [buildNewReplacer] will yield. *)
Definition config_of (pc : parsedConfig) (cfg : config) : Prop :=
  OpenDelim cfg = pc_open pc ∧ CloseDelim cfg = pc_close pc
  ∧ TargetDir cfg = pc_dir pc ∧ Workers cfg = pc_workers pc
  ∧ FileFilter cfg = pc_filter pc
  ∧ KeyMap cfg ≡ₚ map_to_list (pc_values pc).

(** [main]: the exit status of the process and the file system it leaves,
    given the walk of the target directory.  A panic of [make] in
    [processFiles] ends the process with status 2 before any file is
    opened.  What [slog] appends to the file of [-log] is not part of the
    model: the statements about a run that is not refused take [logFile]
    to be empty, as it is by default, when [discardHandler] drops every
    record. *)
Definition main (pf : platform) (fl : flags) (tree : list dirEntry) (fs : fsys)
    (status : Z) (fs' : fsys) : Prop :=
  match parseConfig pf fl with
  | inr _ => status = 1%Z ∧ fs' = fs
  | inl pc =>
      ∃ cfg,
        config_of pc cfg
        ∧ if make_panics (chan_size cfg) then status = 2%Z ∧ fs' = fs
          else ∃ ret,
                 processFiles cfg tree fs fs' ret
                 ∧ status = match ret with None => 0%Z | Some _ => 1%Z end
  end.

(** A stand-in for [regexp.Compile] in the examples: it knows the three
    patterns written out above and refuses every other one. *)
Definition ex_Compile (p : string) : Regexp + string :=
  if (p =? ".*\.ya?ml$")%string then inl rx_ya_ml
  else if (p =? "^\.git(/|$)")%string then inl rx_git
  else if (p =? ".*\.yaml$")%string then inl rx_yaml
  else inr ("error parsing regexp: " +:+ p).

(** The value of a [sliceFlag] after its [Set] was called with each of
    [vs], in order. *)
Definition sliceFlag_Sets (s : sliceFlag) (vs : list string) : sliceFlag :=
  foldl (λ acc v, (sliceFlag_Set acc v).1) s vs.

(** The names and values of the entries of [os.Environ()], as the loop of
    [parseConfig] reads them.  [os.Environ()] lists a name once: of the
    entries the process was started with, the runtime keeps the first one
    of each name. *)
Definition env_entries (environ : list string) : list (string * string) :=
  omap env_entry environ.

(** The flags and the system state that [parseConfig] refuses, one
    disjunct for each of its [return config{}, ...] statements. *)
Definition invalid_flags (pf : platform) (fl : flags) : Prop :=
  (mode fl ≠ "env" ∧ mode fl ≠ "flag" ∧ mode fl ≠ "both")
  ∨ openDelim fl = "" ∨ closeDelim fl = ""
  ∨ (workers_flag fl ≤ 0)%Z
  ∨ targetDir fl = ""
  ∨ os_Stat pf (targetDir fl) ≠ StatDir
  ∨ (∃ p msg, p ∈ inc fl ++ ign fl ∧ Compile pf p = inr msg)
  ∨ (logFile fl ≠ "" ∧ is_Some (os_OpenFile pf (logFile fl))).

(** An environment, a directory [.] and the flags of a run on it. *)
Definition ex_platform : platform :=
  Platform ["HOME=/root"; "OPTS=a=b"; "junk"; "NAME=env"]
    (λ p, if (p =? ".")%string then StatDir
          else if (p =? "a.yaml")%string then StatFile else StatNotExist)
    (λ _, None) ex_Compile.

Definition ex_flags (n : Z) (m : string) : flags :=
  Flags "<::" "::>" "." n m "" inc_default ign_default {["NAME" := "flag"]}.

(** The files of a walk: the paths of the calls that come without an error
    for an entry that is not a directory.  [filepath.WalkDir] calls its
    function once for each file; for a directory that it cannot read it
    calls it a second time, with the same path and the error. *)
Fixpoint walked_files (tree : list dirEntry) : list string :=
  match tree with
  | [] => []
  | e :: es =>
      match entry_err e with
      | Some _ => walked_files es
      | None =>
          if entry_isDir e then walked_files es
          else entry_path e :: walked_files es
      end
  end.

(** A walk that meets a directory it cannot read. *)
Definition ex_tree_unreadable : list dirEntry :=
  [DirEntry "." true None; DirEntry "a.yaml" false None;
   DirEntry "sub" true None; DirEntry "sub" true (Some (ErrPermission "sub"))].

(** ** The loop replacer of the benchmark

    [loopReplacer] of the test file does by hand what [buildNewReplacer]
    does with a [strings.Replacer]: it scans for the open delimiter, takes
    the key up to the next close delimiter and looks it up. *)

(** The lookup [values[key]] in a map given by its entries. *)
Definition get (values : StringMap) (key : string) : option string :=
  snd <$> List.find (λ e, (e.1 =? key)%string) values.

(** The [for] loop of [loopReplacer], from the state [(i, out, changed)].
    Each turn of the loop takes one unit of [fuel]; [None] says that the
    fuel ran out before the loop ended. *)
Fixpoint loop_from (fuel : nat) (txt open close : string) (values : StringMap)
    (i : nat) (out : string) (changed : bool)
  : option (option string * bool * option error) :=
  match fuel with
  | 0 => None
  | S fuel =>
      if i <? String.length txt then
        if HasPrefix (slice_from txt i) open then
          let start := i + String.length open in
          match Index (slice_from txt start) close with
          | None => Some (Some (out +:+ slice_from txt i), changed, None)
          | Some end_ =>
              let key := slice txt start end_ in
              match get values key with
              | None => Some (None, false, Some (ErrNotSet key))
              | Some val =>
                  loop_from fuel txt open close values
                    (start + end_ + String.length close) (out +:+ val) true
              end
          end
        else
          loop_from fuel txt open close values (i + 1) (out +:+ slice txt i 1) changed
      else Some (Some out, changed, None)
  end.

(** [loopReplacer(txt, open, close, values)].  With a delimiter that is
    not empty every turn moves [i] forward, so the loop takes at most
    [len(txt)] turns. *)
Definition loopReplacer (txt open close : string) (values : StringMap)
  : option (option string * bool * option error) :=
  loop_from (S (String.length txt)) txt open close values 0 "" false.

(** * Properties *)

(** ** Strings *)

Lemma str_app_nil_l (s : string) : "" +:+ s = s.
Proof. reflexivity. Qed.

Lemma str_app_cons (c : ascii) (s t : string) :
  String c s +:+ t = String c (s +:+ t).
Proof. reflexivity. Qed.

Lemma str_app_nil_r (s : string) : s +:+ "" = s.
Proof. induction s as [|c s IH]; [done|]. by rewrite str_app_cons, IH. Qed.

Lemma str_app_assoc (s t u : string) : (s +:+ t) +:+ u = s +:+ t +:+ u.
Proof. induction s as [|c s IH]; [done|]. by rewrite !str_app_cons, IH. Qed.

Lemma str_length_app (s t : string) :
  String.length (s +:+ t) = String.length s + String.length t.
Proof. induction s as [|c s IH]; [done|]. rewrite str_app_cons. simpl. by rewrite IH. Qed.

Lemma str_length_zero (s : string) : String.length s = 0 → s = "".
Proof. by destruct s. Qed.

Lemma HasPrefix_spec (s p : string) :
  HasPrefix s p = true ↔ ∃ r, s = p +:+ r.
Proof.
  unfold HasPrefix. revert s. induction p as [|c p IH]; intros s; simpl.
  - split; [intros _; by exists s | by destruct s].
  - destruct s as [|d s]; simpl.
    + split; [done | intros [r Hr]; by rewrite str_app_cons in Hr].
    + destruct (ascii_dec c d) as [->|Hne].
      * rewrite IH. split; intros [r Hr]; exists r.
        -- by rewrite str_app_cons, Hr.
        -- rewrite str_app_cons in Hr. by simplify_eq.
      * split; [done | intros [r Hr]]. rewrite str_app_cons in Hr. by simplify_eq.
Qed.

Lemma HasPrefix_app (p r : string) : HasPrefix (p +:+ r) p = true.
Proof. apply HasPrefix_spec. by exists r. Qed.

Lemma HasPrefix_length (s p : string) :
  HasPrefix s p = true → String.length p ≤ String.length s.
Proof. intros [r ->]%HasPrefix_spec. rewrite str_length_app. lia. Qed.

Lemma slice_from_0 (s : string) : slice_from s 0 = s.
Proof. by destruct s. Qed.

Lemma slice_from_app (p r : string) : slice_from (p +:+ r) (String.length p) = r.
Proof.
  induction p as [|c p IH]; simpl; [apply slice_from_0|].
  by rewrite ?str_app_cons.
Qed.

Lemma slice_from_length (s : string) (n : nat) :
  String.length (slice_from s n) = String.length s - n.
Proof.
  revert n. induction s as [|c s IH]; intros [|n]; simpl; done.
Qed.

(** Slicing inside the first part of a concatenation leaves the second. *)
Lemma slice_from_app_le (x y : string) (n : nat) :
  n ≤ String.length x → slice_from (x +:+ y) n = slice_from x n +:+ y.
Proof.
  revert n. induction x as [|c x IH]; intros [|n] Hn; simpl in Hn; try lia.
  - by rewrite str_app_nil_l, !slice_from_0.
  - by rewrite !slice_from_0.
  - rewrite str_app_cons. simpl. apply IH. lia.
Qed.

Lemma substring_0_app (y z : string) : substring 0 (String.length y) (y +:+ z) = y.
Proof.
  induction y as [|d y IHy].
  - rewrite str_app_nil_l. by destruct z.
  - rewrite str_app_cons. simpl. by rewrite IHy.
Qed.

Lemma slice_app (x y z : string) :
  slice (x +:+ y +:+ z) (String.length x) (String.length y) = y.
Proof.
  unfold slice. induction x as [|c x IH].
  - rewrite str_app_nil_l. apply substring_0_app.
  - rewrite str_app_cons. simpl. apply IH.
Qed.

Lemma contains_app (s sub a b : string) : s = a +:+ sub +:+ b → contains s sub.
Proof. intros ->. by exists a, b. Qed.

Lemma contains_cons (c : ascii) (s sub : string) :
  contains s sub → contains (String c s) sub.
Proof. intros (a & b & ->). exists (String c a), b. by rewrite str_app_cons. Qed.

Lemma contains_slice_from (s sub : string) (n : nat) :
  contains (slice_from s n) sub → contains s sub.
Proof.
  revert n. induction s as [|c s IH]; intros [|n]; simpl; try done.
  intros H. apply contains_cons. by eapply IH.
Qed.

(** [Index] finds the first occurrence. *)
Lemma Index_Some (s sub : string) (i : nat) :
  Index s sub = Some i → ∃ a b, s = a +:+ sub +:+ b ∧ String.length a = i.
Proof.
  revert i. induction s as [|c s IH]; intros i; simpl.
  - destruct (HasPrefix "" sub) eqn:Hp; [|done].
    intros [= <-]. apply HasPrefix_spec in Hp as [r Hr]. by exists "", r.
  - destruct (HasPrefix (String c s) sub) eqn:Hp.
    + intros [= <-]. apply HasPrefix_spec in Hp as [r Hr]. by exists "", r.
    + destruct (Index s sub) as [j|] eqn:Hj; [|done].
      intros [= <-]. destruct (IH j eq_refl) as (a & b & -> & <-).
      exists (String c a), b. by rewrite str_app_cons.
Qed.

Lemma Index_le (s sub a b : string) :
  s = a +:+ sub +:+ b → ∃ i, Index s sub = Some i ∧ i ≤ String.length a.
Proof.
  revert s. induction a as [|c a IH]; intros s ->.
  - rewrite str_app_nil_l. exists 0. split; [|done].
    destruct (sub +:+ b) eqn:E; simpl; rewrite <- ?E, HasPrefix_app; done.
  - rewrite str_app_cons. simpl.
    destruct (HasPrefix _ sub); [exists 0; split; [done|lia]|].
    destruct (IH _ eq_refl) as (i & -> & Hi). exists (S i). split; [done|]. simpl. lia.
Qed.

Lemma Index_None (s sub : string) : Index s sub = None → ¬ contains s sub.
Proof.
  intros HN (a & b & Hs). apply Index_le in Hs as (i & Hi & _). congruence.
Qed.

Lemma Index_is_Some (s sub : string) : contains s sub → is_Some (Index s sub).
Proof. intros (a & b & Hs). apply Index_le in Hs as (i & Hi & _). eauto. Qed.

Lemma occurrences_spec (s sub : string) (n : nat) :
  n ∈ occurrences s sub ↔ ∃ a b, s = a +:+ sub +:+ b ∧ String.length a = n.
Proof.
  revert n. induction s as [|c s IH]; intros n; simpl.
  - rewrite app_nil_r. split.
    + destruct (HasPrefix "" sub) eqn:Hp; [|by intros ?%elem_of_nil].
      intros ->%list_elem_of_singleton. apply HasPrefix_spec in Hp as [r Hr].
      by exists "", r.
    + intros (a & b & Hs & <-). destruct a; [|by rewrite str_app_cons in Hs].
      rewrite str_app_nil_l in Hs.
      assert (HasPrefix "" sub = true) as -> by (apply HasPrefix_spec; by exists b).
      simpl. apply list_elem_of_here.
  - rewrite elem_of_app, list_elem_of_fmap. split.
    + intros [H|(m & -> & Hm)].
      * destruct (HasPrefix _ sub) eqn:Hp; [|by apply elem_of_nil in H].
        apply list_elem_of_singleton in H as ->.
        apply HasPrefix_spec in Hp as [r Hr]. by exists "", r.
      * apply IH in Hm as (a & b & -> & <-). exists (String c a), b.
        by rewrite str_app_cons.
    + intros (a & b & Hs & <-). destruct a as [|d a].
      * left. rewrite str_app_nil_l in Hs.
        assert (HasPrefix (String c s) sub = true) as ->
          by (apply HasPrefix_spec; by exists b).
        apply list_elem_of_here.
      * right. rewrite str_app_cons in Hs. simplify_eq.
        exists (String.length a). split; [done|]. apply IH. by exists a, b.
Qed.

(** ** The replacer of the [strings] package *)

(** The model on argument lists of the kinds the package's own tests use:
    the first old string in argument order wins, matches do not overlap, and
    an empty old string matches once at every position that no old string
    of higher priority takes. *)
Example Replace_argument_order :
  Replace (NewReplacer [("a", "1"); ("aa", "2"); ("aaa", "3")]) "aaaa" = "1111"
  ∧ Replace (NewReplacer [("aaa", "3"); ("aa", "2"); ("a", "1")]) "aaaa" = "31"
  ∧ Replace (NewReplacer [("<", "&lt;"); (">", "&gt;")]) "This is <b>HTML</b>!"
    = "This is &lt;b&gt;HTML&lt;/b&gt;!"
  ∧ Replace (NewReplacer []) "abc" = "abc".
Proof. by vm_compute. Qed.

Example Replace_empty_old :
  Replace (NewReplacer [("", "X")]) "foo" = "XfXoXoX"
  ∧ Replace (NewReplacer [("", "X"); ("o", "O")]) "oiio" = "XOXiXiXOX"
  ∧ Replace (NewReplacer [("o", "O"); ("", "X")]) "oiio" = "OXiXiOX"
  ∧ Replace (NewReplacer [("", "")]) "foo" = "foo".
Proof. by vm_compute. Qed.

Lemma lookup_old_Some (r : Replacer) (s : string) (prev : bool) (old new : string) :
  lookup_old r s prev = Some (old, new) →
  (old, new) ∈ r ∧ HasPrefix s old = true ∧ (prev = true → old ≠ "").
Proof.
  intros H. apply find_some in H as [Hin Hc]. unfold candidate in Hc. simpl in Hc.
  apply andb_true_iff in Hc as [Hp Hne]. split_and!; [by apply list_elem_of_In|done|].
  intros -> ->. done.
Qed.

Lemma lookup_old_None (r : Replacer) (s : string) (prev : bool) (old new : string) :
  lookup_old r s prev = None → (old, new) ∈ r → candidate s prev (old, new) = false.
Proof.
  intros H Hin. apply list_elem_of_In in Hin. by apply (find_none _ _ H) in Hin.
Qed.

(** The loop's state gets smaller with every iteration. *)
Lemma loop_measure_match (s old : string) (prev : bool) :
  HasPrefix s old = true → (prev = true → old ≠ "") →
  loop_measure (old =? "")%string (slice_from s (String.length old)) < loop_measure prev s.
Proof.
  intros Hp Hne. unfold loop_measure. rewrite slice_from_length.
  apply HasPrefix_length in Hp.
  destruct (String.eqb_spec old "") as [->|Hold].
  - destruct prev; [by destruct Hne|]. simpl. lia.
  - assert (String.length old ≠ 0) by (intros ?%str_length_zero; done).
    destruct prev; lia.
Qed.

Lemma replace_loop_fuel (r : Replacer) (f1 f2 : nat) (prev : bool) (s : string) :
  loop_measure prev s < f1 → loop_measure prev s < f2 →
  replace_loop r f1 prev s = replace_loop r f2 prev s.
Proof.
  revert f2 prev s. induction f1 as [|f1 IH]; intros [|f2] prev s H1 H2; try lia.
  simpl. destruct (lookup_old r s prev) as [[old new]|] eqn:Hl.
  - apply lookup_old_Some in Hl as (_ & Hp & Hne).
    pose proof (loop_measure_match s old prev Hp Hne).
    f_equal. apply IH; lia.
  - destruct s as [|c rest]; [done|]. f_equal.
    apply IH; unfold loop_measure in *; simpl in *; destruct prev; lia.
Qed.

(** The equation of the loop. *)
Lemma run_loop_eq (r : Replacer) (prev : bool) (s : string) :
  run_loop r prev s =
  match lookup_old r s prev with
  | Some (old, new) =>
      Sub old new :: run_loop r (old =? "")%string (slice_from s (String.length old))
  | None =>
      match s with
      | EmptyString => []
      | String c rest => Lit c :: run_loop r false rest
      end
  end.
Proof.
  unfold run_loop at 1. simpl.
  destruct (lookup_old r s prev) as [[old new]|] eqn:Hl.
  - apply lookup_old_Some in Hl as (_ & Hp & Hne).
    pose proof (loop_measure_match s old prev Hp Hne).
    f_equal. apply replace_loop_fuel; lia.
  - destruct s as [|c rest]; [done|]. f_equal.
    apply replace_loop_fuel; unfold loop_measure; simpl; destruct prev; lia.
Qed.

Lemma replace_chunks_run_loop (r : Replacer) (s : string) :
  replace_chunks r s = run_loop r false s.
Proof.
  unfold replace_chunks, run_loop, replace_fuel, loop_measure. f_equal. lia.
Qed.

(** Induction along the iterations of the loop. *)
Lemma run_loop_ind (r : Replacer) (P : bool → string → Prop) :
  (∀ prev s,
     (∀ old new, lookup_old r s prev = Some (old, new) →
        P (old =? "")%string (slice_from s (String.length old))) →
     (∀ c rest, lookup_old r s prev = None → s = String c rest → P false rest) →
     P prev s) →
  ∀ prev s, P prev s.
Proof.
  intros Hstep prev s.
  remember (loop_measure prev s) as m eqn:Hm.
  revert prev s Hm. induction m as [m IH] using lt_wf_ind. intros prev s ->.
  apply Hstep.
  - intros old new Hl. apply lookup_old_Some in Hl as (_ & Hp & Hne).
    eapply IH; [|done]. by apply loop_measure_match.
  - intros c rest _ ->. eapply IH; [|done].
    unfold loop_measure. simpl. destruct prev; lia.
Qed.

(** The loop reads its input to the end: the fuel of [Replace] is enough. *)
Lemma run_loop_consumed (r : Replacer) (prev : bool) (s : string) :
  consumed (run_loop r prev s) = s.
Proof.
  revert prev s. apply (run_loop_ind r (λ prev s, consumed (run_loop r prev s) = s)).
  intros prev s IHm IHc. rewrite run_loop_eq.
  destruct (lookup_old r s prev) as [[old new]|] eqn:Hl.
  - simpl. rewrite (IHm old new eq_refl).
    apply lookup_old_Some in Hl as (_ & [rest ->]%HasPrefix_spec & _).
    by rewrite slice_from_app.
  - destruct s as [|c rest]; [done|]. simpl.
    by rewrite (IHc c rest eq_refl eq_refl), str_app_cons, str_app_nil_l.
Qed.

Lemma replace_chunks_consumed (r : Replacer) (s : string) :
  consumed (replace_chunks r s) = s.
Proof. rewrite replace_chunks_run_loop. apply run_loop_consumed. Qed.

(** Every substitution replaces an occurrence of an old string. *)
Lemma run_loop_sub (r : Replacer) (prev : bool) (s old new : string) :
  Sub old new ∈ run_loop r prev s → (old, new) ∈ r ∧ contains s old.
Proof.
  revert prev s. apply (run_loop_ind r (λ prev s, Sub old new ∈ run_loop r prev s → _)).
  intros prev s IHm IHc. rewrite run_loop_eq.
  destruct (lookup_old r s prev) as [[old' new']|] eqn:Hl.
  - intros [Heq|Hin]%elem_of_cons.
    + simplify_eq. apply lookup_old_Some in Hl as (Hin & Hp & _).
      split; [done|]. apply HasPrefix_spec in Hp as [rest ->]. by exists "", rest.
    + destruct (IHm _ _ eq_refl Hin) as [? ?]. split; [done|].
      by eapply contains_slice_from.
  - destruct s as [|c rest]; [by intros ?%elem_of_nil|].
    intros [Heq|Hin]%elem_of_cons; [done|].
    destruct (IHc _ _ eq_refl eq_refl Hin) as [? ?]. split; [done|].
    by apply contains_cons.
Qed.

(** Without a substitution the output is the input. *)
Lemma run_loop_no_sub (r : Replacer) (prev : bool) (s : string) :
  (∀ k, k ∈ run_loop r prev s → is_sub k = false) → render (run_loop r prev s) = s.
Proof.
  revert prev s. apply (run_loop_ind r (λ prev s, _ → render (run_loop r prev s) = s)).
  intros prev s IHm IHc. rewrite run_loop_eq.
  destruct (lookup_old r s prev) as [[old' new']|] eqn:Hl.
  - intros H. specialize (H (Sub old' new') ltac:(apply list_elem_of_here)). done.
  - destruct s as [|c rest]; [done|]. intros H. simpl.
    rewrite str_app_cons, str_app_nil_l. f_equal.
    apply (IHc _ _ eq_refl eq_refl). intros k Hk. apply H. by apply list_elem_of_further.
Qed.

Lemma substitutions_zero (r : Replacer) (s : string) :
  substitutions r s = 0 ↔ ∀ k, k ∈ replace_chunks r s → is_sub k = false.
Proof.
  unfold substitutions. rewrite length_zero_iff_nil. split.
  - intros Hnil k Hk. destruct (is_sub k) eqn:Hs; [|done].
    by destruct (filter_nil_not_elem_of _ _ k Hnil Hs).
  - intros H. destruct (filter _ _) as [|k ks] eqn:Hf; [done|].
    assert (k ∈ filter (λ k, is_sub k = true) (replace_chunks r s)) as Hk
      by (rewrite Hf; apply list_elem_of_here).
    apply list_elem_of_filter in Hk as [Hsub Hk]. rewrite (H k Hk) in Hsub. done.
Qed.

Lemma substitutions_pos (r : Replacer) (s : string) :
  0 < substitutions r s → ∃ old new, (old, new) ∈ r ∧ contains s old.
Proof.
  intros Hpos.
  destruct (filter (λ k, is_sub k = true) (replace_chunks r s)) as [|k ks] eqn:Hf.
  { unfold substitutions in Hpos. rewrite Hf in Hpos. simpl in Hpos. lia. }
  assert (k ∈ filter (λ k, is_sub k = true) (replace_chunks r s)) as Hk
    by (rewrite Hf; apply list_elem_of_here).
  apply list_elem_of_filter in Hk as [Hsub Hk]. destruct k as [c|old new]; [done|].
  rewrite replace_chunks_run_loop in Hk. exists old, new. by eapply run_loop_sub.
Qed.

(** A string in which no old string occurs is left as it is. *)
Lemma Replace_id (r : Replacer) (s : string) :
  (∀ old new, (old, new) ∈ r → ¬ contains s old) →
  Replace r s = s ∧ substitutions r s = 0.
Proof.
  intros Hno.
  assert (∀ k, k ∈ replace_chunks r s → is_sub k = false) as Hlit.
  { intros [c|old new] Hk; [done|]. rewrite replace_chunks_run_loop in Hk.
    apply run_loop_sub in Hk as [Hin Hc]. by destruct (Hno _ _ Hin). }
  split; [|by apply substitutions_zero].
  unfold Replace. rewrite replace_chunks_run_loop in *. by apply run_loop_no_sub.
Qed.

(** ** The token replacer *)

Lemma pairs_elem (o c : string) (values : StringMap) (old new : string) :
  (old, new) ∈ pairs o c values ↔ ∃ k, (k, new) ∈ values ∧ old = o +:+ k +:+ c.
Proof.
  unfold pairs. rewrite list_elem_of_fmap. split.
  - intros ([k v] & Heq & Hin). simpl in Heq. simplify_eq. by exists k.
  - intros (k & Hin & ->). by exists (k, new).
Qed.

Lemma has_key_elem (values : StringMap) (k v : string) :
  (k, v) ∈ values → has_key values k.
Proof. intros Hin. unfold has_key. apply list_elem_of_fmap. by exists (k, v). Qed.

(** A token is an [open] followed by a [close]. *)
Lemma token_open_then_close (o c k s : string) :
  contains s (o +:+ k +:+ c) → open_then_close o c s.
Proof.
  intros (a & b & ->). exists a, k, b. by rewrite !str_app_assoc.
Qed.

Lemma buildNewReplacer_unfold (o c : string) (values : StringMap) (txt : string) :
  buildNewReplacer o c values txt =
  let out := Replace (NewReplacer (pairs o c values)) txt in
  match unresolved o c out with
  | Some missing => (None, false, Some (ErrNotSet missing))
  | None => (Some out, negb (out =? txt)%string, None)
  end.
Proof.
  unfold buildNewReplacer, unresolved. simpl.
  destruct (Index _ o) as [idx|]; [|done]. by destruct (Index _ c).
Qed.

(** What the check reports is the text between an [open] and a [close] of
    the replaced text. *)
Lemma unresolved_Some (o c out missing : string) :
  unresolved o c out = Some missing →
  ∃ a d, out = a +:+ o +:+ missing +:+ c +:+ d.
Proof.
  unfold unresolved. destruct (Index out o) as [idx|] eqn:Hi; [|done].
  apply Index_Some in Hi as (a & rest & Hout & Hlen).
  destruct (Index _ c) as [e|] eqn:He; [|done]. intros [= <-].
  assert (idx + String.length o = String.length (a +:+ o)) as Hl
    by (rewrite str_length_app; lia).
  rewrite Hl, Hout, <- str_app_assoc, slice_from_app in He.
  apply Index_Some in He as (b & d & -> & <-).
  exists a, d. rewrite Hl, Hout. f_equal. f_equal.
  by rewrite <- (str_app_assoc a o), slice_app.
Qed.

(** The check passes exactly when no [open] of the replaced text is followed
    by a [close]. *)
Lemma unresolved_None (o c out : string) :
  unresolved o c out = None ↔ ¬ open_then_close o c out.
Proof.
  split.
  - intros HN (a & b & d & Hout). unfold unresolved in HN.
    destruct (Index_le out o a (b +:+ c +:+ d) Hout) as (i & Hi & Hle).
    rewrite Hi in HN.
    assert (out = (a +:+ o +:+ b) +:+ c +:+ d) as Hout'
      by (by rewrite !str_app_assoc).
    rewrite Hout', slice_from_app_le in HN
      by (rewrite !str_length_app; lia).
    destruct (Index_is_Some (slice_from (a +:+ o +:+ b) (i + String.length o) +:+ c +:+ d) c)
      as [e He]; [by eexists _, _|].
    by rewrite He in HN.
  - intros Hno. destruct (unresolved o c out) as [m|] eqn:Hu; [|done].
    apply unresolved_Some in Hu as (a & d & Hout).
    destruct Hno. by exists a, m, d.
Qed.

(** The replacer succeeds exactly when the check passes. *)
Lemma buildNewReplacer_ok (o c : string) (values : StringMap) (txt out : string)
    (changed : bool) :
  buildNewReplacer o c values txt = (Some out, changed, None) ↔
  out = Replace (NewReplacer (pairs o c values)) txt
  ∧ changed = negb (out =? txt)%string
  ∧ ¬ open_then_close o c out.
Proof.
  rewrite buildNewReplacer_unfold. simpl. rewrite <- unresolved_None.
  destruct (unresolved o c _) as [m|] eqn:Hu.
  - split; [done|]. intros (-> & _ & HN). congruence.
  - split.
    + intros [= <- <-]. done.
    + intros (-> & -> & _). done.
Qed.

(** No token of any mapping occurs in a text that passes the check. *)
Lemma no_token_after_check (o c out : string) (values : StringMap) :
  ¬ open_then_close o c out →
  ∀ old new, (old, new) ∈ pairs o c values → ¬ contains out old.
Proof.
  intros Hno old new (k & _ & ->)%pairs_elem Hc.
  apply Hno. by eapply token_open_then_close.
Qed.

(** Where a string is cut, given the length of the first part. *)
Lemma app_inv_occ (s a sub b : string) :
  s = a +:+ sub +:+ b →
  String.length a ∈ occurrences s sub
  ∧ a = substring 0 (String.length a) s
  ∧ sub +:+ b = slice_from s (String.length a).
Proof.
  intros ->. split_and!.
  - apply occurrences_spec. by exists a, b.
  - by rewrite substring_0_app.
  - by rewrite slice_from_app.
Qed.

(** The only placeholder of the text [<::X::>] is [X]. *)
Lemma only_key_X (k : string) : contains "<::X::>" ("<::" +:+ k +:+ "::>") → k = "X".
Proof.
  intros (a & b & H). rewrite !str_app_assoc in H.
  apply app_inv_occ in H as (Hocc & _ & Hrest).
  assert (occurrences "<::X::>" "<::" = [0]) as E by (vm_compute; reflexivity).
  rewrite E in Hocc. apply list_elem_of_singleton in Hocc. rewrite Hocc in Hrest.
  rewrite slice_from_0 in Hrest.
  change "<::X::>" with ("<::" +:+ "X::>") in Hrest.
  apply (inj (String.app "<::")) in Hrest. symmetry in Hrest.
  apply app_inv_occ in Hrest as (Hocc' & Hk & _).
  assert (occurrences "X::>" "::>" = [1]) as E' by (vm_compute; reflexivity).
  rewrite E' in Hocc'. apply list_elem_of_singleton in Hocc'. by rewrite Hocc' in Hk.
Qed.

(** ** The claims about the token replacer *)

(** C1 (the code departs from the claim).  With delimiters [<::] and [::>]
    and the mapping [X -> <::Y::>, Y -> v], the only placeholder of the
    content [<::X::>] is [X], which the mapping has; the replace operation
    fails all the same, and the key its error carries, [Y], is a key of the
    mapping: the check reads the text after the substitution. *)
Theorem replace_fails_with_every_key_set :
  let values := [("X", "<::Y::>"); ("Y", "v")] in
  (∀ k, contains "<::X::>" ("<::" +:+ k +:+ "::>") → has_key values k)
  ∧ buildNewReplacer "<::" "::>" values "<::X::>" = (None, false, Some (ErrNotSet "Y"))
  ∧ has_key values "Y".
Proof.
  split_and!.
  - intros k ->%only_key_X. apply (has_key_elem _ _ "<::Y::>"). apply list_elem_of_here.
  - vm_compute. reflexivity.
  - apply (has_key_elem _ _ "v"). apply list_elem_of_further, list_elem_of_here.
Qed.

(** C5.  When the replace operation succeeds, the changed flag it returns is
    true if and only if the replacer performed at least one substitution on
    the content. *)
Theorem changed_iff_substitution (o c : string) (values : StringMap)
    (txt out : string) (changed : bool) :
  buildNewReplacer o c values txt = (Some out, changed, None) →
  (changed = true ↔ 0 < substitutions (NewReplacer (pairs o c values)) txt).
Proof.
  intros (-> & -> & Hno)%buildNewReplacer_ok. unfold NewReplacer in *.
  rewrite negb_true_iff, String.eqb_neq. split.
  - intros Hne. destruct (substitutions (pairs o c values) txt) eqn:Hs; [|lia].
    destruct Hne. unfold Replace. rewrite replace_chunks_run_loop.
    apply run_loop_no_sub. rewrite <- replace_chunks_run_loop.
    by apply substitutions_zero.
  - intros (old & new & (k & _ & ->)%pairs_elem & Hc)%substitutions_pos Heq.
    apply Hno. rewrite Heq. by eapply token_open_then_close.
Qed.

Lemma changed_iff_substitution_witness :
  true = true ↔
  0 < substitutions (NewReplacer (pairs "<::" "::>" [("NAME", "svc")])) "name: <::NAME::>".
Proof.
  apply (changed_iff_substitution "<::" "::>" [("NAME", "svc")]
           "name: <::NAME::>" "name: svc" true).
  vm_compute. reflexivity.
Defined.

(** C6.  The replace operation is idempotent: if it succeeds on a content
    with output [out], then on [out] it succeeds again, returns [out] and
    reports no change; this holds whatever order the second run reads the
    entries of the mapping in ([values'] is any sequence of entries). *)
Theorem replace_idempotent (o c : string) (values values' : StringMap)
    (txt out : string) (changed : bool) :
  buildNewReplacer o c values txt = (Some out, changed, None) →
  buildNewReplacer o c values' out = (Some out, false, None).
Proof.
  intros (_ & _ & Hno)%buildNewReplacer_ok.
  destruct (Replace_id (pairs o c values') out) as [Hid _].
  { by apply no_token_after_check. }
  apply buildNewReplacer_ok. unfold NewReplacer. rewrite Hid.
  by rewrite String.eqb_refl.
Qed.

Lemma replace_idempotent_witness :
  buildNewReplacer "<::" "::>" [("PORT", "8080"); ("NAME", "svc")] "name: svc <::"
  = (Some "name: svc <::", false, None).
Proof.
  apply (replace_idempotent "<::" "::>" [("NAME", "svc"); ("PORT", "8080")] _
           "name: <::NAME::> <::" "name: svc <::" true).
  vm_compute. reflexivity.
Defined.

(** C10.  The replace operation can fail on a content whose every
    placeholder key is in the mapping: whenever the text after the
    substitution has an open delimiter followed later by a close delimiter,
    the operation fails and the key of its error is the text between two
    delimiters of that output; it may be a key of the mapping (first part),
    and it is a function of the output alone (last part). *)
Theorem replace_checks_the_output :
  (∃ values txt key,
     (∀ k, contains txt ("<::" +:+ k +:+ "::>") → has_key values k)
     ∧ buildNewReplacer "<::" "::>" values txt = (None, false, Some (ErrNotSet key))
     ∧ has_key values key)
  ∧ (∀ o c values txt,
       open_then_close o c (Replace (NewReplacer (pairs o c values)) txt) →
       ∃ key a d,
         buildNewReplacer o c values txt = (None, false, Some (ErrNotSet key))
         ∧ Replace (NewReplacer (pairs o c values)) txt = a +:+ o +:+ key +:+ c +:+ d)
  ∧ (∀ o c values values' txt txt',
       Replace (NewReplacer (pairs o c values)) txt
       = Replace (NewReplacer (pairs o c values')) txt' →
       error_of (buildNewReplacer o c values txt)
       = error_of (buildNewReplacer o c values' txt')).
Proof.
  split_and!.
  - exists [("X", "<::Y::>"); ("Y", "v")], "<::X::>", "Y". split_and!.
    + intros k ->%only_key_X. apply (has_key_elem _ _ "<::Y::>"). apply list_elem_of_here.
    + vm_compute. reflexivity.
    + apply (has_key_elem _ _ "v"). apply list_elem_of_further, list_elem_of_here.
  - intros o c values txt Hoc. rewrite buildNewReplacer_unfold. simpl.
    destruct (unresolved o c _) as [key|] eqn:Hu.
    + apply unresolved_Some in Hu as (a & d & Hout). by exists key, a, d.
    + by apply unresolved_None in Hu.
  - intros o c values values' txt txt' Heq.
    rewrite !buildNewReplacer_unfold. simpl. rewrite Heq.
    by destruct (unresolved o c _).
Qed.

Lemma replace_checks_the_output_witness :
  ∃ key a d,
    buildNewReplacer "{{" "}}" [("NAME", "{{ .Release.Name }}")] "name: {{NAME}}"
      = (None, false, Some (ErrNotSet key))
    ∧ Replace (NewReplacer (pairs "{{" "}}" [("NAME", "{{ .Release.Name }}")]))
        "name: {{NAME}}"
      = a +:+ "{{" +:+ key +:+ "}}" +:+ d.
Proof.
  destruct replace_checks_the_output as (_ & Hfail & _).
  apply Hfail. exists "name: ", " .Release.Name ", "". by vm_compute.
Defined.

(** ** The file filter *)

(** The model of the patterns agrees with the table of
    [TestDefaultFileFilter]. *)
Example default_filter_table :
  let ff := mkFileFilter [rx_ya_ml] [rx_git_anywhere] in
  fileFilter_match ff "config.yaml" = true
  ∧ fileFilter_match ff "values.yml" = true
  ∧ fileFilter_match ff "notes.txt" = false
  ∧ fileFilter_match ff ".git/config" = false
  ∧ fileFilter_match ff "src/.git/index" = false.
Proof. vm_compute. done. Qed.

Lemma existsb_MatchString (rxs : list Regexp) (path : string) :
  existsb (λ rx, MatchString rx path) rxs = true
  ↔ ∃ rx, rx ∈ rxs ∧ MatchString rx path = true.
Proof.
  rewrite existsb_exists. split; intros (rx & Hin & Hm); exists rx;
    (split; [by apply list_elem_of_In|done]).
Qed.

(** C4.  A path is accepted if and only if it matches no exclude pattern
    and the include list is empty or the path matches one of its patterns;
    with the include pattern [.*\.yaml$] and the exclude pattern
    [^\.git(/|$)], the path [.git/config.yaml] is rejected although it
    matches the include pattern. *)
Theorem match_excludes_then_includes :
  (∀ (f : fileFilter) (path : string),
     fileFilter_match f path = true ↔
     (∀ rx, rx ∈ excludes f → MatchString rx path = false)
     ∧ (includes f = [] ∨ ∃ rx, rx ∈ includes f ∧ MatchString rx path = true))
  ∧ MatchString rx_yaml ".git/config.yaml" = true
  ∧ fileFilter_match (mkFileFilter [rx_yaml] [rx_git]) ".git/config.yaml" = false.
Proof.
  split; [|by vm_compute].
  intros f path. unfold fileFilter_match.
  destruct (existsb _ (excludes f)) eqn:Hex.
  - apply existsb_MatchString in Hex as (rx & Hin & Hm). split; [done|].
    intros [Hno _]. rewrite (Hno rx Hin) in Hm. done.
  - assert (∀ rx, rx ∈ excludes f → MatchString rx path = false) as Hno.
    { intros rx Hin. destruct (MatchString rx path) eqn:Hm; [|done].
      assert (existsb (λ rx, MatchString rx path) (excludes f) = true) as Ht
        by (apply existsb_MatchString; eauto).
      congruence. }
    destruct (includes f) as [|rx0 rxs] eqn:Hinc; simpl.
    + split; [intros _; split; [done|by left] | done].
    + change (MatchString rx0 path || existsb (λ rx, MatchString rx path) rxs)
        with (existsb (λ rx, MatchString rx path) (rx0 :: rxs)).
      rewrite existsb_MatchString. split.
      * intros H. split; [done|by right].
      * intros [_ [?|H]]; done.
Qed.

(** ** The per-file processor *)

(** [processFile] does not panic: [os.Stat] follows a successful
    [os.ReadFile] of the same path. *)
Lemma processFile_total (path : string) (rep : replacer) (fs : fsys) :
  ∃ fs' ret, processFile path rep fs = Some (fs', ret).
Proof.
  unfold processFile, ReadFile, Stat.
  destruct (fs !! path) as [f|]; [|by eauto].
  destruct (rep (data f)) as [[out changed] [err|]]; [by eauto|].
  destruct changed; [|by eauto].
  destruct (WriteFile fs path (default "" out) (perm f)) as [fs' ret]. eauto.
Qed.

(** It leaves every other path as it was. *)
Lemma processFile_frame (path : string) (rep : replacer) (fs fs' : fsys)
    (ret : option error) (q : string) :
  processFile path rep fs = Some (fs', ret) → q ≠ path → fs' !! q = fs !! q.
Proof.
  unfold processFile, ReadFile, Stat, WriteFile. intros H Hne.
  destruct (fs !! path) as [f|] eqn:Hf; [|by simplify_eq].
  destruct (rep (data f)) as [[out changed] [err|]]; [by simplify_eq|].
  destruct changed; [|by simplify_eq].
  destruct (writable f); simplify_eq; [|done]. by rewrite lookup_insert_ne.
Qed.

(** What it does to its path depends on the file at that path only. *)
Lemma processFile_local (path : string) (rep : replacer) (fs1 fs2 : fsys) :
  fs1 !! path = fs2 !! path →
  file_after rep fs1 path = file_after rep fs2 path
  ∧ file_error rep fs1 path = file_error rep fs2 path.
Proof.
  unfold file_after, file_error, processFile, ReadFile, Stat, WriteFile. intros Heq.
  rewrite <- Heq. destruct (fs1 !! path) as [f|] eqn:Hf.
  - destruct (rep (data f)) as [[out changed] [err|]].
    + by rewrite Hf, <- Heq.
    + destruct changed.
      * destruct (writable f).
        -- by rewrite !lookup_insert_eq.
        -- by rewrite Hf, <- Heq.
      * by rewrite Hf, <- Heq.
  - by rewrite Hf, <- Heq.
Qed.

Lemma processFile_after (path : string) (rep : replacer) (fs fs' : fsys)
    (ret : option error) :
  processFile path rep fs = Some (fs', ret) →
  fs' !! path = file_after rep fs path
  ∧ file_error rep fs path = ErrFailedToProcess path <$> ret.
Proof.
  unfold file_after, file_error. intros ->. by destruct ret.
Qed.

(** C3, as the claim states it, fails on a file that the process may read
    but not write (mode 0444): the replacer returns [changed = true], [os.WriteFile]
    is refused, and [processFile] returns its error with the file as it
    was.  So the file is not rewritten although [changed] is true. *)
Lemma read_only_file_is_not_rewritten :
  let fs : fsys := {["a.yaml" := File "name: <::NAME::>" 292%N]} in
  let rep := buildNewReplacer "<::" "::>" [("NAME", "svc")] in
  rep "name: <::NAME::>" = (Some "name: svc", true, None)
  ∧ processFile "a.yaml" rep fs = Some (fs, Some (ErrPermission "a.yaml"))
  ∧ ¬ (∀ fs' ret changed,
         processFile "a.yaml" rep fs = Some (fs', ret) →
         (rep "name: <::NAME::>").1.2 = changed →
         (fs' ≠ fs ↔ changed = true)).
Proof.
  cbv zeta. split_and!; [by vm_compute|by vm_compute|].
  intros H.
  destruct (H {["a.yaml" := File "name: <::NAME::>" 292%N]}
              (Some (ErrPermission "a.yaml")) true) as [_ Hback];
    [by vm_compute|by vm_compute|].
  by apply Hback.
Qed.

(** C3, as amended.  For a path that [processFile] reads, the file system
    is changed, that is the file is rewritten, if and only if the replacer
    returned [changed = true] and the system accepts the write: then the
    file is written at the same path with exactly the replacer's new
    content, which differs from the old one, and with the permission bits
    it had, and [processFile] returns nil.  When [changed] is true and the
    write is refused, [processFile] returns the error of [os.WriteFile] and
    the file system is as it was.  When [changed] is false, and so whenever
    the replacer failed, the file system is left as it was and nothing is
    written. *)
Theorem processFile_rewrites_iff_changed (o c : string) (values : StringMap)
    (path : string) (fs : fsys) (f : file) :
  fs !! path = Some f →
  ∃ out changed err fs' ret,
    buildNewReplacer o c values (data f) = (out, changed, err)
    ∧ processFile path (buildNewReplacer o c values) fs = Some (fs', ret)
    ∧ (fs' ≠ fs ↔ changed = true ∧ writable f = true)
    ∧ (changed = true →
         ∃ new, out = Some new ∧ err = None ∧ new ≠ data f
                ∧ (fs', ret) = WriteFile fs path new (perm f)
                ∧ (writable f = true →
                   ret = None ∧ fs' = <[path := File new (perm f)]> fs)
                ∧ (writable f = false →
                   ret = Some (ErrPermission path) ∧ fs' = fs))
    ∧ (changed = false →
         fs' = fs ∧ ret = ErrFailedToProcess path <$> err)
    ∧ (err ≠ None → changed = false ∧ fs' = fs).
Proof.
  intros Hf. unfold processFile, ReadFile, Stat, WriteFile. rewrite Hf.
  rewrite buildNewReplacer_unfold. simpl.
  set (out := Replace (NewReplacer (pairs o c values)) (data f)).
  destruct (unresolved o c out) as [m|].
  - exists None, false, (Some (ErrNotSet m)), fs, (Some (ErrFailedToProcess path (ErrNotSet m))).
    split_and!; try done. split; [done|by intros [? _]].
  - destruct (negb (out =? data f)%string) eqn:Hch.
    + apply negb_true_iff, String.eqb_neq in Hch.
      destruct (writable f) eqn:Hw.
      * exists (Some out), true, None, (<[path := File out (perm f)]> fs), None.
        split_and!; [done|done| | |done|done].
        -- split; [done|]. intros _ Heq.
           assert (<[path := File out (perm f)]> fs !! path = Some f) as Hl
             by (by rewrite Heq).
           rewrite lookup_insert_eq in Hl. destruct f. simpl in *. congruence.
        -- intros _. exists out. split_and!; done.
      * exists (Some out), true, None, fs, (Some (ErrPermission path)).
        split_and!; [done|done| | |done|done].
        -- split; [done|]. by intros [_ ?].
        -- intros _. exists out. split_and!; done.
    + exists (Some out), false, None, fs, None. split_and!; try done.
      split; [done|by intros [? _]].
Qed.

Lemma processFile_rewrites_iff_changed_witness :
  let fs : fsys := {["a.yaml" := File "name: <::NAME::>" 420%N]} in
  let f := File "name: <::NAME::>" 420%N in
  ∃ out changed err fs' ret,
    buildNewReplacer "<::" "::>" [("NAME", "svc")] "name: <::NAME::>"
      = (out, changed, err)
    ∧ processFile "a.yaml" (buildNewReplacer "<::" "::>" [("NAME", "svc")]) fs
      = Some (fs', ret)
    ∧ (fs' ≠ fs ↔ changed = true ∧ writable f = true)
    ∧ (changed = true →
         ∃ new, out = Some new ∧ err = None ∧ new ≠ "name: <::NAME::>"
                ∧ (fs', ret) = WriteFile fs "a.yaml" new 420%N
                ∧ (writable f = true →
                   ret = None ∧ fs' = <["a.yaml" := File new 420%N]> fs)
                ∧ (writable f = false →
                   ret = Some (ErrPermission "a.yaml") ∧ fs' = fs))
    ∧ (changed = false →
         fs' = fs ∧ ret = ErrFailedToProcess "a.yaml" <$> err)
    ∧ (err ≠ None → changed = false ∧ fs' = fs).
Proof.
  apply (processFile_rewrites_iff_changed "<::" "::>" [("NAME", "svc")] "a.yaml"
           {["a.yaml" := File "name: <::NAME::>" 420%N]}
           (File "name: <::NAME::>" 420%N)).
  apply lookup_singleton_eq.
Defined.

(** On this file the replacer reports a change and the file is rewritten
    with its mode. *)
Example processFile_rewrites :
  processFile "a.yaml" (buildNewReplacer "<::" "::>" [("NAME", "svc")])
    {["a.yaml" := File "name: <::NAME::>" 420%N]}
  = Some ({["a.yaml" := File "name: svc" 420%N]}, None).
Proof. by vm_compute. Qed.

(** ** The worker pool *)

Lemma worker_update (ws : list worker) (i : nat) (w w' : worker) :
  ws !! i = Some w → ∃ l r, ws = l ++ w :: r ∧ <[i := w']> ws = l ++ w' :: r.
Proof.
  intros Hi. exists (take i ws), (drop (S i) ws). split.
  - by rewrite take_drop_middle.
  - apply insert_take_drop. by eapply lookup_lt_Some.
Qed.

Lemma holding_app (l r : list worker) : holding (l ++ r) = holding l ++ holding r.
Proof. apply omap_app. Qed.

Lemma pending_app (l r : list worker) : pending (l ++ r) = pending l ++ pending r.
Proof. apply omap_app. Qed.

Lemma exited_update (l r : list worker) (w w' : worker) :
  w' ≠ Exited → Exited ∈ l ++ w' :: r → Exited ∈ l ++ w :: r.
Proof.
  intros Hne. rewrite !elem_of_app, !elem_of_cons. intros [?|[?|?]]; auto. done.
Qed.

Lemma sent_no_dup_holding (S : list string) (done rest : list string) (p : string) :
  NoDup S → done ++ (p :: rest) ≡ₚ S → p ∉ done.
Proof.
  intros Hnd Hp. rewrite <- Hp in Hnd. apply NoDup_app in Hnd as (_ & Hdisj & _).
  intros Hin. apply (Hdisj p Hin). apply list_elem_of_here.
Qed.

Lemma joined_idle (ws : list worker) :
  Forall (λ w, w = Exited) ws → holding ws = [] ∧ pending ws = [].
Proof. unfold holding, pending. induction 1 as [|w ws -> _ IH]; [done|]. by simpl. Qed.

Section pool.
Variables (cfg : config) (rep : replacer) (tree : list dirEntry) (fs0 : fsys).
Hypothesis Hnodup : NoDup (sent (FileFilter cfg) tree).

Lemma pool_inv_start : pool_inv cfg rep tree fs0 (start cfg tree fs0).
Proof.
  exists []. unfold start. simpl. split_and!.
  - unfold holding. induction (Z.to_nat (Workers cfg)) as [|n IH]; simpl; done.
  - unfold pending. induction (Z.to_nat (Workers cfg)) as [|n IH]; simpl; done.
  - done.
  - apply length_replicate.
  - intros [? _]%elem_of_replicate. done.
Qed.

(** A worker processes a path on the file that the run started with, since
    no path is sent twice. *)
Lemma pool_inv_process (fs fs' : fsys) (done : list string) (p : string)
    (ret : option error) :
  p ∉ done →
  (∀ q, fs !! q = if decide (q ∈ done) then file_after rep fs0 q else fs0 !! q) →
  processFile p rep fs = Some (fs', ret) →
  file_error rep fs0 p = ErrFailedToProcess p <$> ret
  ∧ ∀ q, fs' !! q = if decide (q ∈ p :: done) then file_after rep fs0 q else fs0 !! q.
Proof.
  intros Hp Hfs Hproc.
  assert (fs !! p = fs0 !! p) as Hsame by (by rewrite Hfs, decide_False).
  destruct (processFile_local p rep fs fs0 Hsame) as [Hafter Herr].
  destruct (processFile_after p rep fs fs' ret Hproc) as [Hp' Hret].
  split; [congruence|]. intros q. destruct (decide (q = p)) as [->|Hne].
  - rewrite decide_True by apply list_elem_of_here. congruence.
  - rewrite (processFile_frame p rep fs fs' ret q Hproc Hne), Hfs.
    destruct (decide (q ∈ done)) as [Hin|Hnin].
    + by rewrite decide_True by (by apply list_elem_of_further).
    + rewrite decide_False; [done|]. by intros [?|?]%elem_of_cons.
Qed.

Lemma pool_inv_step (st st' : pool) :
  pool_inv cfg rep tree fs0 st → step cfg rep st st' → pool_inv cfg rep tree fs0 st'.
Proof.
  intros (done & H1 & H2 & H3 & H4 & H5) Hstep.
  destruct Hstep as
    [ fs ch e es ws er err He
    | fs ch e es ws er He Hd
    | fs ch e es ws er He Hd Hm
    | fs ch e es ws er He Hd Hm Hcap
    | fs ch ws er
    | fs ch ws er err
    | fs ch ws er
    | fs p ch w ws er i Hi
    | fs ws er i Hi
    | fs fs' ch w ws er i p Hi Hproc
    | fs fs' ch w ws er i p err Hi Hproc
    | fs ch w ws er i err Hi ]; simpl in *.
  - exists done. rewrite He in H1, H2. simpl in *. split_and!; try done.
    intros Hex. by destruct (H5 Hex).
  - exists done. rewrite He in H1, H2. rewrite Hd in H1. simpl. split_and!; try done.
    intros Hex. by destruct (H5 Hex).
  - exists done. rewrite He in H1, H2. rewrite Hd, Hm in H1. simpl.
    split_and!; try done. intros Hex. by destruct (H5 Hex).
  - exists done. rewrite He in H1, H2. rewrite Hd, Hm in H1. simpl.
    split_and!; try done.
    + rewrite <- H1. solve_Permutation.
    + intros Hex. by destruct (H5 Hex).
  - exists done. simpl. split_and!; try done. intros Hex. by destruct (H5 Hex).
  - exists done. simpl. split_and!; try done.
    + rewrite <- H2. simpl. solve_Permutation.
    + intros Hex. by destruct (H5 Hex).
  - exists done. simpl. split_and!; try done. intros Hex. by destruct (H5 Hex).
  - destruct (worker_update ws i _ (Processing p) Hi) as (l & r & -> & ->).
    rewrite holding_app, pending_app in *. simpl in *.
    exists done. simpl. rewrite holding_app, pending_app. simpl. split_and!; try done.
    + rewrite <- H1. solve_Permutation.
    + by rewrite length_app in *.
    + intros Hex%(exited_update _ _ Receiving); [|done]. by destruct (H5 Hex).
  - destruct (worker_update ws i _ Exited Hi) as (l & r & -> & ->).
    rewrite holding_app, pending_app in *. simpl in *.
    exists done. simpl. rewrite holding_app, pending_app. simpl. split_and!; try done.
    by rewrite length_app in *.
  - destruct (worker_update ws i _ Receiving Hi) as (l & r & -> & ->).
    rewrite holding_app, pending_app in *. simpl in *.
    assert (p ∉ done) as Hp.
    { apply (sent_no_dup_holding _ done
               (holding l ++ holding r ++ ch ++ to_send (FileFilter cfg) w) p Hnodup).
      rewrite <- H1. solve_Permutation. }
    destruct (pool_inv_process fs fs' done p None Hp H3 Hproc) as [Herr Hfs].
    exists (p :: done). simpl. rewrite holding_app, pending_app. simpl.
    rewrite Herr. simpl. split_and!; try done.
    + rewrite <- H1. solve_Permutation.
    + by rewrite length_app in *.
    + intros Hex%(exited_update _ _ (Processing p)); [|done]. by destruct (H5 Hex).
  - destruct (worker_update ws i _ (Reporting (ErrFailedToProcess p err)) Hi)
      as (l & r & -> & ->).
    rewrite holding_app, pending_app in *. simpl in *.
    assert (p ∉ done) as Hp.
    { apply (sent_no_dup_holding _ done
               (holding l ++ holding r ++ ch ++ to_send (FileFilter cfg) w) p Hnodup).
      rewrite <- H1. solve_Permutation. }
    destruct (pool_inv_process fs fs' done p (Some err) Hp H3 Hproc) as [Herr Hfs].
    exists (p :: done). simpl. rewrite holding_app, pending_app. simpl.
    rewrite Herr. simpl. split_and!; try done.
    + rewrite <- H1. solve_Permutation.
    + etrans; [|apply perm_skip, H2]. solve_Permutation.
    + by rewrite length_app in *.
    + intros Hex%(exited_update _ _ (Processing p)); [|done]. by destruct (H5 Hex).
  - destruct (worker_update ws i _ Receiving Hi) as (l & r & -> & ->).
    rewrite holding_app, pending_app in *. simpl in *.
    exists done. simpl. rewrite holding_app, pending_app. simpl. split_and!; try done.
    + rewrite <- H2. solve_Permutation.
    + by rewrite length_app in *.
    + intros Hex%(exited_update _ _ (Reporting err)); [|done]. by destruct (H5 Hex).
Qed.

Lemma pool_inv_steps (st st' : pool) :
  pool_inv cfg rep tree fs0 st → steps cfg rep st st' → pool_inv cfg rep tree fs0 st'.
Proof. intros Hinv Hsteps. induction Hsteps; eauto using pool_inv_step. Qed.

(** After the join every path the walk sends has been processed, and every
    error has been recorded. *)
Lemma pool_inv_joined (st : pool) :
  (0 < Workers cfg)%Z →
  pool_inv cfg rep tree fs0 st → joined st →
  errs st ≡ₚ run_errors cfg rep tree fs0
  ∧ ∀ p, disk st !! p
         = if decide (p ∈ sent (FileFilter cfg) tree) then file_after rep fs0 p
           else fs0 !! p.
Proof.
  intros Hw (done & H1 & H2 & H3 & H4 & H5) Hj. unfold joined in Hj.
  assert (holding (workers st) = [] ∧ pending (workers st) = []) as [Hh Hp].
  { by apply joined_idle. }
  assert (Exited ∈ workers st) as Hex.
  { destruct (workers st) as [|w ws]; [simpl in H4; lia|].
    apply Forall_cons in Hj as [-> _]. apply list_elem_of_here. }
  destruct (H5 Hex) as [Hwalk Hfiles].
  rewrite Hh, Hfiles, Hwalk in H1. rewrite Hp, Hwalk in H2. simpl in H1, H2.
  rewrite !app_nil_r in H1. rewrite app_nil_r in H2. split.
  - unfold run_errors. by rewrite H2, H1.
  - intros p. rewrite H3. destruct (decide (p ∈ done)) as [Hin|Hnin].
    + rewrite decide_True; [done|]. by rewrite <- H1.
    + rewrite decide_False; [done|]. by rewrite <- H1.
Qed.

End pool.

(** *** Every run returns *)

Lemma sum_weight_update (l r : list worker) (w : worker) :
  sum_list_with worker_weight (l ++ w :: r)
  = sum_list_with worker_weight l + worker_weight w + sum_list_with worker_weight r.
Proof. rewrite sum_list_with_app. simpl. lia. Qed.

(** Every step brings the pool closer to the join. *)
Lemma step_weight (cfg : config) (rep : replacer) (st st' : pool) :
  step cfg rep st st' → pool_weight st' < pool_weight st.
Proof.
  intros Hstep. unfold pool_weight.
  destruct Hstep as
    [ fs ch e es ws er err He
    | fs ch e es ws er He Hd
    | fs ch e es ws er He Hd Hm
    | fs ch e es ws er He Hd Hm Hcap
    | fs ch ws er
    | fs ch ws er err
    | fs ch ws er
    | fs p ch w ws er i Hi
    | fs ws er i Hi
    | fs fs' ch w ws er i p Hi Hproc
    | fs fs' ch w ws er i p err Hi Hproc
    | fs ch w ws er i err Hi ]; simpl;
    rewrite ?length_app; simpl; try lia.
  - destruct (worker_update ws i _ (Processing p) Hi) as (l & r & -> & ->).
    rewrite !sum_weight_update. simpl. lia.
  - destruct (worker_update ws i _ Exited Hi) as (l & r & -> & ->).
    rewrite !sum_weight_update. simpl. lia.
  - destruct (worker_update ws i _ Receiving Hi) as (l & r & -> & ->).
    rewrite !sum_weight_update. simpl. lia.
  - destruct (worker_update ws i _ (Reporting (ErrFailedToProcess p err)) Hi)
      as (l & r & -> & ->).
    rewrite !sum_weight_update. simpl. lia.
  - destruct (worker_update ws i _ Receiving Hi) as (l & r & -> & ->).
    rewrite !sum_weight_update. simpl. lia.
Qed.

Lemma worker_active (ws : list worker) :
  Forall (λ w, w = Exited) ws ∨ ∃ i w, ws !! i = Some w ∧ w ≠ Exited.
Proof.
  induction ws as [|w ws IH]; [by left|].
  destruct w; try (right; by eexists 0, _).
  destruct IH as [IH|(i & w & Hi & Hw)].
  - left. by constructor.
  - right. by exists (S i), w.
Qed.

(** A pool whose channel has room for a path is never stuck before the
    join. *)
Lemma step_progress (cfg : config) (rep : replacer) (st : pool) :
  0 < capacity cfg → ¬ joined st → ∃ st', step cfg rep st st'.
Proof.
  intros Hcap Hnj. destruct st as [fs ch w ws er]. unfold joined in Hnj. simpl in Hnj.
  destruct (worker_active ws) as [?|(i & wk & Hi & Hne)]; [done|].
  destruct wk as [|p|err|]; [| | |done].
  - destruct ch as [|p ch].
    + destruct w as [[|e es]|[err|]|].
      * eexists. apply step_walk_end.
      * destruct (entry_err e) as [err|] eqn:He.
        { eexists. by eapply step_walk_err. }
        destruct (entry_isDir e) eqn:Hd.
        { eexists. by apply step_walk_dir. }
        destruct (fileFilter_match (FileFilter cfg) (entry_path e)) eqn:Hm.
        { eexists. by apply step_walk_send. }
        { eexists. by apply step_walk_skip. }
      * eexists. apply step_walk_report.
      * eexists. apply step_walk_close.
      * eexists. by eapply step_exit.
    + eexists. by eapply step_recv.
  - destruct (processFile_total p rep fs) as (fs' & [err|] & Hproc).
    + eexists. by eapply step_process_err.
    + eexists. by eapply step_process_ok.
  - eexists. by eapply step_report.
Qed.

Lemma joined_dec (st : pool) : joined st ∨ ¬ joined st.
Proof.
  unfold joined. destruct (worker_active (workers st)) as [?|(i & w & Hi & Hne)];
    [by left|right].
  intros HF. by apply (Forall_lookup_1 _ _ _ _ HF) in Hi.
Qed.

(** Every execution can be continued to the join: [wg.Wait()] returns. *)
Lemma pool_finishes (cfg : config) (rep : replacer) (st : pool) :
  0 < capacity cfg → ∃ st', steps cfg rep st st' ∧ joined st'.
Proof.
  intros Hcap. remember (pool_weight st) as n eqn:Hn. revert st Hn.
  induction n as [n IH] using lt_wf_ind. intros st ->.
  destruct (joined_dec st) as [Hj|Hnj].
  - exists st. split; [apply rtc_refl|done].
  - destruct (step_progress cfg rep st Hcap Hnj) as (st1 & Hstep).
    destruct (IH _ (step_weight _ _ _ _ Hstep) st1 eq_refl) as (st' & Hsteps & Hj).
    exists st'. split; [|done]. by eapply rtc_l.
Qed.

(** The number of steps of an execution is bounded by the weight of the
    state it starts in: no interleaving goes on for ever. *)
Lemma steps_bounded (cfg : config) (rep : replacer) (n : nat) (st st' : pool) :
  nsteps (step cfg rep) n st st' → n + pool_weight st' ≤ pool_weight st.
Proof.
  induction 1 as [st|n st1 st2 st3 Hstep _ IH]; [done|].
  apply step_weight in Hstep. lia.
Qed.

(** Up to [max_workers] workers the product [cfg.Workers*2] does not wrap,
    [make] grants the channel, and the channel has room for a path. *)
Lemma chan_size_small (cfg : config) :
  (0 < Workers cfg ≤ max_workers)%Z → chan_size cfg = (Workers cfg * 2)%Z.
Proof.
  unfold chan_size, int_wrap, max_workers. intros H.
  rewrite Z.mod_small by lia. lia.
Qed.

Lemma capacity_pos (cfg : config) :
  (0 < Workers cfg ≤ max_workers)%Z →
  make_panics (chan_size cfg) = false ∧ 0 < capacity cfg.
Proof.
  intros H. unfold capacity, make_panics. rewrite (chan_size_small cfg H).
  unfold max_workers in H. split; [|lia]. apply Z.ltb_ge. lia.
Qed.

Lemma processFiles_returns (cfg : config) (tree : list dirEntry) (fs : fsys) :
  (0 < Workers cfg ≤ max_workers)%Z → ∃ fs' ret, processFiles cfg tree fs fs' ret.
Proof.
  intros H. destruct (capacity_pos cfg H) as [Hmake Hcap].
  set (rep := buildNewReplacer (OpenDelim cfg) (CloseDelim cfg) (KeyMap cfg)).
  destruct (pool_finishes cfg rep (start cfg tree fs) Hcap) as (st & Hsteps & Hj).
  exists (disk st), (result st). split; [done|]. by exists st.
Qed.

(** *** What every run ends with *)

(** Whatever the interleaving of the goroutines, a run ends (for a worker
    count up to [max_workers]), with every path the walk sends processed
    on the file the run started with, and with the errors of these paths
    and of the walk in [errs]. *)
Lemma processFiles_outcome (cfg : config) (tree : list dirEntry) (fs : fsys) :
  (0 < Workers cfg)%Z →
  NoDup (sent (FileFilter cfg) tree) →
  let rep := buildNewReplacer (OpenDelim cfg) (CloseDelim cfg) (KeyMap cfg) in
  ((Workers cfg ≤ max_workers)%Z → ∃ fs' ret, processFiles cfg tree fs fs' ret)
  ∧ ∀ fs' ret, processFiles cfg tree fs fs' ret →
      (∀ p, fs' !! p = if decide (p ∈ sent (FileFilter cfg) tree)
                       then file_after rep fs p else fs !! p)
      ∧ ∃ es, es ≡ₚ run_errors cfg rep tree fs
              ∧ ret = match es with [] => None | _ :: _ => Some (ErrJoin es) end.
Proof.
  intros Hw Hnd rep. subst rep. set (rep := buildNewReplacer _ _ _). split.
  - intros Hmax. by apply processFiles_returns.
  - intros fs' ret (_ & st & Hsteps & Hj & -> & ->).
    assert (pool_inv cfg rep tree fs st) as Hinv.
    { eapply pool_inv_steps; [done|apply pool_inv_start|done]. }
    destruct (pool_inv_joined cfg rep tree fs st Hw Hinv Hj) as [Herrs Hdisk].
    split; [done|]. exists (errs st). split; [done|]. unfold result.
    by destruct (errs st).
Qed.

(** The test of the repository passes on the model: the run returns nil and
    leaves [example.com] in place of the placeholder. *)
Example test_ProcessFiles_ReplacesKeys :
  (∃ fs' ret, processFiles test_cfg test_tree test_fs fs' ret)
  ∧ ∀ fs' ret, processFiles test_cfg test_tree test_fs fs' ret →
      ret = None
      ∧ fs' !! "/tmp/t/config.yaml" = Some (File test_output 420%N)
      ∧ occurrences test_output "example.com" ≠ []
      ∧ occurrences test_output "<::PUBLIC_DOMAIN::>" = [].
Proof.
  assert (sent (FileFilter test_cfg) test_tree = ["/tmp/t/config.yaml"]) as Hsent
    by (by vm_compute).
  assert (NoDup (sent (FileFilter test_cfg) test_tree)) as Hnd
    by (rewrite Hsent; apply NoDup_singleton).
  destruct (processFiles_outcome test_cfg test_tree test_fs eq_refl Hnd) as [Hex Hall].
  split; [apply Hex; by vm_compute|]. intros fs' ret Hrun. cbv zeta in Hall.
  destruct (Hall _ _ Hrun) as (Hdisk & es & Hes & ->).
  assert (run_errors test_cfg
            (buildNewReplacer (OpenDelim test_cfg) (CloseDelim test_cfg) (KeyMap test_cfg))
            test_tree test_fs = []) as E by (by vm_compute).
  rewrite E in Hes. apply Permutation_nil_r in Hes as ->.
  split_and!; [done| |by vm_compute|by vm_compute].
  rewrite Hdisk. by vm_compute.
Qed.

(** The end-to-end example of the specification. *)
Example replace_end_to_end :
  buildNewReplacer "<::" "::>" [("NAME", "svc"); ("PORT", "8080")]
    "name: <::NAME::>
port: <::PORT::>
"
  = (Some "name: svc
port: 8080
", true, None).
Proof. by vm_compute. Qed.

Lemma omap_nil_iff {A B : Type} (f : A → option B) (l : list A) :
  omap f l = [] ↔ ∀ x, x ∈ l → f x = None.
Proof.
  split.
  - intros Hnil x Hin. destruct (f x) as [y|] eqn:Hfx; [|done].
    assert (y ∈ omap f l) as Hy by (apply list_elem_of_omap; eauto).
    rewrite Hnil in Hy. by apply elem_of_nil in Hy.
  - intros Hall. destruct (omap f l) as [|y ys] eqn:Ho; [done|].
    assert (y ∈ omap f l) as Hy by (rewrite Ho; apply list_elem_of_here).
    apply list_elem_of_omap in Hy as (x & Hin & Hfx). rewrite (Hall x Hin) in Hfx. done.
Qed.

Lemma run_errors_nil (cfg : config) (rep : replacer) (tree : list dirEntry) (fs : fsys) :
  run_errors cfg rep tree fs = [] ↔
  (∀ p, p ∈ sent (FileFilter cfg) tree → file_error rep fs p = None)
  ∧ walk_error tree = None.
Proof.
  unfold run_errors. rewrite app_nil, omap_nil_iff.
  destruct (walk_error tree); simpl; split; intros [? ?]; done.
Qed.

(** C8.  A run with up to [max_workers] workers returns.  Every run that
    returns, with any positive number of workers, returns nil if and only
    if no path has a processing error (an unresolved key, a read or a
    write that failed) and the walk has none; otherwise it returns one
    joined error that holds the error of every path that failed and the
    walk's error; and every path sent to the workers is processed,
    whichever other paths fail. *)
Theorem processFiles_collects_every_error (cfg : config) (tree : list dirEntry)
    (fs : fsys) :
  (0 < Workers cfg)%Z →
  NoDup (sent (FileFilter cfg) tree) →
  let rep := buildNewReplacer (OpenDelim cfg) (CloseDelim cfg) (KeyMap cfg) in
  ((Workers cfg ≤ max_workers)%Z → ∃ fs' ret, processFiles cfg tree fs fs' ret)
  ∧ ∀ fs' ret, processFiles cfg tree fs fs' ret →
      (ret = None ↔
         (∀ p, p ∈ sent (FileFilter cfg) tree → file_error rep fs p = None)
         ∧ walk_error tree = None)
      ∧ (ret ≠ None →
           ∃ es, ret = Some (ErrJoin es) ∧ es ≡ₚ run_errors cfg rep tree fs)
      ∧ (∀ p, p ∈ sent (FileFilter cfg) tree → fs' !! p = file_after rep fs p)
      ∧ (∀ p, p ∉ sent (FileFilter cfg) tree → fs' !! p = fs !! p).
Proof.
  intros Hw Hnd. cbv zeta.
  destruct (processFiles_outcome cfg tree fs Hw Hnd) as [Hex Hall]. cbv zeta in Hall.
  split; [done|]. intros fs' ret Hrun.
  destruct (Hall fs' ret Hrun) as (Hdisk & es & Hes & ->). split_and!.
  - rewrite <- run_errors_nil. destruct es as [|e es].
    + apply Permutation_nil_l in Hes. by rewrite <- Hes.
    + split; [done|]. intros Hnil. rewrite Hnil in Hes.
      by apply Permutation_nil_r in Hes.
  - intros Hne. exists es. split; [|done]. by destruct es.
  - intros p Hin. by rewrite Hdisk, decide_True.
  - intros p Hnin. by rewrite Hdisk, decide_False.
Qed.

Lemma ex_tree_sent : sent ex_filter ex_tree = ["a.yaml"; "b.yaml"].
Proof. by vm_compute. Qed.

Lemma ex_tree_NoDup : NoDup (sent ex_filter ex_tree).
Proof.
  rewrite ex_tree_sent. apply NoDup_cons. split; [|apply NoDup_singleton].
  by intros ?%list_elem_of_singleton.
Defined.

Lemma processFiles_collects_every_error_witness :
  let cfg := ex_cfg 2 [("NAME", "svc")] in
  let fs := ex_fs "x: <::X::>" "name: <::NAME::>" in
  let rep := buildNewReplacer (OpenDelim cfg) (CloseDelim cfg) (KeyMap cfg) in
  (∃ fs' ret, processFiles cfg ex_tree fs fs' ret)
  ∧ ∀ fs' ret, processFiles cfg ex_tree fs fs' ret →
      (ret = None ↔
         (∀ p, p ∈ sent (FileFilter cfg) ex_tree → file_error rep fs p = None)
         ∧ walk_error ex_tree = None)
      ∧ (ret ≠ None →
           ∃ es, ret = Some (ErrJoin es) ∧ es ≡ₚ run_errors cfg rep ex_tree fs)
      ∧ (∀ p, p ∈ sent (FileFilter cfg) ex_tree → fs' !! p = file_after rep fs p)
      ∧ (∀ p, p ∉ sent (FileFilter cfg) ex_tree → fs' !! p = fs !! p).
Proof.
  destruct (processFiles_collects_every_error (ex_cfg 2 [("NAME", "svc")]) ex_tree
              (ex_fs "x: <::X::>" "name: <::NAME::>") eq_refl ex_tree_NoDup)
    as [Hex Hall].
  split; [apply Hex; by vm_compute|exact Hall].
Defined.

(** In this run the first file fails and the second is rewritten all the
    same. *)
Example ex_run_errors :
  let cfg := ex_cfg 2 [("NAME", "svc")] in
  let fs := ex_fs "x: <::X::>" "name: <::NAME::>" in
  let rep := buildNewReplacer (OpenDelim cfg) (CloseDelim cfg) (KeyMap cfg) in
  run_errors cfg rep ex_tree fs
  = [ErrFailedToProcess "a.yaml" (ErrFailedToProcess "a.yaml" (ErrNotSet "X"))]
  ∧ file_after rep fs "a.yaml" = Some (File "x: <::X::>" 420%N)
  ∧ file_after rep fs "b.yaml" = Some (File "name: svc" 420%N).
Proof. by vm_compute. Qed.

(** In this run the first file may be read but not written (mode 0444): the
    write is refused, its error is in the result and the file is as it
    was; the second file is rewritten. *)
Example ex_run_refused_write :
  let cfg := ex_cfg 2 [("NAME", "svc")] in
  let fs : fsys := <["a.yaml" := File "name: <::NAME::>" 292%N]>
                     {["b.yaml" := File "name: <::NAME::>" 420%N]} in
  let rep := buildNewReplacer (OpenDelim cfg) (CloseDelim cfg) (KeyMap cfg) in
  run_errors cfg rep ex_tree fs
  = [ErrFailedToProcess "a.yaml" (ErrPermission "a.yaml")]
  ∧ file_after rep fs "a.yaml" = Some (File "name: <::NAME::>" 292%N)
  ∧ file_after rep fs "b.yaml" = Some (File "name: svc" 420%N).
Proof. by vm_compute. Qed.

(** From [cfg.Workers = 2^62] on, [cfg.Workers*2] is negative, [make]
    panics and the call returns nothing. *)
Example ex_make_panics (tree : list dirEntry) (fs fs' : fsys) (ret : option error) :
  chan_size (ex_cfg (2 ^ 62) []) = (- 2 ^ 63)%Z
  ∧ make_panics (chan_size (ex_cfg (2 ^ 62) [])) = true
  ∧ ¬ processFiles (ex_cfg (2 ^ 62) []) tree fs fs' ret.
Proof.
  split_and!; [by vm_compute|by vm_compute|]. by intros [? _].
Qed.

(** *** The missing key *)

(** The only placeholder of the text [a <::X::> b] is [X]. *)
Lemma only_key_aXb (k : string) :
  contains "a <::X::> b" ("<::" +:+ k +:+ "::>") → k = "X".
Proof.
  intros (a & b & H). rewrite !str_app_assoc in H.
  apply app_inv_occ in H as (Hocc & _ & Hrest).
  assert (occurrences "a <::X::> b" "<::" = [2]) as E by (vm_compute; reflexivity).
  rewrite E in Hocc. apply list_elem_of_singleton in Hocc. rewrite Hocc in Hrest.
  change (slice_from "a <::X::> b" 2) with ("<::" +:+ "X::> b") in Hrest.
  apply (inj (String.app "<::")) in Hrest. symmetry in Hrest.
  apply app_inv_occ in Hrest as (Hocc' & Hk & _).
  assert (occurrences "X::> b" "::>" = [1]) as E' by (vm_compute; reflexivity).
  rewrite E' in Hocc'. apply list_elem_of_singleton in Hocc'. by rewrite Hocc' in Hk.
Qed.

Lemma replace_aXb (values : StringMap) :
  ¬ has_key values "X" →
  buildNewReplacer "<::" "::>" values "a <::X::> b" = (None, false, Some (ErrNotSet "X")).
Proof.
  intros Hno. rewrite buildNewReplacer_unfold. cbv zeta.
  destruct (Replace_id (NewReplacer (pairs "<::" "::>" values)) "a <::X::> b") as [-> _].
  - intros old new (k & Hin & ->)%pairs_elem Hc. apply only_key_aXb in Hc as ->.
    apply Hno. by eapply has_key_elem.
  - reflexivity.
Qed.

(** C2.  A file whose content is [a <::X::> b], processed with the
    delimiters [<::] and [::>] and a mapping without the key [X]:
    [processFile] returns the error without writing; a run with up to
    [max_workers] workers over a tree that holds the file returns; and
    every run that returns, with any positive number of workers, leaves the
    file's bytes and mode as they were and returns a joined error that
    holds the unresolved-placeholder error naming [X] for this path. *)
Theorem missing_key_leaves_file_untouched (cfg : config) (tree : list dirEntry)
    (fs : fsys) (path : string) (mode : N) :
  (0 < Workers cfg)%Z →
  NoDup (sent (FileFilter cfg) tree) →
  OpenDelim cfg = "<::" → CloseDelim cfg = "::>" →
  ¬ has_key (KeyMap cfg) "X" →
  path ∈ sent (FileFilter cfg) tree →
  fs !! path = Some (File "a <::X::> b" mode) →
  processFile path (buildNewReplacer "<::" "::>" (KeyMap cfg)) fs
    = Some (fs, Some (ErrFailedToProcess path (ErrNotSet "X")))
  ∧ ((Workers cfg ≤ max_workers)%Z → ∃ fs' ret, processFiles cfg tree fs fs' ret)
  ∧ ∀ fs' ret, processFiles cfg tree fs fs' ret →
      fs' !! path = Some (File "a <::X::> b" mode)
      ∧ ∃ es, ret = Some (ErrJoin es)
              ∧ ErrFailedToProcess path (ErrFailedToProcess path (ErrNotSet "X")) ∈ es.
Proof.
  intros Hw Hnd Ho Hc Hno Hin Hf.
  assert (processFile path (buildNewReplacer "<::" "::>" (KeyMap cfg)) fs
          = Some (fs, Some (ErrFailedToProcess path (ErrNotSet "X")))) as Hproc.
  { unfold processFile, ReadFile. rewrite Hf. simpl. by rewrite (replace_aXb _ Hno). }
  split; [done|].
  destruct (processFiles_outcome cfg tree fs Hw Hnd) as [Hex Hall].
  cbv zeta in Hall. rewrite Ho, Hc in Hall.
  split; [done|]. intros fs' ret Hrun.
  destruct (Hall fs' ret Hrun) as (Hdisk & es & Hes & ->). split.
  - rewrite Hdisk, decide_True by done. unfold file_after. by rewrite Hproc.
  - assert (ErrFailedToProcess path (ErrFailedToProcess path (ErrNotSet "X")) ∈ es)
      as Hel.
    { rewrite Hes. unfold run_errors. apply elem_of_app. left.
      apply list_elem_of_omap. exists path. split; [done|].
      unfold file_error. by rewrite Hproc. }
    exists es. split; [|done]. destruct es; [by apply elem_of_nil in Hel|done].
Qed.

Lemma missing_key_leaves_file_untouched_witness :
  let cfg := ex_cfg 2 [("NAME", "svc")] in
  let fs := ex_fs "a <::X::> b" "name: <::NAME::>" in
  processFile "a.yaml" (buildNewReplacer "<::" "::>" (KeyMap cfg)) fs
    = Some (fs, Some (ErrFailedToProcess "a.yaml" (ErrNotSet "X")))
  ∧ (∃ fs' ret, processFiles cfg ex_tree fs fs' ret)
  ∧ ∀ fs' ret, processFiles cfg ex_tree fs fs' ret →
      fs' !! "a.yaml" = Some (File "a <::X::> b" 420%N)
      ∧ ∃ es, ret = Some (ErrJoin es)
              ∧ ErrFailedToProcess "a.yaml"
                  (ErrFailedToProcess "a.yaml" (ErrNotSet "X")) ∈ es.
Proof.
  destruct (missing_key_leaves_file_untouched (ex_cfg 2 [("NAME", "svc")]) ex_tree
              (ex_fs "a <::X::> b" "name: <::NAME::>") "a.yaml" 420%N)
    as (Hfile & Hex & Hall).
  - reflexivity.
  - exact ex_tree_NoDup.
  - reflexivity.
  - reflexivity.
  - unfold has_key. simpl. by intros ?%list_elem_of_singleton.
  - change (FileFilter (ex_cfg 2 [("NAME", "svc")])) with ex_filter.
    rewrite ex_tree_sent. apply list_elem_of_here.
  - reflexivity.
  - split; [exact Hfile|]. split; [apply Hex; by vm_compute|exact Hall].
Defined.

(** ** An open delimiter without its close *)

Lemma HasPrefix_app_l (pre rest old : string) :
  HasPrefix pre old = true → HasPrefix (pre +:+ rest) old = true.
Proof.
  intros [r ->]%HasPrefix_spec. apply HasPrefix_spec. exists (r +:+ rest).
  by rewrite str_app_assoc.
Qed.

Lemma HasPrefix_app_short (pre rest old : string) :
  String.length old ≤ String.length pre →
  HasPrefix (pre +:+ rest) old = true → HasPrefix pre old = true.
Proof.
  revert pre. induction old as [|d old IH]; intros pre Hlen Hp.
  - apply HasPrefix_spec. by exists pre.
  - destruct pre as [|e pre]; simpl in Hlen; [lia|].
    apply HasPrefix_spec in Hp as [r Hr]. rewrite !str_app_cons in Hr.
    injection Hr as -> Hr.
    assert (HasPrefix pre old = true) as [r' ->]%HasPrefix_spec.
    { apply IH; [lia|]. apply HasPrefix_spec. by exists r. }
    apply HasPrefix_spec. exists r'. by rewrite str_app_cons.
Qed.

Lemma ends_within_lookup (r : Replacer) (pre rest : string) (prev : bool) :
  ends_within r pre rest →
  lookup_old r (pre +:+ rest) prev = lookup_old r pre prev.
Proof.
  intros Hin. unfold lookup_old.
  assert (∀ p, p ∈ r → candidate (pre +:+ rest) prev p = candidate pre prev p) as Hext.
  { intros [old new] Hp. unfold candidate. simpl. f_equal.
    destruct (HasPrefix (pre +:+ rest) old) eqn:H1.
    - symmetry. apply (HasPrefix_app_short pre rest old); [|done].
      apply HasPrefix_spec in H1 as [b Hb].
      specialize (Hin old new "" b Hp Hb). simpl in Hin. lia.
    - destruct (HasPrefix pre old) eqn:H2; [|done].
      apply (HasPrefix_app_l pre rest) in H2. congruence. }
  clear Hin. induction r as [|p r IH]; [done|]. simpl.
  rewrite (Hext p) by apply list_elem_of_here.
  destruct (candidate pre prev p); [done|].
  apply IH. intros q Hq. apply Hext. by apply list_elem_of_further.
Qed.

Lemma ends_within_slice (r : Replacer) (pre rest old : string) :
  HasPrefix pre old = true →
  ends_within r pre rest →
  ends_within r (slice_from pre (String.length old)) rest.
Proof.
  intros [p' ->]%HasPrefix_spec Hin old' new a b Hel Heq.
  rewrite slice_from_app in *.
  specialize (Hin old' new (old +:+ a) b Hel).
  rewrite !str_app_assoc, Heq, !str_length_app in Hin.
  specialize (Hin eq_refl). lia.
Qed.

Lemma ends_within_cons (r : Replacer) (ch : ascii) (pre rest : string) :
  ends_within r (String ch pre) rest → ends_within r pre rest.
Proof.
  intros Hin old new a b Hel Heq.
  specialize (Hin old new (String ch a) b Hel).
  rewrite !str_app_cons, Heq in Hin. specialize (Hin eq_refl). simpl in Hin. lia.
Qed.

(** Nothing is replaced in a text in which no old string ends. *)
Lemma ends_within_nil (r : Replacer) (prev : bool) (rest : string) :
  ends_within r "" rest →
  lookup_old r rest prev = None →
  render (run_loop r prev rest) = rest.
Proof.
  intros Hin Hl. destruct rest as [|ch rest'].
  { by rewrite run_loop_eq, Hl. }
  apply run_loop_no_sub. intros [x|old new] Hk; [done|].
  apply run_loop_sub in Hk as [Hel (a & b & Heq)].
  pose proof (Hin old new a b Hel Heq) as Hlen. simpl in Hlen.
  assert (a = "") as -> by (apply str_length_zero; lia).
  assert (old = "") as -> by (apply str_length_zero; lia).
  specialize (Hin "" new (String ch "") rest' Hel eq_refl). simpl in Hin. lia.
Qed.

(** The replacer copies a tail in which no old string ends. *)
Lemma run_loop_app_tail (r : Replacer) (rest : string) (prev : bool) (pre : string) :
  ends_within r pre rest →
  render (run_loop r prev (pre +:+ rest)) = render (run_loop r prev pre) +:+ rest.
Proof.
  revert prev pre.
  apply (run_loop_ind r (λ prev pre, ends_within r pre rest →
    render (run_loop r prev (pre +:+ rest)) = render (run_loop r prev pre) +:+ rest)).
  intros prev pre IHm IHc Hin.
  rewrite (run_loop_eq r prev pre).
  destruct (lookup_old r pre prev) as [[old new]|] eqn:Hl.
  - rewrite run_loop_eq, (ends_within_lookup r pre rest prev Hin), Hl.
    pose proof (lookup_old_Some _ _ _ _ _ Hl) as (_ & Hp & _).
    rewrite slice_from_app_le by (by apply HasPrefix_length).
    simpl. rewrite (IHm old new eq_refl) by (by apply ends_within_slice).
    by rewrite str_app_assoc.
  - destruct pre as [|ch pre'].
    + rewrite str_app_nil_l. simpl. rewrite str_app_nil_l.
      apply ends_within_nil; [done|].
      by rewrite <- (ends_within_lookup r "" rest prev Hin), str_app_nil_l in Hl.
    + rewrite run_loop_eq, (ends_within_lookup r _ rest prev Hin), Hl.
      rewrite str_app_cons. simpl.
      rewrite (IHc ch pre' eq_refl eq_refl) by (by eapply ends_within_cons).
      by rewrite !str_app_cons, !str_app_nil_l.
Qed.

Lemma Replace_app_tail (r : Replacer) (pre rest : string) :
  ends_within r pre rest → Replace r (pre +:+ rest) = Replace r pre +:+ rest.
Proof.
  intros Hin. unfold Replace. rewrite !replace_chunks_run_loop.
  by apply run_loop_app_tail.
Qed.

(** The only placeholder of the text [<::A::> <::] is [A]. *)
Lemma only_key_A_open (k : string) :
  contains "<::A::> <::" ("<::" +:+ k +:+ "::>") → k = "A".
Proof.
  intros (a & b & H). rewrite !str_app_assoc in H.
  apply app_inv_occ in H as (Hocc & _ & Hrest).
  assert (occurrences "<::A::> <::" "<::" = [0; 8]) as E by (vm_compute; reflexivity).
  rewrite E in Hocc.
  apply elem_of_cons in Hocc as [Hocc|Hocc%list_elem_of_singleton];
    rewrite Hocc in Hrest.
  - rewrite slice_from_0 in Hrest.
    change "<::A::> <::" with ("<::" +:+ "A::> <::") in Hrest.
    apply (inj (String.app "<::")) in Hrest. symmetry in Hrest.
    apply app_inv_occ in Hrest as (Hocc' & Hk & _).
    assert (occurrences "A::> <::" "::>" = [1]) as E' by (vm_compute; reflexivity).
    rewrite E' in Hocc'. apply list_elem_of_singleton in Hocc'. by rewrite Hocc' in Hk.
  - change (slice_from "<::A::> <::" 8) with ("<::" +:+ "") in Hrest.
    apply (inj (String.app "<::")) in Hrest. symmetry in Hrest.
    apply app_inv_occ in Hrest as (Hocc' & _ & _).
    by apply elem_of_nil in Hocc'.
Qed.

(** C7 (the code departs from the claim, in both halves).  In
    [<::A <::B::>] the first open delimiter is followed by a close
    delimiter and the text they enclose, [A <::B], is not a key of the
    mapping [B -> v]: the claim asks for an error, and [buildNewReplacer]
    succeeds and passes [<::A ] through: its pass looks for whole tokens
    of the mapping only, so it replaces the inner token, and its check
    then finds no close delimiter after the first open delimiter of the
    output.  [loopReplacer], on the same input, returns the error that
    names [A <::B].  In [<::A::> <::] the last open
    delimiter is followed by no close delimiter and the only placeholder,
    [A], is a key of the mapping [A -> <::Z::>]: the claim asks for
    success with the tail passed through, and [buildNewReplacer] fails
    naming [Z], by the defect of C1 (the check reads the substituted
    output); [loopReplacer] succeeds and passes the tail through. *)
Lemma open_delimiter_edge_cases :
  ("<::A <::B::>" = "" +:+ "<::" +:+ "A <::B" +:+ "::>" +:+ ""
   ∧ ¬ has_key [("B", "v")] "A <::B"
   ∧ buildNewReplacer "<::" "::>" [("B", "v")] "<::A <::B::>"
     = (Some "<::A v", true, None)
   ∧ loopReplacer "<::A <::B::>" "<::" "::>" [("B", "v")]
     = Some (None, false, Some (ErrNotSet "A <::B")))
  ∧ ("<::A::> <::" = "<::A::> " +:+ "<::" +:+ ""
     ∧ occurrences "<::A::> <::" "::>" = [4]
     ∧ (∀ k, contains "<::A::> <::" ("<::" +:+ k +:+ "::>") → has_key [("A", "<::Z::>")] k)
     ∧ buildNewReplacer "<::" "::>" [("A", "<::Z::>")] "<::A::> <::"
       = (None, false, Some (ErrNotSet "Z"))
     ∧ loopReplacer "<::A::> <::" "<::" "::>" [("A", "<::Z::>")]
       = Some (Some "<::Z::> <::", true, None)).
Proof.
  split; split_and!; try (by vm_compute).
  - unfold has_key. simpl. by intros ?%list_elem_of_singleton.
  - intros k ->%only_key_A_open. apply (has_key_elem _ _ "<::Z::>"). apply list_elem_of_here.
Qed.

Lemma open_then_close_app_l (o c x s : string) :
  open_then_close o c s → open_then_close o c (x +:+ s).
Proof.
  intros (a & b & d & ->). exists (x +:+ a), b, d. by rewrite str_app_assoc.
Qed.

(** What [buildNewReplacer] does around an open delimiter, on every
    content.  (1) On a content in which no open delimiter is followed by a
    close delimiter the replace operation succeeds and returns the content
    as it is, unchanged.  (2) When the content ends with an open delimiter
    and a tail, and no close delimiter ends after the start of that open
    delimiter, then whenever the operation succeeds its output is the
    replaced text of the part before, followed by that open delimiter and
    tail as they are.  (3) On a content that holds no token of the mapping
    and has an open delimiter followed by a close delimiter the operation
    fails, and the key of its error is text enclosed by an open and a close
    delimiter of the content that is not a key of the mapping.  (4) When
    every token of the mapping that occurs in the content ends within a
    first part of it, and the rest holds an open delimiter followed by a
    close delimiter, the operation fails, whatever the first part holds:
    an unresolved placeholder after the last token is never passed over. *)
Theorem unterminated_open_passes_through (o c : string) (values : StringMap) :
  (∀ txt, ¬ open_then_close o c txt →
     buildNewReplacer o c values txt = (Some txt, false, None))
  ∧ (∀ pre tail out changed,
       (∀ a b, pre +:+ o +:+ tail = a +:+ c +:+ b →
          String.length a + String.length c ≤ String.length pre) →
       buildNewReplacer o c values (pre +:+ o +:+ tail) = (Some out, changed, None) →
       out = Replace (NewReplacer (pairs o c values)) pre +:+ o +:+ tail)
  ∧ (∀ txt,
       (∀ k, has_key values k → ¬ contains txt (o +:+ k +:+ c)) →
       open_then_close o c txt →
       ∃ missing a d,
         buildNewReplacer o c values txt = (None, false, Some (ErrNotSet missing))
         ∧ txt = a +:+ o +:+ missing +:+ c +:+ d
         ∧ ¬ has_key values missing)
  ∧ (∀ pre rest,
       (∀ k a b, has_key values k →
          pre +:+ rest = a +:+ (o +:+ k +:+ c) +:+ b →
          String.length a + String.length (o +:+ k +:+ c) ≤ String.length pre) →
       open_then_close o c rest →
       ∃ missing a d,
         buildNewReplacer o c values (pre +:+ rest)
           = (None, false, Some (ErrNotSet missing))
         ∧ Replace (NewReplacer (pairs o c values)) pre +:+ rest
           = a +:+ o +:+ missing +:+ c +:+ d).
Proof.
  split_and!.
  - intros txt Hno.
    destruct (Replace_id (pairs o c values) txt) as [Hid _].
    { by apply no_token_after_check. }
    apply buildNewReplacer_ok. unfold NewReplacer. rewrite Hid.
    by rewrite String.eqb_refl.
  - intros pre tail out changed Hclose (-> & _ & _)%buildNewReplacer_ok.
    apply Replace_app_tail.
    intros old new a b (k & _ & ->)%pairs_elem Heq.
    specialize (Hclose (a +:+ o +:+ k) b).
    rewrite !str_app_assoc, !str_length_app in *. specialize (Hclose Heq). lia.
  - intros txt Hnone Hoc.
    destruct (Replace_id (pairs o c values) txt) as [Hid _].
    { intros old new (k & Hk & ->)%pairs_elem. apply Hnone. by eapply has_key_elem. }
    rewrite buildNewReplacer_unfold. unfold NewReplacer. cbv zeta. rewrite Hid.
    destruct (unresolved o c txt) as [m|] eqn:Hu.
    + pose proof (unresolved_Some _ _ _ _ Hu) as (a & d & Htxt).
      exists m, a, d. split_and!; [done|done|].
      intros Hk. apply (Hnone m Hk). exists a, d. by rewrite !str_app_assoc.
    + by apply unresolved_None in Hu.
  - intros pre rest Hends Hoc.
    assert (Replace (NewReplacer (pairs o c values)) (pre +:+ rest)
            = Replace (NewReplacer (pairs o c values)) pre +:+ rest) as Hout.
    { apply Replace_app_tail. intros old new a b (k & Hk & ->)%pairs_elem Heq.
      apply (Hends k a b); [by eapply has_key_elem|done]. }
    rewrite buildNewReplacer_unfold. cbv zeta. rewrite Hout.
    destruct (unresolved o c _) as [m|] eqn:Hu.
    + pose proof (unresolved_Some _ _ _ _ Hu) as (a & d & Heq).
      by exists m, a, d.
    + apply unresolved_None in Hu. destruct Hu. by apply open_then_close_app_l.
Qed.

Lemma unterminated_open_passes_through_witness :
  buildNewReplacer "<::" "::>" [("NAME", "svc")] "name: <::NAM" = (Some "name: <::NAM", false, None)
  ∧ "name: svc <::NAM"
    = Replace (NewReplacer (pairs "<::" "::>" [("NAME", "svc")])) "name: <::NAME::> "
      +:+ "<::" +:+ "NAM"
  ∧ (∃ missing a d,
      buildNewReplacer "<::" "::>" [("NAME", "svc")] "<::X::>"
        = (None, false, Some (ErrNotSet missing))
      ∧ "<::X::>" = a +:+ "<::" +:+ missing +:+ "::>" +:+ d
      ∧ ¬ has_key [("NAME", "svc")] missing)
  ∧ ∃ missing a d,
      buildNewReplacer "<::" "::>" [("NAME", "svc")] ("<::NAME::>" +:+ " <::B::>")
        = (None, false, Some (ErrNotSet missing))
      ∧ Replace (NewReplacer (pairs "<::" "::>" [("NAME", "svc")])) "<::NAME::>"
        +:+ " <::B::>" = a +:+ "<::" +:+ missing +:+ "::>" +:+ d.
Proof.
  destruct (unterminated_open_passes_through "<::" "::>" [("NAME", "svc")])
    as (H1 & H2 & H3 & H4).
  split_and!.
  - apply H1. apply unresolved_None. by vm_compute.
  - apply (H2 "name: <::NAME::> " "NAM" _ true); [|by vm_compute].
    intros a b Heq. apply app_inv_occ in Heq as (Hocc & _ & _).
    assert (occurrences ("name: <::NAME::> " +:+ "<::" +:+ "NAM") "::>" = [13]) as E
      by (vm_compute; reflexivity).
    rewrite E in Hocc. apply list_elem_of_singleton in Hocc. rewrite Hocc.
    vm_compute. lia.
  - apply H3.
    + intros k Hk%list_elem_of_singleton. simpl in Hk. subst k.
      intros ?%only_key_X. done.
    + exists "", "X", "". reflexivity.
  - apply H4.
    + intros k a b Hk%list_elem_of_singleton Heq. simpl in Hk. subst k.
      assert (String.length a ∈ occurrences ("<::NAME::>" +:+ " <::B::>") "<::NAME::>")
        as Hocc by (apply occurrences_spec; by exists a, b).
      assert (occurrences ("<::NAME::>" +:+ " <::B::>") "<::NAME::>" = [0]) as E
        by (vm_compute; reflexivity).
      rewrite E in Hocc. apply list_elem_of_singleton in Hocc. rewrite Hocc.
      vm_compute. lia.
    + exists " ", "B", "". reflexivity.
Defined.

(** ** The number of workers *)

(** With one order of the mapping's entries, the outcome of a run does not
    depend on the number of workers: two runs over the same tree and file
    system that differ in the worker count only end with the same file
    system and with the same errors up to their order. *)
Theorem worker_count_invariance (cfg cfg' : config) (tree : list dirEntry)
    (fs fs1 fs2 : fsys) (ret1 ret2 : option error) :
  (0 < Workers cfg)%Z → (0 < Workers cfg')%Z →
  OpenDelim cfg' = OpenDelim cfg → CloseDelim cfg' = CloseDelim cfg →
  TargetDir cfg' = TargetDir cfg → FileFilter cfg' = FileFilter cfg →
  KeyMap cfg' = KeyMap cfg →
  NoDup (sent (FileFilter cfg) tree) →
  processFiles cfg tree fs fs1 ret1 →
  processFiles cfg' tree fs fs2 ret2 →
  fs1 = fs2
  ∧ ∃ es1 es2,
      es1 ≡ₚ es2
      ∧ ret1 = match es1 with [] => None | _ :: _ => Some (ErrJoin es1) end
      ∧ ret2 = match es2 with [] => None | _ :: _ => Some (ErrJoin es2) end.
Proof.
  intros Hw Hw' Ho Hc Hd Hf Hk Hnd Hrun1 Hrun2.
  destruct (processFiles_outcome cfg tree fs Hw Hnd) as [_ Hall1].
  assert (NoDup (sent (FileFilter cfg') tree)) as Hnd' by (by rewrite Hf).
  destruct (processFiles_outcome cfg' tree fs Hw' Hnd') as [_ Hall2].
  cbv zeta in Hall1, Hall2.
  destruct (Hall1 _ _ Hrun1) as (Hdisk1 & es1 & Hes1 & ->).
  destruct (Hall2 _ _ Hrun2) as (Hdisk2 & es2 & Hes2 & ->).
  unfold run_errors in *. rewrite Ho, Hc, Hd, Hf, Hk in *. split.
  - apply map_eq. intros p. by rewrite Hdisk1, Hdisk2.
  - exists es1, es2. split; [|done]. by rewrite Hes1, Hes2.
Qed.

Lemma worker_count_invariance_witness :
  ∃ fs1 fs2 ret1 ret2,
    processFiles (ex_cfg 1 [("NAME", "svc")]) ex_tree
      (ex_fs "x: <::X::>" "name: <::NAME::>") fs1 ret1
    ∧ processFiles (ex_cfg 8 [("NAME", "svc")]) ex_tree
        (ex_fs "x: <::X::>" "name: <::NAME::>") fs2 ret2
    ∧ fs1 = fs2
    ∧ ∃ es1 es2,
        es1 ≡ₚ es2
        ∧ ret1 = match es1 with [] => None | _ :: _ => Some (ErrJoin es1) end
        ∧ ret2 = match es2 with [] => None | _ :: _ => Some (ErrJoin es2) end.
Proof.
  destruct (processFiles_returns (ex_cfg 1 [("NAME", "svc")]) ex_tree
              (ex_fs "x: <::X::>" "name: <::NAME::>"))
    as (fs1 & ret1 & Hrun1); [by vm_compute|].
  destruct (processFiles_returns (ex_cfg 8 [("NAME", "svc")]) ex_tree
              (ex_fs "x: <::X::>" "name: <::NAME::>"))
    as (fs2 & ret2 & Hrun2); [by vm_compute|].
  exists fs1, fs2, ret1, ret2. split; [done|]. split; [done|].
  apply (worker_count_invariance (ex_cfg 1 [("NAME", "svc")]) (ex_cfg 8 [("NAME", "svc")])
           ex_tree (ex_fs "x: <::X::>" "name: <::NAME::>") fs1 fs2 ret1 ret2);
    try reflexivity; try done.
  exact ex_tree_NoDup.
Defined.

(** C9 (the code departs from the claim).  The replacer is built from the
    entries of the mapping in the order of a [range] loop over a Go map, and
    it resolves two tokens that start at the same position by that order.
    For the map [{A: 1, A::>B: 2}] and a file [f.yaml] that holds
    [<::A::>B::>], every run that ranges over [A] first leaves [1B::>] in
    the file and every run that ranges over [A::>B] first leaves [2]: a run
    with one worker and a run with eight workers over the same files and
    mapping can end with different contents. *)
Theorem map_order_changes_the_outcome :
  let tree := [DirEntry "f.yaml" false None] in
  let fs : fsys := {["f.yaml" := File "<::A::>B::>" 420%N]} in
  ex_order_a ≡ₚ ex_order_b
  ∧ (∃ fs' ret, processFiles (ex_cfg 1 ex_order_a) tree fs fs' ret)
  ∧ (∃ fs' ret, processFiles (ex_cfg 8 ex_order_b) tree fs fs' ret)
  ∧ (∀ fs' ret, processFiles (ex_cfg 1 ex_order_a) tree fs fs' ret →
       fs' !! "f.yaml" = Some (File "1B::>" 420%N) ∧ ret = None)
  ∧ (∀ fs' ret, processFiles (ex_cfg 8 ex_order_b) tree fs fs' ret →
       fs' !! "f.yaml" = Some (File "2" 420%N) ∧ ret = None).
Proof.
  intros tree fs.
  assert (sent ex_filter tree = ["f.yaml"]) as Hsent by (by vm_compute).
  assert (NoDup (sent ex_filter tree)) as Hnd by (rewrite Hsent; apply NoDup_singleton).
  destruct (processFiles_outcome (ex_cfg 1 ex_order_a) tree fs eq_refl Hnd)
    as [Hex1 Hall1].
  destruct (processFiles_outcome (ex_cfg 8 ex_order_b) tree fs eq_refl Hnd)
    as [Hex8 Hall8].
  cbv zeta in Hall1, Hall8. split_and!.
  - apply perm_swap.
  - apply Hex1. by vm_compute.
  - apply Hex8. by vm_compute.
  - intros fs' ret Hrun. destruct (Hall1 _ _ Hrun) as (Hdisk & es & Hes & ->).
    split.
    + rewrite Hdisk. by vm_compute.
    + assert (run_errors (ex_cfg 1 ex_order_a)
                (buildNewReplacer "<::" "::>" ex_order_a) tree fs = []) as E
        by (by vm_compute).
      change (OpenDelim (ex_cfg 1 ex_order_a)) with "<::" in Hes.
      change (CloseDelim (ex_cfg 1 ex_order_a)) with "::>" in Hes.
      change (KeyMap (ex_cfg 1 ex_order_a)) with ex_order_a in Hes.
      rewrite E in Hes. by apply Permutation_nil_r in Hes as ->.
  - intros fs' ret Hrun. destruct (Hall8 _ _ Hrun) as (Hdisk & es & Hes & ->).
    split.
    + rewrite Hdisk. by vm_compute.
    + assert (run_errors (ex_cfg 8 ex_order_b)
                (buildNewReplacer "<::" "::>" ex_order_b) tree fs = []) as E
        by (by vm_compute).
      change (OpenDelim (ex_cfg 8 ex_order_b)) with "<::" in Hes.
      change (CloseDelim (ex_cfg 8 ex_order_b)) with "::>" in Hes.
      change (KeyMap (ex_cfg 8 ex_order_b)) with ex_order_b in Hes.
      rewrite E in Hes. by apply Permutation_nil_r in Hes as ->.
Qed.

(** * Further properties of the code *)

(** ** The token replacer *)

(** A text that passes the check is a fixed point of every replacer built
    for the same delimiters. *)
Lemma replace_fixed_point (o c : string) (values : StringMap) (out : string) :
  ¬ open_then_close o c out →
  buildNewReplacer o c values out = (Some out, false, None).
Proof.
  intros Hno.
  destruct (Replace_id (pairs o c values) out) as [Hid _].
  { by apply no_token_after_check. }
  apply buildNewReplacer_ok. unfold NewReplacer. rewrite Hid.
  by rewrite String.eqb_refl.
Qed.

(** After a successful replace no placeholder is left: the output has no
    open delimiter followed by a close delimiter, so no text at all is
    enclosed in delimiters in it, whether a key of the mapping or not. *)
Theorem replace_success_leaves_no_token (o c : string) (values : StringMap)
    (txt out : string) (changed : bool) :
  buildNewReplacer o c values txt = (Some out, changed, None) →
  ¬ open_then_close o c out ∧ ∀ k, ¬ contains out (o +:+ k +:+ c).
Proof.
  intros (_ & _ & Hno)%buildNewReplacer_ok. split; [done|].
  intros k Hc. apply Hno. by eapply token_open_then_close.
Qed.

Lemma replace_success_leaves_no_token_witness :
  ¬ open_then_close "<::" "::>" "name: svc"
  ∧ ∀ k, ¬ contains "name: svc" ("<::" +:+ k +:+ "::>").
Proof.
  apply (replace_success_leaves_no_token "<::" "::>" [("NAME", "svc")]
           "name: <::NAME::>" "name: svc" true).
  by vm_compute.
Defined.

(** *** The order of the mapping's entries *)

Lemma HasPrefix_comparable (s a b : string) :
  HasPrefix s a = true → HasPrefix s b = true →
  HasPrefix b a = true ∨ HasPrefix a b = true.
Proof.
  revert a b. induction s as [|x s IH]; intros a b Ha Hb.
  - apply HasPrefix_length in Ha. destruct a; [|simpl in Ha; lia].
    left. apply HasPrefix_spec. by exists b.
  - destruct a as [|y a]; [left; apply HasPrefix_spec; by exists b|].
    destruct b as [|z b]; [right; apply HasPrefix_spec; by eexists|].
    apply HasPrefix_spec in Ha as [ra Hra]. apply HasPrefix_spec in Hb as [rb Hrb].
    rewrite str_app_cons in Hra, Hrb. injection Hra as <- Hra. injection Hrb as <- Hrb.
    destruct (IH a b) as [H|H].
    + apply HasPrefix_spec. by exists ra.
    + apply HasPrefix_spec. by exists rb.
    + left. apply HasPrefix_spec in H as [r ->]. apply HasPrefix_spec. exists r.
      by rewrite str_app_cons.
    + right. apply HasPrefix_spec in H as [r ->]. apply HasPrefix_spec. exists r.
      by rewrite str_app_cons.
Qed.

Lemma HasPrefix_antisym (a b : string) :
  HasPrefix b a = true → HasPrefix a b = true → a = b.
Proof.
  intros [r ->]%HasPrefix_spec [r' Hr']%HasPrefix_spec.
  rewrite str_app_assoc in Hr'.
  assert (String.length (r +:+ r') = 0) as Hlen.
  { apply (f_equal String.length) in Hr'. rewrite !str_length_app in *. lia. }
  rewrite str_length_app in Hlen.
  assert (r = "") as -> by (apply str_length_zero; lia).
  by rewrite str_app_nil_r.
Qed.

Lemma NoDup_keys_value (values : StringMap) (k v v' : string) :
  NoDup values.*1 → (k, v) ∈ values → (k, v') ∈ values → v = v'.
Proof.
  induction values as [|[k0 v0] values IH]; intros Hnd Hv Hv'.
  { by apply elem_of_nil in Hv. }
  simpl in Hnd. apply NoDup_cons in Hnd as [Hnin Hnd].
  apply elem_of_cons in Hv as [Hv|Hv]; apply elem_of_cons in Hv' as [Hv'|Hv'].
  - congruence.
  - simplify_eq. destruct Hnin. apply list_elem_of_fmap. by exists (k0, v').
  - simplify_eq. destruct Hnin. apply list_elem_of_fmap. by exists (k0, v).
  - by apply IH.
Qed.

Lemma token_inj (o c k k' : string) : o +:+ k +:+ c = o +:+ k' +:+ c → k = k'.
Proof.
  intros H%(inj (String.app o)). revert k' H.
  induction k as [|x k IH]; intros [|y k'] H.
  - done.
  - apply (f_equal String.length) in H. rewrite str_app_cons, str_app_nil_l in H.
    simpl in H. rewrite str_length_app in H. lia.
  - apply (f_equal String.length) in H. rewrite str_app_cons, str_app_nil_l in H.
    simpl in H. rewrite str_length_app in H. lia.
  - rewrite !str_app_cons in H. injection H as -> H. f_equal. by apply IH.
Qed.

Lemma prefix_free_unambiguous (o c : string) (values : StringMap) :
  NoDup values.*1 → prefix_free o c values → unambiguous (pairs o c values).
Proof.
  intros Hnd Hpf [old new] [old' new'] s prev
    (k & Hk & ->)%pairs_elem (k' & Hk' & ->)%pairs_elem Hc Hc'.
  unfold candidate in Hc, Hc'. simpl in *.
  apply andb_true_iff in Hc as [Hp _]. apply andb_true_iff in Hc' as [Hp' _].
  assert (k = k') as <-.
  { destruct (HasPrefix_comparable _ _ _ Hp Hp') as [H|H].
    - apply (Hpf k k'); eauto using has_key_elem.
    - symmetry. apply (Hpf k' k); eauto using has_key_elem. }
  f_equal. by eapply NoDup_keys_value.
Qed.

Lemma lookup_old_perm (r r' : Replacer) (s : string) (prev : bool) :
  unambiguous r → r ≡ₚ r' → lookup_old r s prev = lookup_old r' s prev.
Proof.
  intros Hun Hperm. unfold lookup_old.
  destruct (find (candidate s prev) r) as [p|] eqn:Hf;
    destruct (find (candidate s prev) r') as [q|] eqn:Hf'; try done.
  - apply find_some in Hf as [Hin Hc]. apply find_some in Hf' as [Hin' Hc'].
    apply list_elem_of_In in Hin, Hin'. rewrite <- Hperm in Hin'.
    f_equal. by eapply Hun.
  - apply find_some in Hf as [Hin Hc]. apply list_elem_of_In in Hin.
    rewrite Hperm in Hin. apply list_elem_of_In in Hin.
    by rewrite (find_none _ _ Hf' _ Hin) in Hc.
  - apply find_some in Hf' as [Hin Hc]. apply list_elem_of_In in Hin.
    rewrite <- Hperm in Hin. apply list_elem_of_In in Hin.
    by rewrite (find_none _ _ Hf _ Hin) in Hc.
Qed.

Lemma run_loop_perm (r r' : Replacer) (prev : bool) (s : string) :
  unambiguous r → r ≡ₚ r' → run_loop r prev s = run_loop r' prev s.
Proof.
  intros Hun Hperm. revert prev s.
  apply (run_loop_ind r (λ prev s, run_loop r prev s = run_loop r' prev s)).
  intros prev s IHm IHc.
  rewrite (run_loop_eq r), (run_loop_eq r'), <- (lookup_old_perm r r' s prev Hun Hperm).
  destruct (lookup_old r s prev) as [[old new]|] eqn:Hl.
  - f_equal. by eapply IHm.
  - destruct s as [|ch rest]; [done|]. f_equal. by eapply IHc.
Qed.

Lemma Replace_perm (o c : string) (values values' : StringMap) (txt : string) :
  NoDup values.*1 → prefix_free o c values → values ≡ₚ values' →
  Replace (NewReplacer (pairs o c values)) txt
  = Replace (NewReplacer (pairs o c values')) txt.
Proof.
  intros Hnd Hpf Hperm.
  unfold Replace, NewReplacer. rewrite !replace_chunks_run_loop. f_equal.
  apply run_loop_perm; [by apply prefix_free_unambiguous|].
  unfold pairs. by rewrite Hperm.
Qed.

(** When no token of the mapping is a prefix of another, the replacer does
    not depend on the order in which the [range] loop of [buildNewReplacer]
    yields the entries of the map: any two orders give the same result on
    every content. *)
Theorem replace_order_irrelevant (o c : string) (values values' : StringMap)
    (txt : string) :
  NoDup values.*1 → prefix_free o c values → values ≡ₚ values' →
  buildNewReplacer o c values txt = buildNewReplacer o c values' txt.
Proof.
  intros Hnd Hpf Hperm. rewrite !buildNewReplacer_unfold. cbv zeta.
  by rewrite (Replace_perm o c values values' txt Hnd Hpf Hperm).
Qed.

Lemma ex_values_prefix_free :
  prefix_free "<::" "::>" [("NAME", "svc"); ("PORT", "8080")].
Proof.
  intros k k' Hk Hk'. unfold has_key in *. simpl in *.
  apply elem_of_cons in Hk as [->|Hk%list_elem_of_singleton];
    apply elem_of_cons in Hk' as [->|Hk'%list_elem_of_singleton];
    subst; try done; by vm_compute.
Defined.

Lemma ex_values_NoDup : NoDup [("NAME", "svc"); ("PORT", "8080")].*1.
Proof.
  simpl. apply NoDup_cons. split; [|apply NoDup_singleton].
  by intros ?%list_elem_of_singleton.
Defined.

Lemma replace_order_irrelevant_witness :
  buildNewReplacer "<::" "::>" [("NAME", "svc"); ("PORT", "8080")] "<::PORT::>/<::NAME::>"
  = buildNewReplacer "<::" "::>" [("PORT", "8080"); ("NAME", "svc")] "<::PORT::>/<::NAME::>".
Proof.
  apply (replace_order_irrelevant "<::" "::>" [("NAME", "svc"); ("PORT", "8080")]
           [("PORT", "8080"); ("NAME", "svc")]).
  - exact ex_values_NoDup.
  - exact ex_values_prefix_free.
  - apply perm_swap.
Defined.

(** ** Whole runs *)

(** [processFile] uses its replacer on the content of the file only. *)
Lemma processFile_ext (path : string) (rep rep' : replacer) (fs : fsys) :
  (∀ txt, rep txt = rep' txt) → processFile path rep fs = processFile path rep' fs.
Proof.
  intros Hext. unfold processFile. destruct (ReadFile fs path) as [txt|err]; [|done].
  by rewrite Hext.
Qed.

Lemma omap_ext_in {A B : Type} (f g : A → option B) (l : list A) :
  (∀ x, x ∈ l → f x = g x) → omap f l = omap g l.
Proof.
  induction l as [|x l IH]; intros H; [done|]. csimpl.
  rewrite (H x) by apply list_elem_of_here.
  rewrite IH; [done|]. intros y Hy. apply H. by apply list_elem_of_further.
Qed.

Lemma run_errors_ext (cfg cfg' : config) (rep rep' : replacer)
    (tree : list dirEntry) (fs : fsys) :
  (∀ txt, rep txt = rep' txt) →
  TargetDir cfg' = TargetDir cfg → FileFilter cfg' = FileFilter cfg →
  run_errors cfg rep tree fs = run_errors cfg' rep' tree fs.
Proof.
  intros Hext Hd Hf. unfold run_errors. rewrite Hd, Hf. f_equal.
  apply omap_ext_in. intros p _.
  unfold file_error. by rewrite (processFile_ext p rep rep' fs Hext).
Qed.

(** The true extent of the invariance in the number of workers: when no
    token of the mapping is a prefix of another, two runs over the same
    tree and file system end with the same file system and the same errors
    up to their order, whatever their worker counts, the orders in which
    they range over the map and the interleavings of their goroutines. *)
Theorem run_outcome_is_determined (cfg cfg' : config) (tree : list dirEntry)
    (fs fs1 fs2 : fsys) (ret1 ret2 : option error) :
  (0 < Workers cfg)%Z → (0 < Workers cfg')%Z →
  OpenDelim cfg' = OpenDelim cfg → CloseDelim cfg' = CloseDelim cfg →
  TargetDir cfg' = TargetDir cfg → FileFilter cfg' = FileFilter cfg →
  KeyMap cfg ≡ₚ KeyMap cfg' →
  NoDup (KeyMap cfg).*1 →
  prefix_free (OpenDelim cfg) (CloseDelim cfg) (KeyMap cfg) →
  NoDup (sent (FileFilter cfg) tree) →
  processFiles cfg tree fs fs1 ret1 →
  processFiles cfg' tree fs fs2 ret2 →
  fs1 = fs2
  ∧ ∃ es1 es2,
      es1 ≡ₚ es2 ∧ ret1 = joined_errors es1 ∧ ret2 = joined_errors es2.
Proof.
  intros Hw Hw' Ho Hc Hd Hf Hk Hndk Hpf Hnd Hrun1 Hrun2.
  destruct (processFiles_outcome cfg tree fs Hw Hnd) as [_ Hall1].
  assert (NoDup (sent (FileFilter cfg') tree)) as Hnd' by (by rewrite Hf).
  destruct (processFiles_outcome cfg' tree fs Hw' Hnd') as [_ Hall2].
  cbv zeta in Hall1, Hall2.
  destruct (Hall1 _ _ Hrun1) as (Hdisk1 & es1 & Hes1 & ->).
  destruct (Hall2 _ _ Hrun2) as (Hdisk2 & es2 & Hes2 & ->).
  rewrite Ho, Hc in Hdisk2, Hes2.
  assert (∀ txt, buildNewReplacer (OpenDelim cfg) (CloseDelim cfg) (KeyMap cfg) txt
                 = buildNewReplacer (OpenDelim cfg) (CloseDelim cfg) (KeyMap cfg') txt)
    as Hext.
  { intros txt. rewrite !buildNewReplacer_unfold. cbv zeta.
    by rewrite (Replace_perm _ _ _ _ txt Hndk Hpf Hk). }
  split.
  - apply map_eq. intros p. rewrite Hdisk1, Hdisk2, Hf. unfold file_after.
    by rewrite (processFile_ext p _ _ fs Hext).
  - exists es1, es2. split; [|done].
    by rewrite Hes1, Hes2, (run_errors_ext cfg cfg' _ _ tree fs Hext Hd Hf).
Qed.

Lemma run_outcome_is_determined_witness :
  ∃ fs1 fs2 ret1 ret2,
    processFiles (ex_cfg 1 [("NAME", "svc"); ("PORT", "8080")]) ex_tree
      (ex_fs "x: <::X::>" "<::NAME::>:<::PORT::>") fs1 ret1
    ∧ processFiles (ex_cfg 8 [("PORT", "8080"); ("NAME", "svc")]) ex_tree
        (ex_fs "x: <::X::>" "<::NAME::>:<::PORT::>") fs2 ret2
    ∧ fs1 = fs2
    ∧ ∃ es1 es2,
        es1 ≡ₚ es2 ∧ ret1 = joined_errors es1 ∧ ret2 = joined_errors es2.
Proof.
  destruct (processFiles_returns (ex_cfg 1 [("NAME", "svc"); ("PORT", "8080")]) ex_tree
              (ex_fs "x: <::X::>" "<::NAME::>:<::PORT::>"))
    as (fs1 & ret1 & Hrun1); [by vm_compute|].
  destruct (processFiles_returns (ex_cfg 8 [("PORT", "8080"); ("NAME", "svc")]) ex_tree
              (ex_fs "x: <::X::>" "<::NAME::>:<::PORT::>"))
    as (fs2 & ret2 & Hrun2); [by vm_compute|].
  exists fs1, fs2, ret1, ret2. split; [done|]. split; [done|].
  apply (run_outcome_is_determined
           (ex_cfg 1 [("NAME", "svc"); ("PORT", "8080")])
           (ex_cfg 8 [("PORT", "8080"); ("NAME", "svc")])
           ex_tree (ex_fs "x: <::X::>" "<::NAME::>:<::PORT::>") fs1 fs2 ret1 ret2);
    try reflexivity; try done.
  - apply perm_swap.
  - exact ex_values_NoDup.
  - exact ex_values_prefix_free.
  - exact ex_tree_NoDup.
Defined.

(** Processing a file a second time with the same replacer changes nothing
    and returns the same error. *)
Lemma processFile_again (o c : string) (values : StringMap) (path : string)
    (fs fs1 : fsys) (ret : option error) :
  processFile path (buildNewReplacer o c values) fs = Some (fs1, ret) →
  processFile path (buildNewReplacer o c values) fs1 = Some (fs1, ret).
Proof.
  unfold processFile, ReadFile, Stat, WriteFile.
  destruct (fs !! path) as [f|] eqn:Hf.
  - destruct (buildNewReplacer o c values (data f)) as [[out changed] [err|]] eqn:Hrep.
    + intros [= <- <-]. by rewrite Hf, Hrep.
    + destruct changed.
      * destruct (writable f) eqn:Hwr.
        -- intros [= <- <-]. rewrite lookup_insert_eq. simpl.
           rewrite buildNewReplacer_unfold in Hrep. cbv zeta in Hrep.
           destruct (unresolved o c _) as [m|] eqn:Hu; [done|].
           injection Hrep as <- _. simpl.
           apply unresolved_None in Hu.
           by rewrite (replace_fixed_point o c values _ Hu).
        -- intros [= <- <-]. rewrite Hf. simpl. by rewrite Hrep, Hwr.
      * intros [= <- <-]. by rewrite Hf, Hrep.
  - intros [= <- <-]. by rewrite Hf.
Qed.

(** A second run is a no-op: started on the file system a first run ended
    with, a run with the same delimiters, filter and order of the mapping
    (and any number of workers) leaves every file as it is and returns the
    same errors up to their order. *)
Theorem second_run_changes_nothing (cfg cfg' : config) (tree : list dirEntry)
    (fs fs1 fs2 : fsys) (ret1 ret2 : option error) :
  (0 < Workers cfg)%Z → (0 < Workers cfg')%Z →
  OpenDelim cfg' = OpenDelim cfg → CloseDelim cfg' = CloseDelim cfg →
  TargetDir cfg' = TargetDir cfg → FileFilter cfg' = FileFilter cfg →
  KeyMap cfg' = KeyMap cfg →
  NoDup (sent (FileFilter cfg) tree) →
  processFiles cfg tree fs fs1 ret1 →
  processFiles cfg' tree fs1 fs2 ret2 →
  fs2 = fs1
  ∧ ∃ es1 es2,
      es1 ≡ₚ es2 ∧ ret1 = joined_errors es1 ∧ ret2 = joined_errors es2.
Proof.
  intros Hw Hw' Ho Hc Hd Hf Hk Hnd Hrun1 Hrun2.
  destruct (processFiles_outcome cfg tree fs Hw Hnd) as [_ Hall1].
  assert (NoDup (sent (FileFilter cfg') tree)) as Hnd' by (by rewrite Hf).
  destruct (processFiles_outcome cfg' tree fs1 Hw' Hnd') as [_ Hall2].
  cbv zeta in Hall1, Hall2.
  destruct (Hall1 _ _ Hrun1) as (Hdisk1 & es1 & Hes1 & ->).
  destruct (Hall2 _ _ Hrun2) as (Hdisk2 & es2 & Hes2 & ->).
  rewrite Ho, Hc, Hk, Hf in Hdisk2. unfold run_errors in Hes2.
  rewrite Ho, Hc, Hk, Hf, Hd in Hes2.
  set (rep := buildNewReplacer (OpenDelim cfg) (CloseDelim cfg) (KeyMap cfg)) in *.
  assert (∀ p, p ∈ sent (FileFilter cfg) tree →
            file_after rep fs1 p = fs1 !! p
            ∧ file_error rep fs1 p = file_error rep fs p) as Hagain.
  { intros p Hp.
    destruct (processFile_total p rep fs) as (fsp & r & Hproc).
    pose proof (processFile_again _ _ _ _ _ _ _ Hproc) as Hproc'.
    destruct (processFile_after p rep fs fsp r Hproc) as [Hafter Herr].
    assert (fs1 !! p = fsp !! p) as Hsame
      by (by rewrite Hdisk1, decide_True, Hafter).
    destruct (processFile_local p rep fs1 fsp Hsame) as [-> ->].
    destruct (processFile_after p rep fsp fsp r Hproc') as [<- ->].
    by rewrite Herr. }
  split.
  - apply map_eq. intros p. rewrite Hdisk2.
    destruct (decide (p ∈ sent (FileFilter cfg) tree)) as [Hp|Hp]; [|done].
    by apply Hagain.
  - exists es1, es2. split; [|done]. rewrite Hes1, Hes2. unfold run_errors.
    f_equiv. apply reflexive_eq, omap_ext_in.
    intros p Hp. symmetry. by apply Hagain.
Qed.

Lemma second_run_changes_nothing_witness :
  ∃ fs1 fs2 ret1 ret2,
    processFiles (ex_cfg 2 [("NAME", "svc")]) ex_tree
      (ex_fs "x: <::X::>" "name: <::NAME::>") fs1 ret1
    ∧ processFiles (ex_cfg 3 [("NAME", "svc")]) ex_tree fs1 fs2 ret2
    ∧ fs2 = fs1
    ∧ ∃ es1 es2,
        es1 ≡ₚ es2 ∧ ret1 = joined_errors es1 ∧ ret2 = joined_errors es2.
Proof.
  destruct (processFiles_returns (ex_cfg 2 [("NAME", "svc")]) ex_tree
              (ex_fs "x: <::X::>" "name: <::NAME::>"))
    as (fs1 & ret1 & Hrun1); [by vm_compute|].
  destruct (processFiles_returns (ex_cfg 3 [("NAME", "svc")]) ex_tree
              fs1)
    as (fs2 & ret2 & Hrun2); [by vm_compute|].
  exists fs1, fs2, ret1, ret2. split; [done|]. split; [done|].
  apply (second_run_changes_nothing (ex_cfg 2 [("NAME", "svc")])
           (ex_cfg 3 [("NAME", "svc")]) ex_tree
           (ex_fs "x: <::X::>" "name: <::NAME::>") fs1 fs2 ret1 ret2);
    try reflexivity; try done.
  exact ex_tree_NoDup.
Defined.

(** A file without a placeholder is left alone: if no open delimiter of its
    content is followed by a close delimiter, every run leaves its bytes and
    mode as they were and records no error for its path, whatever the
    mapping. *)
Theorem placeholder_free_file_untouched (cfg : config) (tree : list dirEntry)
    (fs : fsys) (path : string) (f : file) :
  (0 < Workers cfg)%Z →
  NoDup (sent (FileFilter cfg) tree) →
  path ∈ sent (FileFilter cfg) tree →
  fs !! path = Some f →
  ¬ open_then_close (OpenDelim cfg) (CloseDelim cfg) (data f) →
  ∀ fs' ret, processFiles cfg tree fs fs' ret →
    fs' !! path = Some f
    ∧ ∃ es, ret = joined_errors es ∧ ∀ e, ErrFailedToProcess path e ∉ es.
Proof.
  intros Hw Hnd Hin Hf Hno fs' ret Hrun.
  destruct (processFiles_outcome cfg tree fs Hw Hnd) as [_ Hall].
  cbv zeta in Hall. destruct (Hall _ _ Hrun) as (Hdisk & es & Hes & ->).
  set (rep := buildNewReplacer (OpenDelim cfg) (CloseDelim cfg) (KeyMap cfg)) in *.
  assert (processFile path rep fs = Some (fs, None)) as Hproc.
  { unfold processFile, ReadFile. rewrite Hf. unfold rep.
    by rewrite (replace_fixed_point _ _ _ _ Hno). }
  split.
  - rewrite Hdisk, decide_True by done. unfold file_after. by rewrite Hproc.
  - exists es. split; [done|]. intros e He. rewrite Hes in He. unfold run_errors in He.
    apply elem_of_app in He as [He|He].
    + apply list_elem_of_omap in He as (q & Hq & Herr). unfold file_error in Herr.
      destruct (processFile q rep fs) as [[fsq [err|]]|] eqn:Hpq; try done.
      injection Herr as -> ->. by rewrite Hproc in Hpq.
    + destruct (walk_error tree); simpl in He;
        [by apply list_elem_of_singleton in He|by apply elem_of_nil in He].
Qed.

Lemma placeholder_free_file_untouched_witness :
  ∃ fs' ret,
    processFiles (ex_cfg 2 [("NAME", "svc")]) ex_tree
      (ex_fs "plain: text <::" "name: <::NAME::>") fs' ret
    ∧ fs' !! "a.yaml" = Some (File "plain: text <::" 420%N)
    ∧ ∃ es, ret = joined_errors es ∧ ∀ e, ErrFailedToProcess "a.yaml" e ∉ es.
Proof.
  destruct (processFiles_returns (ex_cfg 2 [("NAME", "svc")]) ex_tree
              (ex_fs "plain: text <::" "name: <::NAME::>"))
    as (fs' & ret & Hrun); [by vm_compute|].
  exists fs', ret. split; [done|].
  apply (placeholder_free_file_untouched (ex_cfg 2 [("NAME", "svc")]) ex_tree
           (ex_fs "plain: text <::" "name: <::NAME::>") "a.yaml"
           (File "plain: text <::" 420%N)); try done.
  - exact ex_tree_NoDup.
  - change (FileFilter (ex_cfg 2 [("NAME", "svc")])) with ex_filter.
    rewrite ex_tree_sent. apply list_elem_of_here.
  - apply unresolved_None. by vm_compute.
Defined.

(** ** The file filter, further *)

Lemma existsb_false_app (rxs rxs' : list Regexp) (path : string) :
  existsb (λ rx, MatchString rx path) (rxs ++ rxs') = false →
  existsb (λ rx, MatchString rx path) rxs = false.
Proof. rewrite existsb_app. by intros [-> _]%orb_false_iff. Qed.

(** More exclude patterns can only reject more paths; more include
    patterns, added to a list that is not empty, can only accept more; and
    a filter without patterns accepts every path. *)
Theorem match_monotone (inc inc' exc exc' : list Regexp) (path : string) :
  (fileFilter_match (mkFileFilter inc (exc ++ exc')) path = true →
   fileFilter_match (mkFileFilter inc exc) path = true)
  ∧ (inc ≠ [] →
     fileFilter_match (mkFileFilter inc exc) path = true →
     fileFilter_match (mkFileFilter (inc ++ inc') exc) path = true)
  ∧ fileFilter_match (mkFileFilter [] []) path = true.
Proof.
  unfold fileFilter_match. simpl. split_and!; [| |done].
  - destruct (existsb _ (exc ++ exc')) eqn:Hex; [done|].
    by rewrite (existsb_false_app _ _ _ Hex).
  - intros Hne. destruct (existsb _ exc); [done|].
    destruct inc as [|rx inc]; [done|].
    change (length (rx :: inc) =? 0) with false.
    change (length ((rx :: inc) ++ inc') =? 0) with false. cbv iota.
    rewrite existsb_app. intros ->. done.
Qed.

Lemma match_monotone_witness :
  fileFilter_match (mkFileFilter [rx_yaml] []) "x.yaml" = true
  ∧ fileFilter_match (mkFileFilter ([rx_yaml] ++ [rx_ya_ml]) []) "x.yaml" = true.
Proof.
  destruct (match_monotone [rx_yaml] [rx_ya_ml] [] [rx_git] "x.yaml") as (H1 & H2 & _).
  split.
  - apply H1. by vm_compute.
  - apply H2; [done|by vm_compute].
Defined.

(** *** The default patterns *)

Lemma dead_nullable (bol eol : bool) (r : Regexp) :
  dead r = true → nullable bol eol r = false.
Proof.
  induction r; simpl; try done.
  - intros H. by rewrite IHr1.
  - intros [H1 H2]%andb_true_iff. by rewrite IHr1, IHr2.
Qed.

Lemma dead_deriv (bol : bool) (c : ascii) (r : Regexp) :
  dead r = true → dead (deriv bol c r) = true.
Proof.
  induction r; simpl; try done.
  - intros H. rewrite (dead_nullable bol false r1 H), IHr1; done.
  - intros [H1 H2]%andb_true_iff. by rewrite IHr1, IHr2.
Qed.

Lemma dead_match_here (bol : bool) (r : Regexp) (s : string) :
  dead r = true → match_here bol r s = false.
Proof.
  revert bol r. induction s as [|c s IH]; intros bol r H; simpl.
  - by apply dead_nullable.
  - rewrite (dead_nullable bol false r H). simpl. apply IH. by apply dead_deriv.
Qed.

(** A pattern anchored at the beginning matches at the beginning only. *)
Lemma search_anchored (r : Regexp) (s : string) :
  search false (RSeq RBol r) s = false.
Proof.
  induction s as [|c s IH]; simpl; [done|].
  rewrite IH, orb_false_r. by apply dead_match_here.
Qed.

Lemma MatchString_anchored (r : Regexp) (s : string) :
  MatchString (RSeq RBol r) s = match_here true (RSeq RBol r) s.
Proof.
  unfold MatchString. destruct s as [|c s]; simpl; [by rewrite orb_false_r|].
  by rewrite search_anchored, orb_false_r.
Qed.

(** A pattern that ends in a literal and [$] matches every text that ends
    in the literal, when it starts with [.*]. *)
Lemma search_suffix (r : Regexp) (suffix : string) :
  (∀ bol, match_here bol r suffix = true) →
  ∀ bol x, search bol r (x +:+ suffix) = true.
Proof.
  intros Hm bol x. revert bol. induction x as [|c x IH]; intros bol.
  - rewrite str_app_nil_l. specialize (Hm bol).
    destruct suffix; simpl in *; by rewrite Hm.
  - rewrite str_app_cons. simpl. rewrite IH. apply orb_true_r.
Qed.

Ltac next_byte s c x :=
  destruct s as [|c s]; [done|]; simpl;
  destruct (Ascii.eqb_spec c x) as [->|_]; [|by rewrite dead_match_here].

Lemma rx_git_here (s : string) :
  match_here true rx_git s = true ↔ s = ".git" ∨ ∃ r, s = ".git/" +:+ r.
Proof.
  split.
  - next_byte s c1 "."%char. next_byte s c2 "g"%char.
    next_byte s c3 "i"%char. next_byte s c4 "t"%char.
    destruct s as [|c5 s]; [by left|]. simpl.
    destruct (Ascii.eqb_spec c5 "/") as [->|_]; [|by rewrite dead_match_here].
    intros _. right. by exists s.
  - intros [->|[r ->]]; [by vm_compute|].
    destruct r; by vm_compute.
Qed.

(** With the default patterns of the flags, the paths that are ignored are
    exactly [.git] and the paths that start with [.git/]; every other path
    that ends in [.yaml] or [.yml] is accepted.  So a [.git] directory that
    is not at the very start of the path (as under [-dir manifests], or in
    a subdirectory) is not ignored. *)
Theorem default_filter_ignores_root_git_only :
  (∀ p, MatchString rx_git p = true ↔ p = ".git" ∨ ∃ r, p = ".git/" +:+ r)
  ∧ (∀ p, p = ".git" ∨ (∃ r, p = ".git/" +:+ r) →
       fileFilter_match default_filter p = false)
  ∧ (∀ x ext, ext = ".yaml" ∨ ext = ".yml" →
       ¬ (x +:+ ext = ".git" ∨ ∃ r, x +:+ ext = ".git/" +:+ r) →
       fileFilter_match default_filter (x +:+ ext) = true).
Proof.
  assert (∀ p, MatchString rx_git p = true ↔ p = ".git" ∨ ∃ r, p = ".git/" +:+ r)
    as Hgit.
  { intros p. unfold rx_git. rewrite MatchString_anchored. apply rx_git_here. }
  split_and!; [done| |].
  - intros p Hp. apply Hgit in Hp. unfold fileFilter_match, default_filter. simpl.
    by rewrite Hp.
  - intros x ext Hext Hno. unfold fileFilter_match, default_filter. simpl.
    destruct (MatchString rx_git (x +:+ ext)) eqn:Hm.
    { by apply Hgit in Hm. }
    simpl. rewrite orb_false_r. unfold MatchString.
    destruct Hext as [-> | ->]; apply search_suffix; intros []; by vm_compute.
Qed.

Lemma default_filter_ignores_root_git_only_witness :
  fileFilter_match default_filter ".git/hooks/x.yaml" = false
  ∧ fileFilter_match default_filter ("manifests/.git/x" +:+ ".yaml") = true.
Proof.
  destruct default_filter_ignores_root_git_only as (Hgit & H1 & H2). split.
  - apply H1. right. by exists "hooks/x.yaml".
  - apply H2; [by left|]. intros Hp%Hgit. by vm_compute in Hp.
Defined.

(** ** Building the filter *)

Lemma compileAll_app (C : string → Regexp + string) (ps qs : list string) :
  compileAll C (ps ++ qs) =
  match compileAll C ps with
  | inl out =>
      match compileAll C qs with
      | inl out' => inl (out ++ out')
      | inr err => inr err
      end
  | inr err => inr err
  end.
Proof.
  induction ps as [|p ps IH]; simpl.
  - by destruct (compileAll C qs).
  - destruct (C p) as [rx|msg]; [|done]. rewrite IH.
    destruct (compileAll C ps) as [out|err]; [|done].
    by destruct (compileAll C qs).
Qed.

Lemma compileAll_ok (C : string → Regexp + string) (ps : list string)
    (out : list Regexp) :
  compileAll C ps = inl out ↔ Forall2 (λ p rx, C p = inl rx) ps out.
Proof.
  revert out. induction ps as [|p ps IH]; intros out; simpl.
  - split; [intros [= <-]; constructor | by intros ->%Forall2_nil_inv_l].
  - split.
    + destruct (C p) as [rx|msg] eqn:Hp; [|done].
      destruct (compileAll C ps) as [out'|err] eqn:Hps; [|done].
      intros [= <-]. constructor; [done|]. by apply IH.
    + intros (rx & out' & Hp & Hps & ->)%Forall2_cons_inv_l.
      rewrite Hp. apply IH in Hps. by rewrite Hps.
Qed.

Lemma compileAll_first_error (C : string → Regexp + string)
    (good : list string) (bad : string) (rest : list string) (msg : string) :
  (∀ p, p ∈ good → ∃ rx, C p = inl rx) → C bad = inr msg →
  compileAll C (good ++ bad :: rest) = inr (ErrRegexp msg).
Proof.
  intros Hgood Hbad. induction good as [|p good IH]; simpl.
  - by rewrite Hbad.
  - destruct (Hgood p) as [rx ->]; [apply list_elem_of_here|].
    rewrite IH; [done|]. intros q Hq. apply Hgood. by apply list_elem_of_further.
Qed.

(** [newFileFilter] succeeds exactly when every pattern compiles, and the
    filter then holds the compiled patterns in the order given.  When it
    fails, the error is that of the first include pattern that does not
    compile, marked as an include error, whatever the ignore patterns are;
    an ignore pattern is reported only when every include pattern
    compiles. *)
Theorem newFileFilter_reports_first_bad_pattern (C : string → Regexp + string)
    (incPat excPat : list string) :
  (∀ ff, newFileFilter C incPat excPat = inl ff ↔
         Forall2 (λ p rx, C p = inl rx) incPat (includes ff)
         ∧ Forall2 (λ p rx, C p = inl rx) excPat (excludes ff))
  ∧ (∀ good bad rest msg,
       incPat = good ++ bad :: rest →
       (∀ p, p ∈ good → ∃ rx, C p = inl rx) → C bad = inr msg →
       newFileFilter C incPat excPat = inr (ErrInclude (ErrRegexp msg)))
  ∧ (∀ good bad rest msg,
       (∀ p, p ∈ incPat → ∃ rx, C p = inl rx) →
       excPat = good ++ bad :: rest →
       (∀ p, p ∈ good → ∃ rx, C p = inl rx) → C bad = inr msg →
       newFileFilter C incPat excPat = inr (ErrIgnore (ErrRegexp msg))).
Proof.
  unfold newFileFilter. split_and!.
  - intros [inc0 exc0]. simpl. rewrite <- !compileAll_ok.
    destruct (compileAll C incPat) as [i|e]; [|by split; [|intros [? _]]].
    destruct (compileAll C excPat) as [x|e]; [|by split; [|intros [_ ?]]].
    split; [by intros [= <- <-]|by intros [[= <-] [= <-]]].
  - intros good bad rest msg -> Hgood Hbad.
    by rewrite (compileAll_first_error C good bad rest msg Hgood Hbad).
  - intros good bad rest msg Hinc -> Hgood Hbad.
    rewrite (compileAll_first_error C good bad rest msg Hgood Hbad).
    destruct (compileAll C incPat) as [i|e] eqn:Hi; [done|].
    exfalso. clear -Hinc Hi. induction incPat as [|p ps IH]; simpl in Hi; [done|].
    destruct (Hinc p) as [rx Hp]; [apply list_elem_of_here|]. rewrite Hp in Hi.
    destruct (compileAll C ps) as [out|err] eqn:Hps; [done|].
    apply IH; [|done]. intros q Hq. apply Hinc. by apply list_elem_of_further.
Qed.

Lemma newFileFilter_reports_first_bad_pattern_witness :
  newFileFilter ex_Compile [".*\.yaml$"; "(a"; "[b"] ["(c"]
  = inr (ErrInclude (ErrRegexp "error parsing regexp: (a"))
  ∧ newFileFilter ex_Compile [".*\.yaml$"] ["^\.git(/|$)"; "(c"]
    = inr (ErrIgnore (ErrRegexp "error parsing regexp: (c")).
Proof.
  destruct (newFileFilter_reports_first_bad_pattern ex_Compile
              [".*\.yaml$"; "(a"; "[b"] ["(c"]) as (_ & H1 & _).
  destruct (newFileFilter_reports_first_bad_pattern ex_Compile
              [".*\.yaml$"] ["^\.git(/|$)"; "(c"]) as (_ & _ & H2).
  split.
  - apply (H1 [".*\.yaml$"] "(a" ["[b"]); [done| |done].
    intros p ->%list_elem_of_singleton. by eexists.
  - apply (H2 ["^\.git(/|$)"] "(c" []); [|done| |done].
    + intros p ->%list_elem_of_singleton. by eexists.
    + intros p ->%list_elem_of_singleton. by eexists.
Defined.

Lemma match_more_includes (inc inc' exc : list Regexp) (path : string) :
  inc ≠ [] →
  fileFilter_match (mkFileFilter inc exc) path = true →
  fileFilter_match (mkFileFilter (inc ++ inc') exc) path = true.
Proof.
  unfold fileFilter_match. simpl. intros Hne. destruct (existsb _ exc); [done|].
  destruct inc as [|rx inc]; [done|].
  change (length (rx :: inc) =? 0) with false.
  change (length ((rx :: inc) ++ inc') =? 0) with false. cbv iota.
  rewrite existsb_app. intros ->. done.
Qed.

Lemma sliceFlag_Sets_app (s : sliceFlag) (vs : list string) :
  sliceFlag_Sets s vs = s ++ vs.
Proof.
  revert s. induction vs as [|v vs IH]; intros s; simpl.
  - by rewrite app_nil_r.
  - unfold sliceFlag_Sets in *. simpl. rewrite IH. by rewrite <- app_assoc.
Qed.

(** The [-include] and [-ignore] flags add to the defaults, they do not
    replace them: [Set] appends to the slice that already holds the default
    pattern.  So whatever include patterns the user passes, every path that
    the default include accepts is still accepted (with the same ignore
    patterns). *)
Theorem include_flags_only_widen (C : string → Regexp + string)
    (user ignPat : list string) (ff0 ff : fileFilter) (path : string) :
  newFileFilter C inc_default ignPat = inl ff0 →
  newFileFilter C (sliceFlag_Sets inc_default user) ignPat = inl ff →
  fileFilter_match ff0 path = true →
  fileFilter_match ff path = true.
Proof.
  rewrite sliceFlag_Sets_app. unfold newFileFilter. rewrite compileAll_app.
  destruct (compileAll C inc_default) as [i0|e] eqn:Hi0; [|done].
  destruct (compileAll C ignPat) as [x|e]; [|by destruct (compileAll C user)].
  intros [= <-]. destruct (compileAll C user) as [iu|e]; [|done].
  intros [= <-]. apply match_more_includes.
  apply compileAll_ok in Hi0. unfold inc_default in Hi0.
  apply Forall2_cons_inv_l in Hi0 as (rx & out & _ & _ & ->). done.
Qed.

Lemma include_flags_only_widen_witness :
  fileFilter_match (mkFileFilter [rx_ya_ml; rx_yaml] [rx_git]) "conf/values.yml" = true.
Proof.
  apply (include_flags_only_widen ex_Compile [".*\.yaml$"] ["^\.git(/|$)"]
           (mkFileFilter [rx_ya_ml] [rx_git])); by vm_compute.
Defined.

(** ** The [-set] flag *)

Lemma Split_nonempty (s : string) (c : ascii) : Split s c ≠ [].
Proof.
  destruct s as [|a r]; simpl; [done|].
  destruct (Ascii.eqb a c); [done|]. by destruct (Split r c).
Qed.

Lemma Split_length (s : string) (c : ascii) :
  length (Split s c) = S (count_byte c s).
Proof.
  induction s as [|a r IH]; simpl; [done|].
  destruct (Ascii.eqb a c); simpl; [by rewrite IH|].
  destruct (Split r c) eqn:E; [by destruct (Split_nonempty r c)|]. by rewrite <- IH.
Qed.

Lemma count_byte_app (c : ascii) (s t : string) :
  count_byte c (s +:+ t) = count_byte c s + count_byte c t.
Proof.
  induction s as [|a r IH]; [done|]. rewrite str_app_cons. simpl. rewrite IH. lia.
Qed.

Lemma Split_no_sep (s : string) (c : ascii) :
  count_byte c s = 0 → Split s c = [s].
Proof.
  induction s as [|a r IH]; simpl; [done|].
  destruct (Ascii.eqb a c); [done|]. simpl. intros H. by rewrite IH.
Qed.

(** Splitting distributes over a separator. *)
Lemma Split_app (a b : string) (c : ascii) :
  Split (a +:+ String c b) c = Split a c ++ Split b c.
Proof.
  induction a as [|x a IH].
  - rewrite str_app_nil_l. simpl. by rewrite Ascii.eqb_refl.
  - rewrite str_app_cons. simpl. rewrite IH.
    destruct (Ascii.eqb x c); [done|].
    destruct (Split a c) eqn:E; [by destruct (Split_nonempty a c)|done].
Qed.

(** Two pieces are the two sides of the one separator. *)
Lemma Split_two (s k v : string) (c : ascii) :
  Split s c = [k; v] → s = k +:+ String c v.
Proof.
  revert k. induction s as [|a r IH]; intros k; simpl; [done|].
  destruct (Ascii.eqb_spec a c) as [->|Hne].
  - intros [= <- Hr]. rewrite str_app_nil_l. f_equal.
    assert (count_byte c r = 0) as H0.
    { pose proof (Split_length r c) as Hl. rewrite Hr in Hl. simpl in Hl. lia. }
    rewrite (Split_no_sep r c H0) in Hr. by injection Hr.
  - destruct (Split r c) as [|piece pieces] eqn:E; [done|].
    intros [= <- ->]. rewrite str_app_cons. f_equal. by apply IH.
Qed.

Lemma Set_pairs_app (m : kvmap) (l1 l2 : list string) :
  Set_pairs m (l1 ++ l2) =
  match Set_pairs m l1 with
  | (m', None) => Set_pairs m' l2
  | (m', Some err) => (m', Some err)
  end.
Proof.
  revert m. induction l1 as [|kv l1 IH]; intros m; simpl; [done|].
  destruct (Split kv "=") as [|k [|v [|? ?]]]; done.
Qed.

(** Setting a key and reading it back: when neither the key nor the value
    holds a comma or an equals sign, [Set("KEY=value")] succeeds and the map
    then has the value at the key; every other key is as before. *)
Theorem Set_then_lookup (m : kvmap) (k v : string) :
  count_byte "," k = 0 → count_byte "=" k = 0 →
  count_byte "," v = 0 → count_byte "=" v = 0 →
  StringMap_Set m (k +:+ "=" +:+ v) = (<[k := v]> m, None)
  ∧ (StringMap_Set m (k +:+ "=" +:+ v)).1 !! k = Some v
  ∧ ∀ k', k' ≠ k → (StringMap_Set m (k +:+ "=" +:+ v)).1 !! k' = m !! k'.
Proof.
  intros Hck Hek Hcv Hev.
  assert (StringMap_Set m (k +:+ "=" +:+ v) = (<[k := v]> m, None)) as ->.
  { unfold StringMap_Set. rewrite Split_no_sep.
    - simpl. change (k +:+ "=" +:+ v) with (k +:+ String "=" v).
      by rewrite Split_app, (Split_no_sep k), (Split_no_sep v).
    - rewrite !count_byte_app. simpl. lia. }
  simpl. split_and!; [done|apply lookup_insert_eq|].
  intros k' Hne. by rewrite lookup_insert_ne.
Qed.

Lemma Set_then_lookup_witness :
  StringMap_Set ∅ ("PUBLIC_DOMAIN" +:+ "=" +:+ "example.com")
  = (<["PUBLIC_DOMAIN" := "example.com"]> ∅, None)
  ∧ (StringMap_Set ∅ ("PUBLIC_DOMAIN" +:+ "=" +:+ "example.com")).1 !! "PUBLIC_DOMAIN"
    = Some "example.com"
  ∧ ∀ k', k' ≠ "PUBLIC_DOMAIN" →
      (StringMap_Set ∅ ("PUBLIC_DOMAIN" +:+ "=" +:+ "example.com")).1 !! k'
      = (∅ : kvmap) !! k'.
Proof.
  apply (Set_then_lookup ∅ "PUBLIC_DOMAIN" "example.com"); reflexivity.
Defined.

(** One [-set] value with several pairs is the same as one [-set] per pair,
    in order: [Set(a + "," + b)] is [Set(a)] followed, when it succeeds, by
    [Set(b)].  When it fails the pairs before the offending one stay in the
    map: the update is not rolled back. *)
Theorem Set_comma_is_sequence (m : kvmap) (a b : string) :
  StringMap_Set m (a +:+ "," +:+ b) =
  match StringMap_Set m a with
  | (m', None) => StringMap_Set m' b
  | (m', Some err) => (m', Some err)
  end.
Proof.
  unfold StringMap_Set. change (a +:+ "," +:+ b) with (a +:+ String "," b).
  rewrite Split_app. apply Set_pairs_app.
Qed.

(** A pair needs exactly one equals sign.  For a value without a comma:
    with one [=] it is stored, cut at the [=]; with none, or with more than
    one (a value such as [TOKEN=abc==]), [Set] fails with an error that
    names the pair and leaves the map as it was. *)
Theorem Set_needs_one_equals (m : kvmap) (kv : string) :
  count_byte "," kv = 0 →
  (count_byte "=" kv = 1 →
     ∃ k v, kv = k +:+ "=" +:+ v ∧ StringMap_Set m kv = (<[k := v]> m, None))
  ∧ (count_byte "=" kv ≠ 1 →
     StringMap_Set m kv = (m, Some (ErrInvalidPair kv))).
Proof.
  intros Hc. unfold StringMap_Set. rewrite (Split_no_sep kv "," Hc). simpl.
  pose proof (Split_length kv "=") as Hlen.
  destruct (Split kv "=") as [|k [|v [|? ?]]] eqn:E; simpl in Hlen.
  - lia.
  - split; [lia|done].
  - split; [|lia]. intros _. exists k, v. split; [|done]. by apply Split_two.
  - split; [lia|done].
Qed.

Lemma Set_needs_one_equals_witness :
  (count_byte "=" "TOKEN=abc==" = 1 →
     ∃ k v, "TOKEN=abc==" = k +:+ "=" +:+ v
            ∧ StringMap_Set ∅ "TOKEN=abc==" = (<[k := v]> ∅, None))
  ∧ (count_byte "=" "TOKEN=abc==" ≠ 1 →
     StringMap_Set ∅ "TOKEN=abc==" = (∅, Some (ErrInvalidPair "TOKEN=abc=="))).
Proof. apply (Set_needs_one_equals ∅ "TOKEN=abc=="). reflexivity. Defined.

(** ** The values of the run: environment and [-set] *)

Lemma StringMap_Set_single (m : kvmap) (kv : string) :
  count_byte "," kv = 0 →
  StringMap_Set m kv =
  match Split kv "=" with
  | [k; v] => (<[k := v]> m, None)
  | _ => (m, Some (ErrInvalidPair kv))
  end.
Proof.
  intros Hc. unfold StringMap_Set. rewrite (Split_no_sep kv "," Hc). simpl.
  by destruct (Split kv "=") as [|k [|v [|? ?]]].
Qed.

Lemma HasPrefix_byte (a c : ascii) (s : string) :
  HasPrefix (String a s) (String c "") = Ascii.eqb a c.
Proof.
  unfold HasPrefix. simpl. destruct (ascii_dec c a) as [->|Hne].
  - rewrite Ascii.eqb_refl. by destruct s.
  - symmetry. apply Ascii.eqb_neq. congruence.
Qed.

Lemma IndexByte_first (k v : string) (c : ascii) :
  count_byte c k = 0 → IndexByte (k +:+ String c v) c = Some (String.length k).
Proof.
  unfold IndexByte. induction k as [|a k IH]; simpl.
  - intros _. by rewrite HasPrefix_byte, Ascii.eqb_refl.
  - rewrite HasPrefix_byte.
    destruct (Ascii.eqb a c); [done|]. simpl. intros H. by rewrite IH.
Qed.

Lemma IndexByte_none (s : string) (c : ascii) :
  count_byte c s = 0 → IndexByte s c = None.
Proof.
  unfold IndexByte. induction s as [|a s IH]; simpl; [done|].
  rewrite HasPrefix_byte. destruct (Ascii.eqb a c); [done|]. simpl.
  intros H. by rewrite IH.
Qed.

Lemma env_entry_first (k v : string) :
  count_byte "=" k = 0 → env_entry (k +:+ "=" +:+ v) = Some (k, v).
Proof.
  intros Hk. unfold env_entry. change (k +:+ "=" +:+ v) with (k +:+ String "=" v).
  rewrite (IndexByte_first k v "=" Hk). f_equal. f_equal.
  - change (k +:+ String "=" v) with ("" +:+ k +:+ String "=" v).
    apply (slice_app "" k).
  - replace (String.length k + 1) with (String.length (k +:+ "=")).
    + change (k +:+ String "=" v) with (k +:+ "=" +:+ v).
      rewrite <- str_app_assoc. apply slice_from_app.
    + rewrite str_length_app. simpl. lia.
Qed.

(** The environment and the [-set] flag read [KEY=VALUE] differently.  An
    entry of the environment is cut at its first equals sign, so the value
    keeps any further one; an entry without an equals sign is skipped.  The
    same text given to [-set] is refused when the value holds an equals
    sign, and the map is left as it was. *)
Theorem environment_keeps_equals_set_refuses (m : kvmap) (k v : string) :
  count_byte "=" k = 0 → count_byte "," k = 0 → count_byte "," v = 0 →
  env_entry (k +:+ "=" +:+ v) = Some (k, v)
  ∧ env_entry k = None
  ∧ (0 < count_byte "=" v →
     StringMap_Set m (k +:+ "=" +:+ v) = (m, Some (ErrInvalidPair (k +:+ "=" +:+ v)))).
Proof.
  intros Hek Hck Hcv. split_and!.
  - by apply env_entry_first.
  - unfold env_entry. by rewrite IndexByte_none.
  - intros Hev. rewrite StringMap_Set_single.
    + pose proof (Split_length (k +:+ "=" +:+ v) "=") as Hlen.
      rewrite !count_byte_app in Hlen. simpl in Hlen.
      destruct (Split _ "=") as [|? [|? [|? ?]]]; simpl in Hlen; try done. lia.
    + rewrite !count_byte_app. simpl. lia.
Qed.

Lemma environment_keeps_equals_set_refuses_witness :
  env_entry ("OPTS" +:+ "=" +:+ "a=b") = Some ("OPTS", "a=b")
  ∧ env_entry "OPTS" = None
  ∧ (0 < count_byte "=" "a=b" →
     StringMap_Set ∅ ("OPTS" +:+ "=" +:+ "a=b")
     = (∅, Some (ErrInvalidPair ("OPTS" +:+ "=" +:+ "a=b")))).
Proof.
  apply (environment_keeps_equals_set_refuses ∅ "OPTS" "a=b"); reflexivity.
Defined.

Lemma env_entries_cons (kv : string) (rest : list string) :
  env_entries (kv :: rest) =
  match env_entry kv with
  | Some e => e :: env_entries rest
  | None => env_entries rest
  end.
Proof. unfold env_entries. csimpl. by destruct (env_entry kv). Qed.

Lemma add_environ_lookup (m : kvmap) (environ : list string) (k v : string) :
  NoDup (env_entries environ).*1 →
  add_environ m environ !! k = Some v ↔
  (k, v) ∈ env_entries environ
  ∨ ((k ∉ (env_entries environ).*1) ∧ m !! k = Some v).
Proof.
  unfold add_environ. revert m.
  induction environ as [|kv rest IH]; intros m Hnd.
  - simpl. split; [intros H; right; split; [apply not_elem_of_nil|done]|].
    intros [H|[_ H]]; [by apply elem_of_nil in H|done].
  - simpl. rewrite env_entries_cons in *.
    destruct (env_entry kv) as [[k0 v0]|]; [|by apply IH].
    rewrite fmap_cons in Hnd. simpl in Hnd.
    apply NoDup_cons in Hnd as [Hfresh Hnd]. rewrite (IH _ Hnd).
    rewrite fmap_cons, elem_of_cons, not_elem_of_cons. simpl.
    destruct (decide (k = k0)) as [->|Hne].
    + rewrite lookup_insert_eq. split.
      * intros [Hin|[_ [= ->]]]; [|by left; left].
        destruct Hfresh. apply list_elem_of_fmap. by exists (k0, v).
      * intros [[[= ->]|Hin]|[[? _] _]]; [| |done].
        -- right. done.
        -- destruct Hfresh. apply list_elem_of_fmap. by exists (k0, v).
    + rewrite lookup_insert_ne by done. split.
      * intros [Hin|[Hnin Hm]]; [by left; right|by right].
      * intros [[[= ? _]|Hin]|[[_ Hnin] Hm]]; [done|by left|by right].
Qed.

Lemma add_flags_union (values userKV : kvmap) :
  add_flags values userKV = userKV ∪ values.
Proof.
  unfold add_flags.
  apply (map_fold_weak_ind (λ r m, r = m ∪ values)).
  - by rewrite (left_id_L ∅ (∪)).
  - intros i x m r _ ->. by rewrite insert_union_l.
Qed.

(** The value of a key in the three modes, for an environment that lists
    each name once, as [os.Environ()] does.  In mode [env] a key has the
    value of the environment's entry with this name; in mode [flag] that of
    the [-set] flags; in mode [both] the [-set] flags win over the
    environment, and the environment gives the keys that no flag sets.  Any
    other mode is an error. *)
Theorem values_by_mode (pf : platform) (fl : flags) :
  NoDup (env_entries (Environ pf)).*1 →
  match mode_values pf fl with
  | inl values =>
      ∀ k v, values !! k = Some v ↔
        if (mode fl =? "env")%string then (k, v) ∈ env_entries (Environ pf)
        else if (mode fl =? "flag")%string then userKV fl !! k = Some v
        else userKV fl !! k = Some v
             ∨ (userKV fl !! k = None ∧ (k, v) ∈ env_entries (Environ pf))
  | inr err =>
      err = ErrInvalidMode (mode fl)
      ∧ mode fl ≠ "env" ∧ mode fl ≠ "flag" ∧ mode fl ≠ "both"
  end.
Proof.
  intros Hnd. unfold mode_values.
  destruct (mode fl =? "env")%string eqn:He.
  { intros k v. rewrite (add_environ_lookup _ _ _ _ Hnd), lookup_empty.
    split; [by intros [?|[_ ?]]|by left]. }
  destruct (mode fl =? "flag")%string eqn:Hf.
  { intros k v. by rewrite add_flags_union, (right_id_L ∅ (∪)). }
  destruct (mode fl =? "both")%string eqn:Hb.
  { intros k v. rewrite add_flags_union, lookup_union_Some_raw.
    rewrite (add_environ_lookup _ _ _ _ Hnd), lookup_empty.
    split.
    - intros [?|[? [?|[_ ?]]]]; [by left|by right|done].
    - intros [?|[? ?]]; [by left|right; split; [done|by left]]. }
  apply String.eqb_neq in He, Hf, Hb. done.
Qed.

Lemma values_by_mode_witness :
  match mode_values ex_platform (ex_flags 4 "both") with
  | inl values =>
      ∀ k v, values !! k = Some v ↔
        if (mode (ex_flags 4 "both") =? "env")%string
        then (k, v) ∈ env_entries (Environ ex_platform)
        else if (mode (ex_flags 4 "both") =? "flag")%string
        then userKV (ex_flags 4 "both") !! k = Some v
        else userKV (ex_flags 4 "both") !! k = Some v
             ∨ (userKV (ex_flags 4 "both") !! k = None
                ∧ (k, v) ∈ env_entries (Environ ex_platform))
  | inr err =>
      err = ErrInvalidMode (mode (ex_flags 4 "both"))
      ∧ mode (ex_flags 4 "both") ≠ "env" ∧ mode (ex_flags 4 "both") ≠ "flag"
      ∧ mode (ex_flags 4 "both") ≠ "both"
  end.
Proof.
  apply (values_by_mode ex_platform (ex_flags 4 "both")).
  apply (bool_decide_unpack _). by vm_compute.
Defined.

(** ** [parseConfig] and [main] *)

Lemma compileAll_inl (C : string → Regexp + string) (pats : list string)
    (out : list Regexp) :
  compileAll C pats = inl out → ∀ p, p ∈ pats → ∃ rx, C p = inl rx.
Proof.
  intros H%compileAll_ok p Hp.
  apply list_elem_of_lookup in Hp as [i Hi].
  destruct (Forall2_lookup_l _ _ _ _ _ H Hi) as (rx & _ & Hrx). eauto.
Qed.

Lemma compileAll_inr (C : string → Regexp + string) (pats : list string)
    (e : configError) :
  compileAll C pats = inr e → ∃ p msg, p ∈ pats ∧ C p = inr msg.
Proof.
  revert e. induction pats as [|p ps IH]; intros e; simpl; [done|].
  destruct (C p) as [rx|msg] eqn:Hp.
  - destruct (compileAll C ps) as [out|e']; [done|]. intros _.
    destruct (IH e' eq_refl) as (q & msg & Hq & Hmsg).
    exists q, msg. split; [by apply list_elem_of_further|done].
  - intros _. exists p, msg. split; [apply list_elem_of_here|done].
Qed.

(** What the flags satisfy when [parseConfig] returns a configuration. *)
Lemma parseConfig_inl (pf : platform) (fl : flags) (pc : parsedConfig) :
  parseConfig pf fl = inl pc →
  ¬ invalid_flags pf fl
  ∧ ∃ values ff,
      mode_values pf fl = inl values
      ∧ newFileFilter (Compile pf) (inc fl) (ign fl) = inl ff
      ∧ pc = ParsedConfig (openDelim fl) (closeDelim fl) (targetDir fl)
               (workers_flag fl) (mode fl) (logFile fl) ff values.
Proof.
  unfold parseConfig.
  destruct (mode_values pf fl) as [values|e] eqn:Hm; [|done].
  destruct (_ || _) eqn:Hd; [done|].
  destruct (workers_flag fl <=? 0)%Z eqn:Hw; [done|].
  destruct (targetDir fl =? "")%string eqn:Ht; [done|].
  destruct (os_Stat pf (targetDir fl)) eqn:Hs; try done.
  destruct (newFileFilter _ _ _) as [ff|e] eqn:Hff; [|done].
  destruct (if (logFile fl =? "")%string then None else _) as [msg|] eqn:Hl; [done|].
  intros [= <-]. split; [|by exists values, ff].
  apply orb_false_iff in Hd as [Ho Hc]. apply Nat.eqb_neq in Ho, Hc.
  apply Z.leb_gt in Hw. apply String.eqb_neq in Ht.
  intros [(He & Hf & Hb)|[Ho'|[Hc'|[Hw'|[Ht'|[Hs'|[(p & msg & Hp & Hmsg)|[Hl1 Hl2]]]]]]]].
  - unfold mode_values in Hm.
    destruct (mode fl =? "env")%string eqn:E1; [by apply String.eqb_eq in E1|].
    destruct (mode fl =? "flag")%string eqn:E2; [by apply String.eqb_eq in E2|].
    destruct (mode fl =? "both")%string eqn:E3; [by apply String.eqb_eq in E3|done].
  - by rewrite Ho' in Ho.
  - by rewrite Hc' in Hc.
  - lia.
  - done.
  - done.
  - unfold newFileFilter in Hff.
    destruct (compileAll (Compile pf) (inc fl)) as [i|e] eqn:Hi; [|done].
    destruct (compileAll (Compile pf) (ign fl)) as [x|e] eqn:Hx; [|done].
    apply elem_of_app in Hp as [Hp|Hp].
    + destruct (compileAll_inl _ _ _ Hi p Hp) as [rx Hrx]. congruence.
    + destruct (compileAll_inl _ _ _ Hx p Hp) as [rx Hrx]. congruence.
  - apply String.eqb_neq in Hl1. rewrite Hl1 in Hl. rewrite Hl in Hl2.
    by destruct Hl2.
Qed.

Lemma mode_values_inr (pf : platform) (fl : flags) (e : configError) :
  mode_values pf fl = inr e →
  mode fl ≠ "env" ∧ mode fl ≠ "flag" ∧ mode fl ≠ "both".
Proof.
  unfold mode_values.
  destruct (mode fl =? "env")%string eqn:He; [done|].
  destruct (mode fl =? "flag")%string eqn:Hf; [done|].
  destruct (mode fl =? "both")%string eqn:Hb; [done|].
  apply String.eqb_neq in He, Hf, Hb. done.
Qed.

(** Every error return of [parseConfig] has its cause in the flags. *)
Lemma parseConfig_inr (pf : platform) (fl : flags) (e : configError) :
  parseConfig pf fl = inr e → invalid_flags pf fl.
Proof.
  unfold parseConfig, invalid_flags.
  destruct (mode_values pf fl) as [values|e'] eqn:Hm.
  2:{ intros _. left. by apply (mode_values_inr pf fl e'). }
  destruct (_ || _) eqn:Hd.
  { intros _. apply orb_true_iff in Hd as [H|H]; apply Nat.eqb_eq, str_length_zero in H;
      [right; by left|right; right; by left]. }
  destruct (workers_flag fl <=? 0)%Z eqn:Hw.
  { intros _. apply Z.leb_le in Hw. do 3 right. by left. }
  destruct (targetDir fl =? "")%string eqn:Ht.
  { intros _. apply String.eqb_eq in Ht. do 4 right. by left. }
  destruct (os_Stat pf (targetDir fl)) eqn:Hs;
    try (intros _; do 5 right; left; congruence).
  destruct (newFileFilter _ _ _) as [ff|e'] eqn:Hff.
  2:{ intros _. do 6 right. left. unfold newFileFilter in Hff.
      destruct (compileAll (Compile pf) (inc fl)) as [i|e1] eqn:Hi.
      - destruct (compileAll (Compile pf) (ign fl)) as [x|e2] eqn:Hx; [done|].
        destruct (compileAll_inr _ _ _ Hx) as (p & msg & Hp & Hmsg).
        exists p, msg. split; [apply elem_of_app; by right|done].
      - destruct (compileAll_inr _ _ _ Hi) as (p & msg & Hp & Hmsg).
        exists p, msg. split; [apply elem_of_app; by left|done]. }
  destruct (logFile fl =? "")%string eqn:Hl; [done|].
  destruct (os_OpenFile pf (logFile fl)) as [msg|] eqn:Ho; [|done].
  intros _. do 7 right. apply String.eqb_neq in Hl. split; [done|]. by exists msg.
Qed.

Lemma sent_sublist (f : fileFilter) (tree : list dirEntry) :
  sent f tree `sublist_of` walked_files tree.
Proof.
  induction tree as [|e es IH]; simpl; [constructor|].
  destruct (entry_err e); [apply sublist_nil_l|].
  destruct (entry_isDir e); [done|].
  destruct (fileFilter_match f (entry_path e)); by constructor.
Qed.

(** Flags that [parseConfig] refuses stop the program before it touches a
    file: [main] exits with status 1 and the file system is as it was.
    This covers a mode other than [env], [flag] and [both], an empty
    delimiter, a worker count of zero or less, a target that is not an
    existing directory, a pattern that does not compile, and a log file
    that cannot be opened. *)
Theorem invalid_flags_touch_nothing (pf : platform) (fl : flags)
    (tree : list dirEntry) (fs : fsys) (status : Z) (fs' : fsys) :
  invalid_flags pf fl →
  main pf fl tree fs status fs' →
  (∃ err, parseConfig pf fl = inr err) ∧ status = 1%Z ∧ fs' = fs.
Proof.
  intros Hbad. unfold main. destruct (parseConfig pf fl) as [pc|err] eqn:Hp.
  - by destruct (parseConfig_inl pf fl pc Hp) as [Hok _].
  - intros [-> ->]. eauto.
Qed.

Lemma invalid_flags_touch_nothing_witness :
  (∃ err, parseConfig ex_platform (ex_flags 0 "both") = inr err)
  ∧ 1%Z = 1%Z ∧ ex_fs "<::NAME::>" "" = ex_fs "<::NAME::>" "".
Proof.
  apply (invalid_flags_touch_nothing ex_platform (ex_flags 0 "both") ex_tree
           (ex_fs "<::NAME::>" "")).
  - do 3 right. left. simpl. lia.
  - by vm_compute.
Defined.

(** With flags that [parseConfig] accepts, no log file and up to
    [max_workers] workers, [main] ends, whatever the interleaving of the
    goroutines: an execution of the pool takes no more steps than the
    weight of its first state, and it can take a step as long as the
    workers have not all exited; the validated worker count is what lets
    the pool drain the channel and join.  The exit status is 0 exactly
    when no selected file failed (an unresolved key, a read or a write
    that failed) and the walk had no error, and 1 otherwise; each selected
    file holds what its own processing leaves, and every other file is as
    it was.  The key map of the run holds the values of the mode, in the
    order in which Go ranges over it.  The walk may meet a directory that
    it cannot read; it lists no file twice. *)
Theorem main_outcome (pf : platform) (fl : flags) (tree : list dirEntry) (fs : fsys) :
  ¬ invalid_flags pf fl →
  logFile fl = "" →
  (workers_flag fl ≤ max_workers)%Z →
  NoDup (walked_files tree) →
  (∃ status fs', main pf fl tree fs status fs')
  ∧ (∀ pc cfg, parseConfig pf fl = inl pc → config_of pc cfg →
       let rep := buildNewReplacer (OpenDelim cfg) (CloseDelim cfg) (KeyMap cfg) in
       ∀ n st, nsteps (step cfg rep) n (start cfg tree fs) st →
         n ≤ pool_weight (start cfg tree fs)
         ∧ (¬ joined st → ∃ st', step cfg rep st st'))
  ∧ ∀ status fs', main pf fl tree fs status fs' →
      ∃ pc cfg,
        parseConfig pf fl = inl pc ∧ config_of pc cfg
        ∧ (0 < Workers cfg)%Z ∧ OpenDelim cfg ≠ "" ∧ CloseDelim cfg ≠ ""
        ∧ let rep := buildNewReplacer (OpenDelim cfg) (CloseDelim cfg) (KeyMap cfg) in
          status = match run_errors cfg rep tree fs with
                   | [] => 0%Z
                   | _ :: _ => 1%Z
                   end
          ∧ ∀ p, fs' !! p = if decide (p ∈ sent (FileFilter cfg) tree)
                            then file_after rep fs p else fs !! p.
Proof.
  intros Hok _ Hmax Hnd. unfold main.
  destruct (parseConfig pf fl) as [pc|err] eqn:Hp;
    [|by destruct Hok; apply (parseConfig_inr pf fl err)].
  destruct (parseConfig_inl pf fl pc Hp) as (_ & values & ff & Hm & Hff & Hpc).
  assert (0 < pc_workers pc ≤ max_workers)%Z as Hw.
  { rewrite Hpc. simpl. split; [|done].
    destruct (Z_lt_le_dec 0 (workers_flag fl)); [done|].
    destruct Hok. do 3 right. by left. }
  assert (pc_open pc ≠ "" ∧ pc_close pc ≠ "") as [Ho Hc].
  { rewrite Hpc. simpl. split; intros H; destruct Hok; [right; by left|right; right; by left]. }
  assert (∀ cfg, NoDup (sent (FileFilter cfg) tree)) as Hsent.
  { intros cfg. eapply sublist_NoDup; [done|apply sent_sublist]. }
  assert (∀ cfg, config_of pc cfg →
            (0 < Workers cfg ≤ max_workers)%Z
            ∧ make_panics (chan_size cfg) = false ∧ 0 < capacity cfg) as Hcfg.
  { intros cfg (_ & _ & _ & Ew & _). rewrite <- Ew in Hw.
    split; [done|]. by apply capacity_pos. }
  split_and!.
  - set (cfg := Config (pc_open pc) (pc_close pc) (pc_dir pc) (pc_workers pc)
                  (pc_filter pc) (map_to_list (pc_values pc))).
    assert (config_of pc cfg) as Hc0 by (by repeat split).
    destruct (Hcfg cfg Hc0) as (Hw0 & Hmake & _).
    destruct (processFiles_returns cfg tree fs Hw0) as (fs' & ret & Hrun).
    exists (match ret with None => 0%Z | Some _ => 1%Z end), fs', cfg.
    split; [done|]. rewrite Hmake. by exists ret.
  - intros pc' cfg [= <-] Hc0 n st Hsteps.
    destruct (Hcfg cfg Hc0) as (_ & _ & Hcap). split.
    + apply steps_bounded in Hsteps. lia.
    + by apply step_progress.
  - intros status fs' (cfg & Hc0 & Hrun).
    destruct (Hcfg cfg Hc0) as ([Hw0 _] & Hmake & _). rewrite Hmake in Hrun.
    destruct Hrun as (ret & Hrun & ->).
    pose proof Hc0 as (Eo & Ec & Ed & Ew & Ef & Ek).
    destruct (processFiles_outcome cfg tree fs Hw0 (Hsent cfg)) as [_ Hall].
    cbv zeta in Hall. destruct (Hall _ _ Hrun) as (Hdisk & es & Hes & ->).
    exists pc, cfg. split; [done|]. split; [done|]. split; [done|].
    split; [by rewrite Eo|]. split; [by rewrite Ec|].
    cbv zeta. split; [|done].
    destruct (run_errors cfg _ tree fs) as [|e0 rest].
    + by apply Permutation_nil_r in Hes as ->.
    + destruct es; [|done]. by apply Permutation_nil_cons in Hes.
Qed.

(** With [-workers 4611686018427387904] (that is 2^62) the flags pass
    [parseConfig], [make] panics and the process ends with status 2, no
    file touched. *)
Example ex_main_panics (tree : list dirEntry) (fs : fsys) (status : Z) (fs' : fsys) :
  ¬ invalid_flags ex_platform (ex_flags (2 ^ 62) "both")
  ∧ (main ex_platform (ex_flags (2 ^ 62) "both") tree fs status fs' →
     status = 2%Z ∧ fs' = fs).
Proof.
  destruct (parseConfig ex_platform (ex_flags (2 ^ 62) "both")) as [pc|e] eqn:Hp;
    [|by vm_compute in Hp].
  destruct (parseConfig_inl _ _ _ Hp) as (Hok & values & ff & _ & _ & ->).
  split; [done|]. unfold main. rewrite Hp.
  intros (cfg & (_ & _ & _ & Ew & _) & Hrun).
  unfold chan_size in Hrun. rewrite Ew in Hrun. exact Hrun.
Qed.

Lemma ex_flags_valid : ¬ invalid_flags ex_platform (ex_flags 4 "both").
Proof.
  destruct (parseConfig ex_platform (ex_flags 4 "both")) as [pc|e] eqn:Hp.
  - by destruct (parseConfig_inl _ _ _ Hp).
  - by vm_compute in Hp.
Defined.

Lemma main_outcome_witness :
  let pf := ex_platform in
  let fl := ex_flags 4 "both" in
  let tree := ex_tree_unreadable in
  let fs := ex_fs "<::NAME::>" "" in
  (∃ status fs', main pf fl tree fs status fs')
  ∧ (∀ pc cfg, parseConfig pf fl = inl pc → config_of pc cfg →
       let rep := buildNewReplacer (OpenDelim cfg) (CloseDelim cfg) (KeyMap cfg) in
       ∀ n st, nsteps (step cfg rep) n (start cfg tree fs) st →
         n ≤ pool_weight (start cfg tree fs)
         ∧ (¬ joined st → ∃ st', step cfg rep st st'))
  ∧ ∀ status fs', main pf fl tree fs status fs' →
      ∃ pc cfg,
        parseConfig pf fl = inl pc ∧ config_of pc cfg
        ∧ (0 < Workers cfg)%Z ∧ OpenDelim cfg ≠ "" ∧ CloseDelim cfg ≠ ""
        ∧ let rep := buildNewReplacer (OpenDelim cfg) (CloseDelim cfg) (KeyMap cfg) in
          status = match run_errors cfg rep tree fs with
                   | [] => 0%Z
                   | _ :: _ => 1%Z
                   end
          ∧ ∀ p, fs' !! p = if decide (p ∈ sent (FileFilter cfg) tree)
                            then file_after rep fs p else fs !! p.
Proof.
  apply (main_outcome ex_platform (ex_flags 4 "both") ex_tree_unreadable
           (ex_fs "<::NAME::>" "")).
  - apply ex_flags_valid.
  - reflexivity.
  - by vm_compute.
  - apply (bool_decide_unpack _). by vm_compute.
Defined.

(** ** A pool without workers *)

Lemma step_no_workers (cfg : config) (rep : replacer) (st st' : pool) :
  step cfg rep st st' → workers st = [] →
  workers st' = [] ∧ disk st' = disk st.
Proof.
  destruct 1; simpl; intros ->; try done;
    match goal with H : [] !! _ = Some _ |- _ => by rewrite lookup_nil in H end.
Qed.

(** Why [parseConfig] insists on a positive worker count: [processFiles]
    with [cfg.Workers] equal to zero starts no worker, so [wg.Wait()]
    returns at once; no file is read or written, whatever the directory
    holds, and the call can return nil.  (With a negative count the call
    does not get this far: [make] panics on the negative buffer size.) *)
Theorem processFiles_without_workers (cfg : config) (tree : list dirEntry)
    (fs : fsys) :
  Workers cfg = 0%Z →
  processFiles cfg tree fs fs None
  ∧ ∀ fs' ret, processFiles cfg tree fs fs' ret → fs' = fs.
Proof.
  intros Hw.
  assert (workers (start cfg tree fs) = []) as Hstart.
  { unfold start. by rewrite Hw. }
  split.
  - split; [unfold chan_size; by rewrite Hw|].
    exists (start cfg tree fs). split_and!; [apply rtc_refl| |done|done].
    unfold joined. rewrite Hstart. constructor.
  - intros fs' ret (_ & st & Hsteps & _ & -> & _).
    assert (workers st = [] ∧ disk st = disk (start cfg tree fs)) as [_ ->]; [|done].
    unfold steps in Hsteps. revert Hstart.
    induction Hsteps as [st|st1 st2 st3 Hstep _ IH]; [done|].
    intros H1. destruct (step_no_workers _ _ _ _ Hstep H1) as [H2 Hd].
    destruct (IH H2) as [H3 ->]. done.
Qed.

Lemma processFiles_without_workers_witness :
  processFiles (ex_cfg 0 []) ex_tree (ex_fs "<::NAME::>" "") (ex_fs "<::NAME::>" "") None
  ∧ ∀ fs' ret,
      processFiles (ex_cfg 0 []) ex_tree (ex_fs "<::NAME::>" "") fs' ret →
      fs' = ex_fs "<::NAME::>" "".
Proof.
  apply (processFiles_without_workers (ex_cfg 0 []) ex_tree (ex_fs "<::NAME::>" "")).
  reflexivity.
Defined.

(** ** The loop replacer of the benchmark *)

Lemma slice_from_add (s : string) (i n : nat) :
  slice_from s (i + n) = slice_from (slice_from s i) n.
Proof.
  revert s. induction i as [|i IH]; intros s; simpl.
  - by rewrite slice_from_0.
  - destruct s as [|a s]; simpl; [by destruct n|]. apply IH.
Qed.

Lemma slice_split (s : string) (i : nat) :
  i ≤ String.length s →
  s = slice s 0 i +:+ slice_from s i ∧ String.length (slice s 0 i) = i.
Proof.
  unfold slice. revert i. induction s as [|a s IH]; intros [|i] Hi; simpl in *; try lia.
  - done.
  - done.
  - destruct (IH i ltac:(lia)) as [H1 H2]. rewrite str_app_cons, <- H1. simpl.
    by rewrite H2.
Qed.

Lemma slice_snoc (s : string) (i : nat) :
  i < String.length s → slice s 0 i +:+ slice s i 1 = slice s 0 (i + 1).
Proof.
  unfold slice. revert i. induction s as [|a s IH]; intros [|i] Hi; simpl in *; try lia.
  - by destruct s.
  - rewrite str_app_cons. f_equal. apply IH. lia.
Qed.

Lemma loop_from_spec (txt o c : string) (values : StringMap) :
  o ≠ "" ∨ c ≠ "" →
  ∀ fuel i out ch,
    i ≤ String.length txt → String.length txt - i < fuel →
    ∃ res, loop_from fuel txt o c values i out ch = Some res
      ∧ (∀ key, error_of res = Some (ErrNotSet key) →
           get values key = None ∧ contains txt (o +:+ key +:+ c))
      ∧ (ch = false → out = slice txt 0 i → res.1.2 = false → error_of res = None →
         res.1.1 = Some txt)
      ∧ (ch = true → error_of res = None → res.1.2 = true)
      ∧ (¬ contains txt o → res.1.2 = ch ∧ error_of res = None).
Proof.
  intros Hne. induction fuel as [|fuel IH]; intros i out ch Hi Hfuel; [lia|].
  simpl. destruct (i <? String.length txt) eqn:Hlt.
  2:{ apply Nat.ltb_ge in Hlt. assert (i = String.length txt) as -> by lia.
      eexists. split; [done|]. split_and!; [done| |done|done].
      intros _ -> _ _. simpl. f_equal.
      destruct (slice_split txt (String.length txt) (le_n _)) as [H1 H2].
      pose proof (slice_from_app txt "") as H3. rewrite str_app_nil_r in H3.
      rewrite H3, str_app_nil_r in H1. by rewrite <- H1. }
  apply Nat.ltb_lt in Hlt.
  destruct (slice_split txt i Hi) as [Hsplit Hlen].
  destruct (HasPrefix (slice_from txt i) o) eqn:Hp.
  - pose proof (HasPrefix_length _ _ Hp) as Hpl. rewrite slice_from_length in Hpl.
    apply HasPrefix_spec in Hp as [r Hr].
    rewrite slice_from_add, Hr, slice_from_app.
    destruct (Index r c) as [e|] eqn:He.
    + apply Index_Some in He as (a & b & -> & <-).
      assert (slice txt (i + String.length o) (String.length a) = a) as Hkey.
      { rewrite Hsplit at 1. rewrite Hr, <- str_app_assoc.
        replace (i + String.length o) with (String.length (slice txt 0 i +:+ o))
          by (rewrite str_length_app; lia).
        apply slice_app. }
      rewrite Hkey.
      assert (String.length txt = i + String.length o + String.length a
                                  + String.length c + String.length b) as Htl.
      { rewrite Hsplit at 1. rewrite Hr, !str_length_app. lia. }
      destruct (get values a) as [val|] eqn:Hg.
      * destruct (IH (i + String.length o + String.length a + String.length c)
                    (out +:+ val) true) as (res & Hres & Herr & _ & Htr & Hno).
        { lia. }
        { assert (0 < String.length o + String.length c).
          { destruct Hne as [H|H]; [destruct o|destruct c]; simpl; try done; lia. }
          lia. }
        exists res. split; [done|]. split_and!; [done| |intros _; by apply Htr|].
        -- intros _ _ Hch Herr'. rewrite (Htr eq_refl Herr') in Hch. done.
        -- intros Hnc. destruct Hnc. apply (contains_slice_from _ _ i).
           rewrite Hr. by exists "", (a +:+ c +:+ b).
      * eexists. split; [done|]. split_and!.
        -- intros key [= <-]. split; [done|]. rewrite Hsplit, Hr.
           exists (slice txt 0 i), b. by rewrite !str_app_assoc.
        -- done.
        -- done.
        -- intros Hnc. destruct Hnc. apply (contains_slice_from _ _ i).
           rewrite Hr. by exists "", (a +:+ c +:+ b).
    + eexists. split; [done|]. split_and!; [done| |by intros ->|done].
      intros _ -> _ _. simpl. by rewrite <- Hr, <- Hsplit.
  - destruct (IH (i + 1) (out +:+ slice txt i 1) ch) as (res & Hres & Herr & Hun & Htr & Hno);
      [lia|lia|].
    exists res. split; [done|]. split_and!; [done| |done|done].
    intros Hch ->. apply Hun; [done|]. by apply slice_snoc.
Qed.

(** [loopReplacer] returns, and what it reports is right: a key it names
    as not set is not in the map and stands between the delimiters in the
    input; a result that is not flagged as changed is the input itself; and
    an input without the open delimiter comes back as it is.  (The first
    point is what [buildNewReplacer] does not give, see C1.) *)
Theorem loopReplacer_sound (txt o c : string) (values : StringMap) :
  o ≠ "" ∨ c ≠ "" →
  ∃ res, loopReplacer txt o c values = Some res
    ∧ (∀ key, error_of res = Some (ErrNotSet key) →
         get values key = None ∧ contains txt (o +:+ key +:+ c))
    ∧ (res.1.2 = false → error_of res = None → res.1.1 = Some txt)
    ∧ (¬ contains txt o → res = (Some txt, false, None)).
Proof.
  intros Hne. unfold loopReplacer.
  destruct (loop_from_spec txt o c values Hne (S (String.length txt)) 0 "" false)
    as (res & Hres & Herr & Hun & _ & Hno); [lia|lia|].
  exists res. split; [done|]. split_and!; [done| |].
  - intros Hch He. apply Hun; try done. unfold slice. by destruct txt.
  - intros Hnc. destruct (Hno Hnc) as [Hch He].
    destruct res as [[out ch] err]. simpl in *. subst.
    f_equal. f_equal. apply Hun; try done. unfold slice. by destruct txt.
Qed.

Lemma loopReplacer_sound_witness :
  ∃ res, loopReplacer "a: <::K::> <::L::>" "<::" "::>" [("K", "1")] = Some res
    ∧ (∀ key, error_of res = Some (ErrNotSet key) →
         get [("K", "1")] key = None
         ∧ contains "a: <::K::> <::L::>" ("<::" +:+ key +:+ "::>"))
    ∧ (res.1.2 = false → error_of res = None → res.1.1 = Some "a: <::K::> <::L::>")
    ∧ (¬ contains "a: <::K::> <::L::>" "<::" →
       res = (Some "a: <::K::> <::L::>", false, None)).
Proof.
  apply (loopReplacer_sound "a: <::K::> <::L::>" "<::" "::>" [("K", "1")]).
  by left.
Defined.

Lemma substring_zero (s : string) (n : nat) : substring n 0 s = "".
Proof.
  revert n. induction s as [|a s IH]; intros [|n]; simpl; done.
Qed.

(** Why a delimiter must not be empty: with both delimiters empty and the
    empty key in the map, the loop finds the empty key at [i], writes its
    value and leaves [i] where it was.  No number of turns ends it. *)
Theorem loopReplacer_spins_on_empty_delimiters (txt v : string)
    (values : StringMap) (i fuel : nat) (out : string) (changed : bool) :
  get values "" = Some v → i < String.length txt →
  loop_from fuel txt "" "" values i out changed = None.
Proof.
  intros Hg Hi. revert out changed.
  induction fuel as [|fuel IH]; intros out changed; simpl; [done|].
  apply Nat.ltb_lt in Hi. rewrite Hi.
  assert (∀ s, HasPrefix s "" = true) as Hp by (intros s; by destruct s).
  rewrite Hp. simpl. rewrite !Nat.add_0_r.
  assert (Index (slice_from txt i) "" = Some 0) as -> by (by destruct (slice_from txt i)).
  unfold slice. rewrite substring_zero, Hg, !Nat.add_0_r. apply IH.
Qed.

Lemma loopReplacer_spins_on_empty_delimiters_witness :
  loop_from 1000 "abc" "" "" [("", "x")] 0 "" false = None.
Proof.
  apply (loopReplacer_spins_on_empty_delimiters "abc" "x" [("", "x")] 0 1000 "" false).
  - reflexivity.
  - simpl. lia.
Defined.

(** ** What a run never does *)

Lemma processFile_keeps_perm (path : string) (rep : replacer) (fs fs' : fsys)
    (err : option error) :
  processFile path rep fs = Some (fs', err) →
  perm <$> fs' !! path = perm <$> fs !! path.
Proof.
  unfold processFile, ReadFile, Stat, WriteFile.
  destruct (fs !! path) as [f|] eqn:Hf; simpl.
  - destruct (rep (data f)) as [[out changed] [e|]].
    + intros [= <- _]. by rewrite Hf.
    + destruct changed.
      * destruct (writable f).
        -- intros [= <- _]. by rewrite lookup_insert_eq.
        -- intros [= <- _]. by rewrite Hf.
      * intros [= <- _]. by rewrite Hf.
  - intros [= <- _]. by rewrite Hf.
Qed.

(** A run creates no file, removes none and changes no file mode: after a
    run every path has a file exactly when it had one before, with the
    mode it had.  A run with up to [max_workers] workers returns; the
    statement holds for every run that returns, with any positive number
    of workers. *)
Theorem run_keeps_files_and_modes (cfg : config) (tree : list dirEntry) (fs : fsys) :
  (0 < Workers cfg)%Z →
  NoDup (sent (FileFilter cfg) tree) →
  ((Workers cfg ≤ max_workers)%Z → ∃ fs' ret, processFiles cfg tree fs fs' ret)
  ∧ ∀ fs' ret, processFiles cfg tree fs fs' ret →
      ∀ p, perm <$> fs' !! p = perm <$> fs !! p.
Proof.
  intros Hw Hnd.
  destruct (processFiles_outcome cfg tree fs Hw Hnd) as [Hex Hall].
  split; [done|]. intros fs' ret Hrun p. cbv zeta in Hall.
  destruct (Hall _ _ Hrun) as [Hdisk _]. rewrite Hdisk.
  destruct (decide _); [|done]. unfold file_after.
  destruct (processFile p _ fs) as [[fs1 e1]|] eqn:Hp; [|done].
  by apply (processFile_keeps_perm _ _ _ _ _ Hp).
Qed.

Lemma run_keeps_files_and_modes_witness :
  let cfg := ex_cfg 2 [("NAME", "svc")] in
  let fs := ex_fs "<::NAME::>" "x" in
  (∃ fs' ret, processFiles cfg ex_tree fs fs' ret)
  ∧ ∀ fs' ret, processFiles cfg ex_tree fs fs' ret →
      ∀ p, perm <$> fs' !! p = perm <$> fs !! p.
Proof.
  destruct (run_keeps_files_and_modes (ex_cfg 2 [("NAME", "svc")]) ex_tree
              (ex_fs "<::NAME::>" "x") eq_refl ex_tree_NoDup) as [Hex Hall].
  split; [apply Hex; by vm_compute|exact Hall].
Defined.
